(** * Event marker: the event-file format, the save/load paths and the
      GUI handlers of [src/gui.py], embedded and verified.

    The first part embeds the program, layer by layer:
    - [PyLit]: the Python values that an event file holds, [repr]/[str] of
      them (what [str(dict(markers))] writes) and [ast.literal_eval] on the
      fragment of Python literals built from ints, strings, lists and dicts;
    - [OsPath], [Regex], [TaskPattern]: [os.path] (POSIX flavour), [re.search]
      and the task-naming pattern used to derive the event-file name;
    - [PyFloat], [PyInt]: float arithmetic ([binary64]), [round] and [int];
    - [EventManager]: the event log (markers, undo and redo stacks);
    - [Gui]: the [VideoPlayer] methods, as state transformers that log the
      calls they make on their collaborators, over a disk of files held as
      bytes;
    - [FloatValue], [FrameClock]: the real number that a float denotes, and
      the frame/time conversions of the design document on [binary64]
      frame rates.

    The second part states and proves the properties, one module of facts
    per layer. *)

From Stdlib Require Import Ascii String.
From Stdlib Require Import ZArith NArith List Bool Lia.
From Stdlib Require Import Sorting.Sorted Sorting.Permutation.
From Stdlib Require Import Floats.
From Stdlib Require Reals Lra.
Import ListNotations.

Set Implicit Arguments.
Set Warnings "-register-all".

(** * The program *)

(** A Python [str] is modelled as the list of its code points; code points
    are restricted to 0..255, which covers every key name the configuration
    dialog offers ([Key_F1], [Key_0], [Key_A], ...). *)
Definition pystr := list ascii.

Notation "'py:' s" := (list_ascii_of_string s) (at level 5, format "'py:' s").

Fixpoint pystr_eqb (a b : pystr) : bool :=
  match a, b with
  | [], [] => true
  | x :: a', y :: b' => Ascii.eqb x y && pystr_eqb a' b'
  | _, _ => false
  end.

(** ** Decimal digits *)
Module Digits.

Definition digit_char (d : N) : ascii := ascii_of_N (48 + d).

Definition is_digit (c : ascii) : bool :=
  let k := N_of_ascii c in (48 <=? k)%N && (k <=? 57)%N.

Definition digit_val (c : ascii) : N := (N_of_ascii c - 48)%N.

(** [str(n)] for a natural number: most significant digit first, no
    leading zero. The fuel bounds the number of digits by the bit size. *)
Fixpoint N_digits_aux (fuel : nat) (n : N) (acc : pystr) : pystr :=
  match fuel with
  | O => acc
  | S f => if (n <? 10)%N then digit_char n :: acc
           else N_digits_aux f (n / 10)%N (digit_char (n mod 10)%N :: acc)
  end.

Definition N_digits (n : N) : pystr :=
  N_digits_aux (S (N.to_nat (N.size n))) n [].

(** Reading digits back: Horner's scheme. *)
Definition horner (a : N) (ds : pystr) : N :=
  fold_left (fun a c => (10 * a + digit_val c)%N) ds a.

Fixpoint span_digits (s : pystr) : pystr * pystr :=
  match s with
  | c :: r => if is_digit c
              then let '(ds, r') := span_digits r in (c :: ds, r')
              else ([], s)
  | [] => ([], [])
  end.

Definition starts_with_digit (s : pystr) : bool :=
  match s with c :: _ => is_digit c | [] => false end.

(** The digits written for [n]: all digits, at least one, value [n], and a
    leading ["0"] only for [n = 0]. *)
Record digits_of (n : N) (ds : pystr) : Prop := {
  do_digits : forallb is_digit ds = true;
  do_value : forall a, horner a ds = (a * 10 ^ N.of_nat (length ds) + n)%N;
  do_nonempty : ds <> [];
  do_lead : match ds with
            | c :: r => c = "0"%char -> r = [] /\ n = 0%N
            | [] => True
            end
}.

End Digits.

(** ** Python literals: values, [repr] and [ast.literal_eval] *)
Module PyLit.

Import Digits.

(** The values an event file can denote. A [dict] keeps insertion order
    (which [str] prints), so it is an association list. *)
Inductive PyValue : Type :=
| VInt (z : Z)
| VStr (s : pystr)
| VList (vs : list PyValue)
| VDict (kvs : list (PyValue * PyValue)).

Section PyValue_induction.

Variable P : PyValue -> Prop.

Hypothesis HInt : forall z, P (VInt z).

Hypothesis HStr : forall s, P (VStr s).

Hypothesis HList : forall vs, Forall P vs -> P (VList vs).

Hypothesis HDict : forall kvs,
  Forall (fun kv => P (fst kv) /\ P (snd kv)) kvs -> P (VDict kvs).

Fixpoint PyValue_nested_ind (v : PyValue) : P v :=
  match v with
  | VInt z => HInt z
  | VStr s => HStr s
  | VList vs =>
      HList ((fix go (l : list PyValue) : Forall P l :=
                match l with
                | [] => Forall_nil _
                | x :: l' => Forall_cons _ (PyValue_nested_ind x) (go l')
                end) vs)
  | VDict kvs =>
      HDict ((fix go (l : list (PyValue * PyValue))
                : Forall (fun kv => P (fst kv) /\ P (snd kv)) l :=
                match l with
                | [] => Forall_nil _
                | (k, x) :: l' =>
                    Forall_cons (k, x)
                      (conj (PyValue_nested_ind k) (PyValue_nested_ind x))
                      (go l')
                end) kvs)
  end.

End PyValue_induction.

(** Characters with a role in the syntax. *)
Definition c_squote : ascii := "'"%char.

Definition c_dquote : ascii := ascii_of_N 34.

Definition c_bslash : ascii := ascii_of_N 92.

Definition c_tab : ascii := ascii_of_N 9.

Definition c_lf : ascii := ascii_of_N 10.

Definition c_cr : ascii := ascii_of_N 13.

Definition c_nul : ascii := ascii_of_N 0.

(** *** [repr] *)

(** [repr] of an [int]. (CPython refuses to print integers of more than
    4300 digits; frame numbers never get there, and the model prints every
    integer.) *)
Definition repr_int (z : Z) : pystr :=
  if (z <? 0)%Z then "-"%char :: N_digits (Z.abs_N z) else N_digits (Z.abs_N z).

Definition hex_char (d : N) : ascii :=
  if (d <? 10)%N then ascii_of_N (48 + d) else ascii_of_N (87 + d).

(** [str.isprintable] on code points 0..255: the ASCII graphic characters
    and space, and Latin-1 from U+00A1 on except the soft hyphen U+00AD. *)
Definition is_printable (c : ascii) : bool :=
  let k := N_of_ascii c in
  ((32 <=? k) && (k <? 127) || (161 <=? k) && negb (k =? 173))%N.

(** [repr] of a [str] picks double quotes when the text has a single quote
    and no double quote, single quotes otherwise. *)
Definition choose_quote (s : pystr) : ascii :=
  if existsb (Ascii.eqb c_squote) s && negb (existsb (Ascii.eqb c_dquote) s)
  then c_dquote else c_squote.

Definition escape_char (q c : ascii) : pystr :=
  if Ascii.eqb c q || Ascii.eqb c c_bslash then [c_bslash; c]
  else if Ascii.eqb c c_tab then [c_bslash; "t"%char]
  else if Ascii.eqb c c_lf then [c_bslash; "n"%char]
  else if Ascii.eqb c c_cr then [c_bslash; "r"%char]
  else if is_printable c then [c]
  else [c_bslash; "x"%char; hex_char (N_of_ascii c / 16);
        hex_char (N_of_ascii c mod 16)].

Definition repr_str (s : pystr) : pystr :=
  let q := choose_quote s in
  q :: flat_map (escape_char q) s ++ [q].

(** Items are separated by a comma and one space, a key from its value by a
    colon and one space. *)
Fixpoint py_repr (v : PyValue) : pystr :=
  match v with
  | VInt z => repr_int z
  | VStr s => repr_str s
  | VList vs =>
      "["%char ::
      (fix items (l : list PyValue) : pystr :=
         match l with
         | [] => []
         | x :: l' =>
             py_repr x ++
             match l' with
             | [] => []
             | _ :: _ => ","%char :: " "%char :: items l'
             end
         end) vs ++ ["]"%char]
  | VDict kvs =>
      "{"%char ::
      (fix entries (l : list (PyValue * PyValue)) : pystr :=
         match l with
         | [] => []
         | (k, x) :: l' =>
             py_repr k ++ ":"%char :: " "%char :: py_repr x ++
             match l' with
             | [] => []
             | _ :: _ => ","%char :: " "%char :: entries l'
             end
         end) kvs ++ ["}"%char]
  end.

(** The two local loops of [py_repr], named. *)
Fixpoint repr_items (l : list PyValue) : pystr :=
  match l with
  | [] => []
  | x :: l' =>
      py_repr x ++
      match l' with
      | [] => []
      | _ :: _ => ","%char :: " "%char :: repr_items l'
      end
  end.

Fixpoint repr_entries (l : list (PyValue * PyValue)) : pystr :=
  match l with
  | [] => []
  | (k, x) :: l' =>
      py_repr k ++ ":"%char :: " "%char :: py_repr x ++
      match l' with
      | [] => []
      | _ :: _ => ","%char :: " "%char :: repr_entries l'
      end
  end.

(** *** [ast.literal_eval] *)

(** Dictionary keys must be hashable: of our values, ints and strings. *)
Definition hashable (v : PyValue) : bool :=
  match v with VInt _ | VStr _ => true | _ => false end.

Definition key_eqb (a b : PyValue) : bool :=
  match a, b with
  | VInt x, VInt y => (x =? y)%Z
  | VStr x, VStr y => pystr_eqb x y
  | _, _ => false
  end.

(** [d[k] = v]: replaces the value of an existing key in place, appends a
    new key at the end. *)
Fixpoint dict_set {V} (k : PyValue) (v : V) (d : list (PyValue * V))
  : list (PyValue * V) :=
  match d with
  | [] => [(k, v)]
  | (k', v') :: d' =>
      if key_eqb k' k then (k', v) :: d' else (k', v') :: dict_set k v d'
  end.

Fixpoint dict_get {V} (k : PyValue) (d : list (PyValue * V)) : option V :=
  match d with
  | [] => None
  | (k', v') :: d' => if key_eqb k' k then Some v' else dict_get k d'
  end.

(** [d.update(pairs)], and [dict(zip(keys, values))]: the pairs are assigned
    left to right. *)
Definition dict_update {V} (d : list (PyValue * V)) (kvs : list (PyValue * V))
  : list (PyValue * V) :=
  fold_left (fun d kv => dict_set (fst kv) (snd kv) d) kvs d.

Definition dict_of_pairs {V} (kvs : list (PyValue * V)) : list (PyValue * V) :=
  dict_update [] kvs.

Definition mk_dict (kvs : list (PyValue * PyValue)) : option PyValue :=
  if forallb (fun kv => hashable (fst kv)) kvs
  then Some (VDict (dict_of_pairs kvs))
  else None.

Definition is_space (c : ascii) : bool :=
  Ascii.eqb c " "%char || Ascii.eqb c c_tab || Ascii.eqb c (ascii_of_N 12).

Definition is_newline (c : ascii) : bool :=
  Ascii.eqb c c_lf || Ascii.eqb c c_cr.

(** Blanks between tokens; line ends count as blanks only inside brackets
    ([br = true]). *)
Fixpoint skip_ws (br : bool) (s : pystr) : pystr :=
  match s with
  | c :: r => if is_space c || is_newline c && br then skip_ws br r else s
  | [] => []
  end.

Definition hex_val (c : ascii) : option N :=
  let k := N_of_ascii c in
  if ((48 <=? k) && (k <=? 57))%N then Some (k - 48)%N
  else if ((97 <=? k) && (k <=? 102))%N then Some (k - 87)%N
  else if ((65 <=? k) && (k <=? 70))%N then Some (k - 55)%N
  else None.

(** One-letter escapes. (Octal escapes, [\N], [\u], [\U], a backslash
    before a line end and the unknown escapes that Python still lets
    through are outside the fragment.) *)
Definition unescape (e : ascii) : option ascii :=
  if Ascii.eqb e c_bslash then Some c_bslash
  else if Ascii.eqb e c_squote then Some c_squote
  else if Ascii.eqb e c_dquote then Some c_dquote
  else if Ascii.eqb e "n"%char then Some c_lf
  else if Ascii.eqb e "r"%char then Some c_cr
  else if Ascii.eqb e "t"%char then Some c_tab
  else if Ascii.eqb e "a"%char then Some (ascii_of_N 7)
  else if Ascii.eqb e "b"%char then Some (ascii_of_N 8)
  else if Ascii.eqb e "f"%char then Some (ascii_of_N 12)
  else if Ascii.eqb e "v"%char then Some (ascii_of_N 11)
  else None.

Definition cons_fst {A B} (a : A) (r : option (list A * B))
  : option (list A * B) :=
  match r with Some (l, b) => Some (a :: l, b) | None => None end.

(** The body of a string literal opened by quote [q], up to and including
    the closing quote. A raw line end or NUL inside the literal is an error. *)
Fixpoint parse_str_body (q : ascii) (s : pystr) : option (pystr * pystr) :=
  match s with
  | [] => None
  | c :: r =>
      if Ascii.eqb c q then Some ([], r)
      else if Ascii.eqb c c_bslash then
        match r with
        | e :: r1 =>
            if Ascii.eqb e "x"%char then
              match r1 with
              | h1 :: h2 :: r2 =>
                  match hex_val h1, hex_val h2 with
                  | Some a, Some b =>
                      cons_fst (ascii_of_N (16 * a + b)) (parse_str_body q r2)
                  | _, _ => None
                  end
              | _ => None
              end
            else
              match unescape e with
              | Some c' => cons_fst c' (parse_str_body q r1)
              | None => None
              end
        | [] => None
        end
      else if is_newline c || Ascii.eqb c c_nul then None
      else cons_fst c (parse_str_body q r)
  end.

(** A decimal integer literal: digits, with a leading zero only in a
    literal made of zeros. (CPython refuses literals of more than 4300
    digits; the model reads every literal.) *)
Definition leading_zero_ok (ds : pystr) : bool :=
  match ds with
  | c :: _ :: _ => negb (Ascii.eqb c "0"%char) || forallb (Ascii.eqb "0"%char) ds
  | _ => true
  end.

Definition parse_nat (s : pystr) : option (N * pystr) :=
  match span_digits s with
  | ([], _) => None
  | (ds, r) => if leading_zero_ok ds then Some (horner 0 ds, r) else None
  end.

(** The reader, by recursive descent, of this fragment of the literal
    syntax: decimal ints with an optional sign, strings in single or double
    quotes with the escapes above, lists and dicts with an optional trailing
    comma, blanks between tokens. Text with another form of literal (a
    float, a tuple, a set, [None], [True], bytes, a prefixed or underscored
    number, a triple-quoted or adjacent string, a comment) is outside the
    fragment and is not read. [n] bounds the nesting of calls; every call
    consumes input, so [literal_eval] below gives it enough. *)
Fixpoint parse_value (br : bool) (n : nat) (s : pystr) {struct n}
  : option (PyValue * pystr) :=
  match n with
  | O => None
  | S n' =>
      match skip_ws br s with
      | [] => None
      | c :: r =>
          if Ascii.eqb c "["%char then
            match parse_elems n' r with
            | Some (vs, r') => Some (VList vs, r')
            | None => None
            end
          else if Ascii.eqb c "{"%char then
            match parse_entries n' r with
            | Some (kvs, r') =>
                match mk_dict kvs with
                | Some d => Some (d, r')
                | None => None
                end
            | None => None
            end
          else if Ascii.eqb c c_squote || Ascii.eqb c c_dquote then
            match parse_str_body c r with
            | Some (str, r') => Some (VStr str, r')
            | None => None
            end
          else if Ascii.eqb c "-"%char then
            match parse_nat (skip_ws br r) with
            | Some (m, r') => Some (VInt (- Z.of_N m), r')
            | None => None
            end
          else if Ascii.eqb c "+"%char then
            match parse_nat (skip_ws br r) with
            | Some (m, r') => Some (VInt (Z.of_N m), r')
            | None => None
            end
          else
            match parse_nat (c :: r) with
            | Some (m, r') => Some (VInt (Z.of_N m), r')
            | None => None
            end
      end
  end
with parse_elems (n : nat) (s : pystr) {struct n}
  : option (list PyValue * pystr) :=
  match n with
  | O => None
  | S n' =>
      match skip_ws true s with
      | [] => None
      | c :: r =>
          if Ascii.eqb c "]"%char then Some ([], r)
          else
            match parse_value true n' (c :: r) with
            | Some (v, r1) =>
                match skip_ws true r1 with
                | c1 :: r2 =>
                    if Ascii.eqb c1 ","%char then
                      match parse_elems n' r2 with
                      | Some (vs, r3) => Some (v :: vs, r3)
                      | None => None
                      end
                    else if Ascii.eqb c1 "]"%char then Some ([v], r2)
                    else None
                | [] => None
                end
            | None => None
            end
      end
  end
with parse_entries (n : nat) (s : pystr) {struct n}
  : option (list (PyValue * PyValue) * pystr) :=
  match n with
  | O => None
  | S n' =>
      match skip_ws true s with
      | [] => None
      | c :: r =>
          if Ascii.eqb c "}"%char then Some ([], r)
          else
            match parse_value true n' (c :: r) with
            | Some (k, r1) =>
                match skip_ws true r1 with
                | c1 :: r2 =>
                    if Ascii.eqb c1 ":"%char then
                      match parse_value true n' r2 with
                      | Some (v, r3) =>
                          match skip_ws true r3 with
                          | c2 :: r4 =>
                              if Ascii.eqb c2 ","%char then
                                match parse_entries n' r4 with
                                | Some (kvs, r5) => Some ((k, v) :: kvs, r5)
                                | None => None
                                end
                              else if Ascii.eqb c2 "}"%char
                              then Some ([(k, v)], r4)
                              else None
                          | [] => None
                          end
                      | None => None
                      end
                    else None
                | [] => None
                end
            | None => None
            end
      end
  end.

(** The layout of the text around the literal, as the tokenizer (of
    CPython 3.11) takes it. Before the literal: blank lines, then the
    literal at the start of its line, where a space or a tab indents and a
    form feed takes the column back to 0. [col0] tells whether the column is
    0; the answer is the text from the literal on, [None] for an
    indentation error or a text with no literal. *)
Fixpoint leading (col0 : bool) (s : pystr) : option pystr :=
  match s with
  | [] => None
  | c :: r =>
      if Ascii.eqb c " "%char || Ascii.eqb c c_tab then leading false r
      else if Ascii.eqb c (ascii_of_N 12) then leading true r
      else if is_newline c then leading true r
      else if col0 then Some s else None
  end.

(** After the literal: blanks on its line, then blank lines; a last line
    that ends the text must not be indented. [same_line] tells whether the
    line of the literal is still the current one. *)
Fixpoint trailing (same_line col0 : bool) (s : pystr) : bool :=
  match s with
  | [] => same_line || col0
  | c :: r =>
      if Ascii.eqb c " "%char || Ascii.eqb c c_tab then trailing same_line false r
      else if Ascii.eqb c (ascii_of_N 12) then trailing same_line true r
      else if is_newline c then trailing false true r
      else false
  end.

(** [text.lstrip(" \t")] *)
Fixpoint lstrip_blanks (s : pystr) : pystr :=
  match s with
  | c :: r => if Ascii.eqb c " "%char || Ascii.eqb c c_tab
              then lstrip_blanks r else s
  | [] => []
  end.

(** [ast.literal_eval(text)] on the fragment. Leading spaces and tabs are
    stripped and the whole text must be one literal. On a text of the
    fragment [None] stands for the exception that is raised ([SyntaxError],
    [IndentationError], [ValueError], [TypeError] for an unhashable key);
    a text outside the fragment is not read either, and [foreign] below
    tells the two apart. (The limits of the implementation, on the depth of
    nesting and on the length of an integer literal, are not modelled.) *)
Definition literal_eval (text : pystr) : option PyValue :=
  match leading true (lstrip_blanks text) with
  | None => None
  | Some s =>
      match parse_value false (2 * length text + 2) s with
      | Some (v, r) => if trailing true false r then Some v else None
      | None => None
      end
  end.

(** *** Texts outside the fragment *)

(** How the body of a string literal opened by quote [q] ends: at its
    closing quote, at an error (the text or the line ends first, a NUL, a
    [\x] without two hex digits), or at an escape that the fragment does
    not have. *)
Inductive StrEnd : Type :=
| Closed (rest : pystr)
| Broken
| OtherEscape.

Fixpoint str_end (q : ascii) (s : pystr) : StrEnd :=
  match s with
  | [] => Broken
  | c :: r =>
      if Ascii.eqb c q then Closed r
      else if Ascii.eqb c c_bslash then
        match r with
        | e :: r1 =>
            if Ascii.eqb e "x"%char then
              match r1 with
              | h1 :: h2 :: r2 =>
                  match hex_val h1, hex_val h2 with
                  | Some _, Some _ => str_end q r2
                  | _, _ => Broken
                  end
              | _ => Broken
              end
            else
              match unescape e with
              | Some _ => str_end q r1
              | None => OtherEscape
              end
        | [] => Broken
        end
      else if is_newline c || Ascii.eqb c c_nul then Broken
      else str_end q r
  end.

(** An open bracket: a square one, or a brace with what its current entry
    has shown so far (a token, its colon). *)
Inductive Frame : Type :=
| Square
| Brace (tok colon : bool).

(** A token arrives in the innermost bracket. *)
Definition touch (st : list Frame) : list Frame :=
  match st with
  | Brace _ colon :: st' => Brace true colon :: st'
  | _ => st
  end.

(** Whether the text may hold a literal that is outside the fragment. The
    text is scanned token by token, and is foreign when it shows
    - a character that is no blank and starts no token of the fragment (a
      letter, a dot, a parenthesis, a [#], ...),
    - an escape that the fragment does not have,
    - two strings in a row, which Python reads as one (a triple-quoted
      string starts this way),
    - a comma outside every bracket, which makes a tuple,
    - braces with an entry that has no colon, which make a set.
    [st] is the stack of the open brackets and [after_str] tells whether
    the last token was a string. A text that is not foreign and that the
    reader above does not read is one on which [ast.literal_eval] raises.
    [n] bounds the number of tokens. *)
Fixpoint foreign_from (n : nat) (st : list Frame) (after_str : bool)
  (s : pystr) {struct n} : bool :=
  match n with
  | O => false
  | S n' =>
      match s with
      | [] => false
      | c :: r =>
          if is_space c || is_newline c then foreign_from n' st after_str r
          else if is_digit c then foreign_from n' (touch st) false r
          else if Ascii.eqb c c_squote || Ascii.eqb c c_dquote then
            after_str ||
            match str_end c r with
            | Closed r' => foreign_from n' (touch st) true r'
            | Broken => false
            | OtherEscape => true
            end
          else if Ascii.eqb c "+"%char || Ascii.eqb c "-"%char then
            foreign_from n' (touch st) false r
          else if Ascii.eqb c "["%char then
            foreign_from n' (Square :: touch st) false r
          else if Ascii.eqb c "{"%char then
            foreign_from n' (Brace false false :: touch st) false r
          else if Ascii.eqb c "]"%char then foreign_from n' (tl st) false r
          else if Ascii.eqb c "}"%char then
            match st with
            | Brace true false :: _ => true
            | _ => foreign_from n' (tl st) false r
            end
          else if Ascii.eqb c ","%char then
            match st with
            | [] => true
            | Brace true false :: _ => true
            | Brace _ _ :: st' => foreign_from n' (Brace false false :: st') false r
            | Square :: _ => foreign_from n' st false r
            end
          else if Ascii.eqb c ":"%char then
            match st with
            | Brace tok _ :: st' => foreign_from n' (Brace tok true :: st') false r
            | _ => foreign_from n' st false r
            end
          else true
      end
  end.

Definition foreign (text : pystr) : bool :=
  foreign_from (length text) [] false text.

(** *** Reading back what [repr] wrote *)

(** Characters that can start a token: not a blank, not a closing bracket. *)
Definition tok_start (c : ascii) : bool :=
  negb (is_space c || is_newline c || Ascii.eqb c "]"%char
        || Ascii.eqb c "}"%char).

Ltac ascii_cases c :=
  destruct c as [[] [] [] [] [] [] [] []].

(** Values that [literal_eval] can return: dictionary keys are hashable
    and pairwise distinct, at every depth. *)
Inductive wf_value : PyValue -> Prop :=
| wf_int z : wf_value (VInt z)
| wf_str s : wf_value (VStr s)
| wf_list vs : Forall wf_value vs -> wf_value (VList vs)
| wf_dict kvs :
    NoDup (map fst kvs) ->
    Forall (fun kv => hashable (fst kv) = true /\ wf_value (snd kv)) kvs ->
    wf_value (VDict kvs).

(** What the induction carries: [repr v], followed by anything that does
    not extend a number, reads back as [v]. *)
Definition roundtrips (v : PyValue) : Prop :=
  forall br n rest,
    2 * length (py_repr v) <= n ->
    starts_with_digit rest = false ->
    parse_value br n (py_repr v ++ rest) = Some (v, rest).

(** *** [==] and [sorted] *)

(** [a == b]. Lists compare element by element; dicts compare as mappings,
    whatever the insertion order. *)
Fixpoint py_eqb (a b : PyValue) : bool :=
  match a, b with
  | VInt x, VInt y => (x =? y)%Z
  | VStr x, VStr y => pystr_eqb x y
  | VList xs, VList ys =>
      (fix go (l1 l2 : list PyValue) : bool :=
         match l1, l2 with
         | [], [] => true
         | x :: l1', y :: l2' => py_eqb x y && go l1' l2'
         | _, _ => false
         end) xs ys
  | VDict xs, VDict ys =>
      (length xs =? length ys)%nat &&
      (fix go (l : list (PyValue * PyValue)) : bool :=
         match l with
         | [] => true
         | (k, x) :: l' =>
             match dict_get k ys with
             | Some y => py_eqb x y
             | None => false
             end && go l'
         end) xs
  | _, _ => false
  end.

(** [sorted] on a list of ints: insertion into an ascending list, one
    element at a time. (Any sorting algorithm returns the same list.) *)
Fixpoint insert_sorted (x : Z) (l : list Z) : list Z :=
  match l with
  | [] => [x]
  | y :: l' => if (x <=? y)%Z then x :: l else y :: insert_sorted x l'
  end.

Definition sorted_ints (l : list Z) : list Z := fold_right insert_sorted [] l.

Fixpoint as_ints (l : list PyValue) : option (list Z) :=
  match l with
  | [] => Some []
  | VInt z :: l' => option_map (cons z) (as_ints l')
  | _ :: _ => None
  end.

End PyLit.

(** ** [os.path], POSIX flavour ([posixpath]) *)
Module OsPath.

(** [s.rfind(c)]: the index of the last occurrence, [-1] when there is none. *)
Fixpoint rfind_from (c : ascii) (s : pystr) (i last : Z) : Z :=
  match s with
  | [] => last
  | x :: r => rfind_from c r (i + 1) (if Ascii.eqb x c then i else last)
  end.

Definition rfind (c : ascii) (s : pystr) : Z := rfind_from c s 0 (-1).

(** [p[i:]] and [p[:i]] for [0 <= i]. *)
Definition slice_from (i : Z) (p : pystr) : pystr := skipn (Z.to_nat i) p.

Definition slice_to (i : Z) (p : pystr) : pystr := firstn (Z.to_nat i) p.

(** [i = p.rfind('/') + 1; return p[i:]] *)
Definition basename (p : pystr) : pystr :=
  slice_from (rfind "/"%char p + 1) p.

(** [genericpath._splitext]: the extension starts at the last dot of the
    last component, unless that component has only leading dots before it. *)
Definition splitext (p : pystr) : pystr * pystr :=
  let sepIndex := rfind "/"%char p in
  let dotIndex := rfind "."%char p in
  if (dotIndex >? sepIndex)%Z then
    let filenameIndex := (sepIndex + 1)%Z in
    let between :=
      slice_to (dotIndex - filenameIndex) (slice_from filenameIndex p) in
    if existsb (fun c => negb (Ascii.eqb c "."%char)) between
    then (slice_to dotIndex p, slice_from dotIndex p)
    else (p, [])
  else (p, []).

(** [s.rstrip('/')] *)
Definition rstrip_sep (s : pystr) : pystr :=
  rev ((fix drop (l : pystr) : pystr :=
          match l with
          | c :: r => if Ascii.eqb c "/"%char then drop r else l
          | [] => []
          end) (rev s)).

(** [posixpath.dirname]: the text up to the last slash, without trailing
    slashes unless it consists of slashes only. *)
Definition dirname (p : pystr) : pystr :=
  let head := slice_to (rfind "/"%char p + 1) p in
  if forallb (Ascii.eqb "/"%char) head then head else rstrip_sep head.

Definition startswith (c : ascii) (s : pystr) : bool :=
  match s with x :: _ => Ascii.eqb x c | [] => false end.

Definition endswith (c : ascii) (s : pystr) : bool :=
  startswith c (rev s).

(** [os.path.join(a, b)] *)
Definition join (a b : pystr) : pystr :=
  if startswith "/"%char b then b
  else if match a with [] => true | _ => endswith "/"%char a end then a ++ b
  else a ++ "/"%char :: b.

End OsPath.

(** ** Regular expressions, as [re.search] runs them *)
Module Regex.

(** The operators the task-naming pattern uses. [LazyStar p] is [c*?] for a
    character class [c]. Alternatives are tried left to right and the lazy
    star tries the shortest extension first, with backtracking. *)
Inductive re : Type :=
| Eps
| Chr (p : ascii -> bool)
| Seq (a b : re)
| Alt (a b : re)
| LazyStar (p : ascii -> bool).


Fixpoint lazy_star {A} (p : ascii -> bool) (k : pystr -> option A)
  (s : pystr) : option A :=
  match k s with
  | Some x => Some x
  | None =>
      match s with
      | c :: s' => if p c then lazy_star p k s' else None
      | [] => None
      end
  end.

(** Backtracking matcher in continuation-passing style: [k] matches the
    rest of the pattern and answers with the text left after the match. *)
Fixpoint rmatch {A} (r : re) (k : pystr -> option A) (s : pystr) : option A :=
  match r with
  | Eps => k s
  | Chr p => match s with
             | c :: s' => if p c then k s' else None
             | [] => None
             end
  | Seq a b => rmatch a (rmatch b k) s
  | Alt a b => match rmatch a k s with
               | Some x => Some x
               | None => rmatch b k s
               end
  | LazyStar p => lazy_star p k s
  end.

(** The text consumed by a match on [s] that left [rest]. *)
Definition matched (s rest : pystr) : pystr :=
  firstn (length s - length rest) s.

(** [re.search(r, s)]: the first start position, left to right, at which
    the pattern matches; [m.group()] is the matched text. *)
Fixpoint search (r : re) (s : pystr) : option pystr :=
  match rmatch r (fun rest => Some rest) s with
  | Some rest => Some (matched s rest)
  | None => match s with
            | _ :: s' => search r s'
            | [] => None
            end
  end.

End Regex.

(** ** The task-naming pattern of [save_event] and [load_events_silent] *)
Module TaskPattern.

Import Regex.

(** ASCII lower case; with [re.IGNORECASE] a letter of the pattern matches
    both of its cases (on code points 0..255 only those). *)
Definition lower (c : ascii) : ascii :=
  let k := N_of_ascii c in
  if ((65 <=? k) && (k <=? 90))%N then ascii_of_N (k + 32) else c.

Definition ci (x : ascii) : re := Chr (fun c => Ascii.eqb (lower c) (lower x)).

Fixpoint lit (w : pystr) : re :=
  match w with
  | [] => Eps
  | x :: w' => Seq (ci x) (lit w')
  end.

(** [\d], and [.] (anything but a line feed). *)
Definition digit : re := Chr Digits.is_digit.

Definition dot (c : ascii) : bool := negb (Ascii.eqb c PyLit.c_lf).

Infix ">>" := Seq (at level 61, right associativity).

(** [r'2025\d{4}-(Pici|Fusillo)-(TS|BBT|Brinkman|Pull).*?-\d{1,2}'],
    compiled with [re.IGNORECASE]. *)
Definition task_re : re :=
  lit py:"2025" >> digit >> digit >> digit >> digit >> lit py:"-" >>
  Alt (lit py:"Pici") (lit py:"Fusillo") >> lit py:"-" >>
  Alt (lit py:"TS") (Alt (lit py:"BBT") (Alt (lit py:"Brinkman") (lit py:"Pull"))) >>
  LazyStar dot >> lit py:"-" >> digit >> Alt digit Eps.

(** [m = re.search(pattern, fname, re.IGNORECASE)]; [Some] holds [m.group()]. *)
Definition task_search (fname : pystr) : option pystr := search task_re fname.

End TaskPattern.

(** ** Python floats ([binary64]) and the conversions the GUI uses *)
Module PyFloat.

(** [float(z)] for an int: rounded to nearest even; [None] is the
    [OverflowError] of an int too large for a float. *)
Definition float_of_int (z : Z) : option float :=
  let x := SF2Prim (binary_normalize prec emax z 0 false) in
  if is_infinity x then None else Some x.

(** [round(a / b)] for integers [a] and [0 < b]: the nearest integer, a
    half going to the even neighbour, as Python's [round] does. *)
Definition round_div (a b : Z) : Z :=
  let q := (a / b)%Z in
  let r := (a mod b)%Z in
  if (2 * r <? b)%Z then q
  else if (b <? 2 * r)%Z then (q + 1)%Z
  else if Z.even q then q else (q + 1)%Z.

(** The integer nearest to a finite float given as [m * 2^e], and the
    integer part of it. *)
Definition nearest_even (m e : Z) : Z :=
  if (0 <=? e)%Z then m * 2 ^ e else round_div m (2 ^ (- e)).


(** [round(x)]: [None] is the [ValueError] on a NaN or the [OverflowError]
    on an infinity. *)
Definition py_round (x : float) : option Z :=
  match Prim2SF x with
  | S754_zero _ => Some 0%Z
  | S754_infinity _ => None
  | S754_nan => None
  | S754_finite s m e =>
      let a := nearest_even (Z.pos m) e in
      Some (if s then (- a)%Z else a)
  end.


(** [a / b] on floats: [None] is the [ZeroDivisionError]. *)
Definition truediv (a b : float) : option float :=
  if (b =? 0)%float then None else Some (a / b)%float.

End PyFloat.

(** ** [int(text)] *)
Module PyInt.

Import Digits.

(** The white space that [int] skips around the number, among the code
    points at most 255: the ASCII blanks and the two spaces of Latin-1.
    (The separators 28..31, which [str.strip] removes, are not skipped.) *)
Definition is_py_space (c : ascii) : bool :=
  let k := N_of_ascii c in
  ((9 <=? k) && (k <=? 13) || (k =? 32) || (k =? 133) || (k =? 160))%N.

Fixpoint lstrip (s : pystr) : pystr :=
  match s with
  | c :: r => if is_py_space c then lstrip r else s
  | [] => []
  end.

Definition strip (s : pystr) : pystr := rev (lstrip (rev (lstrip s))).

(** Digits, with single underscores allowed between two digits.
    [prev] tells whether the previous character was a digit. *)
Fixpoint int_body (prev : bool) (acc : N) (s : pystr) : option N :=
  match s with
  | [] => if prev then Some acc else None
  | c :: r =>
      if is_digit c then int_body true (10 * acc + digit_val c)%N r
      else if Ascii.eqb c "_"%char && prev then
        match r with
        | d :: _ => if is_digit d then int_body false acc r else None
        | [] => None
        end
      else None
  end.

(** [int(text)] in base 10; [None] is the [ValueError]. (The interpreter's
    limit on the length of decimal conversions is not modelled.) *)
Definition py_int (text : pystr) : option Z :=
  match strip text with
  | [] => None
  | c :: r =>
      if Ascii.eqb c "-"%char then option_map (fun n => (- Z.of_N n)%Z) (int_body false 0 r)
      else if Ascii.eqb c "+"%char then option_map Z.of_N (int_body false 0 r)
      else option_map Z.of_N (int_body false 0 (c :: r))
  end.

End PyInt.

(** ** The event log *)
Module EventManager.

Import PyLit.

Inductive OpKind : Type := ADD | REMOVE.

Record Op : Type := { op_kind : OpKind; op_key : PyValue; op_frame : Z }.

(** Modelled from the spec: the [EventManager] class ([event_manager.py] is
    not among the sources). Its state is the [markers] mapping, from a key
    to the list of frames marked with it, and the undo and redo stacks of
    reversible operations. *)
Record EventLog : Type := {
  markers : list (PyValue * list PyValue);
  undo_stack : list Op;
  redo_stack : list Op
}.

(** Modelled from the spec: [clear()] empties [markers], [undo_stack] and
    [redo_stack]. *)
Definition clear (e : EventLog) : EventLog :=
  {| markers := []; undo_stack := []; redo_stack := [] |}.

Definition empty : EventLog := clear {| markers := []; undo_stack := []; redo_stack := [] |}.

(** [dict(markers)], as a value. *)
Definition markers_dict (m : list (PyValue * list PyValue)) : PyValue :=
  VDict (map (fun kv => (fst kv, VList (snd kv))) m).

(** The data-model invariant on a marker mapping, as far as the file format
    is concerned: distinct hashable keys, each with an ascending list of
    ints. *)
Definition ascending (l : list PyValue) : Prop :=
  exists zs, l = map VInt zs /\ Sorted Z.le zs.

Definition log_wf (m : list (PyValue * list PyValue)) : Prop :=
  NoDup (map fst m) /\
  Forall (fun kv => hashable (fst kv) = true /\ ascending (snd kv)) m.

End EventManager.

(** ** The main window *)
Module Gui.

Import PyLit EventManager.

(** Application configuration ([cfg.config]); the two frame rates are
    Python floats. *)
Record Config : Type := {
  PLAYBACK_FPS : float;
  VIDEO_FPS_ORIGINAL : float
}.

(** [QEvent.Type], as far as the event filter tells them apart. *)
Inductive EventType : Type :=
| KeyPress
| KeyRelease
| MouseButtonPress
| OtherEvent (code : nat).

Record QEvent : Type := { ev_type : EventType; ev_key : Z }.


(** Calls made on collaborators whose code is outside this file; the window
    logs them in order. *)
Inductive Call : Type :=
| JumpToFrame (frame : Z)      (* playback_controller.jump_to_frame(frame) *)
| MediaPlay                    (* media_player.play() *)
| MediaPause                   (* media_player.pause() *)
| HandleKeyPress (ev : QEvent) (* key_handler.handle_key_press(event) *)
| MarkersWidgetUpdate          (* markers_widget.update() *)
| OpenViewer (path : pystr)    (* os.startfile / open / xdg-open *)
| FocusFrameInput              (* frame_input.setFocus() *)
| FocusWindow.                 (* self.setFocus() *)

(** Lines printed on the console. *)
Inductive Msg : Type :=
| NothingToSave
| CannotSaveNoVideo
| NothingNewToSave
| EventsUnchanged (path : pystr)
| SavedEvents (path : pystr)
| ErrorSaving
| RecordedEvents (text : pystr)
| LoadedEvents (path : pystr)
| ErrorLoading
| InvalidFrameNumber.

Inductive ButtonText : Type := TextPlay | TextPause.

Record VideoPlayer : Type := {
  event_manager : EventLog;
  fname : option pystr;
  save_status : bool;
  frame_editing : bool;
  is_slider_pressed : bool;
  frame_label_visible : bool;
  frame_input_visible : bool;
  frame_input_text : pystr;
  time_slider_value : Z;
  play_btn_text : ButtonText;
  frame_timer : option Z;          (* [Some i]: running, every [i] ms *)
  evt_save_path : pystr;           (* settings: 'Path/evt_save_path' *)
  calls : list Call;
  console : list Msg
}.

(** Field updates. *)
Definition set_event_manager (e : EventLog) (w : VideoPlayer) : VideoPlayer :=
  {| event_manager := e; fname := fname w; save_status := save_status w;
     frame_editing := frame_editing w; is_slider_pressed := is_slider_pressed w;
     frame_label_visible := frame_label_visible w;
     frame_input_visible := frame_input_visible w;
     frame_input_text := frame_input_text w;
     time_slider_value := time_slider_value w; play_btn_text := play_btn_text w;
     frame_timer := frame_timer w; evt_save_path := evt_save_path w;
     calls := calls w; console := console w |}.

Definition set_save_status (b : bool) (w : VideoPlayer) : VideoPlayer :=
  {| event_manager := event_manager w; fname := fname w; save_status := b;
     frame_editing := frame_editing w; is_slider_pressed := is_slider_pressed w;
     frame_label_visible := frame_label_visible w;
     frame_input_visible := frame_input_visible w;
     frame_input_text := frame_input_text w;
     time_slider_value := time_slider_value w; play_btn_text := play_btn_text w;
     frame_timer := frame_timer w; evt_save_path := evt_save_path w;
     calls := calls w; console := console w |}.

Definition set_frame_editing (b : bool) (w : VideoPlayer) : VideoPlayer :=
  {| event_manager := event_manager w; fname := fname w;
     save_status := save_status w;
     frame_editing := b; is_slider_pressed := is_slider_pressed w;
     frame_label_visible := frame_label_visible w;
     frame_input_visible := frame_input_visible w;
     frame_input_text := frame_input_text w;
     time_slider_value := time_slider_value w; play_btn_text := play_btn_text w;
     frame_timer := frame_timer w; evt_save_path := evt_save_path w;
     calls := calls w; console := console w |}.

Definition set_is_slider_pressed (b : bool) (w : VideoPlayer) : VideoPlayer :=
  {| event_manager := event_manager w; fname := fname w;
     save_status := save_status w;
     frame_editing := frame_editing w; is_slider_pressed := b;
     frame_label_visible := frame_label_visible w;
     frame_input_visible := frame_input_visible w;
     frame_input_text := frame_input_text w;
     time_slider_value := time_slider_value w; play_btn_text := play_btn_text w;
     frame_timer := frame_timer w; evt_save_path := evt_save_path w;
     calls := calls w; console := console w |}.

Definition set_frame_label_visible (b : bool) (w : VideoPlayer) : VideoPlayer :=
  {| event_manager := event_manager w; fname := fname w;
     save_status := save_status w;
     frame_editing := frame_editing w; is_slider_pressed := is_slider_pressed w;
     frame_label_visible := b;
     frame_input_visible := frame_input_visible w;
     frame_input_text := frame_input_text w;
     time_slider_value := time_slider_value w; play_btn_text := play_btn_text w;
     frame_timer := frame_timer w; evt_save_path := evt_save_path w;
     calls := calls w; console := console w |}.

Definition set_frame_input_visible (b : bool) (w : VideoPlayer) : VideoPlayer :=
  {| event_manager := event_manager w; fname := fname w;
     save_status := save_status w;
     frame_editing := frame_editing w; is_slider_pressed := is_slider_pressed w;
     frame_label_visible := frame_label_visible w;
     frame_input_visible := b;
     frame_input_text := frame_input_text w;
     time_slider_value := time_slider_value w; play_btn_text := play_btn_text w;
     frame_timer := frame_timer w; evt_save_path := evt_save_path w;
     calls := calls w; console := console w |}.

Definition set_frame_input_text (s : pystr) (w : VideoPlayer) : VideoPlayer :=
  {| event_manager := event_manager w; fname := fname w;
     save_status := save_status w;
     frame_editing := frame_editing w; is_slider_pressed := is_slider_pressed w;
     frame_label_visible := frame_label_visible w;
     frame_input_visible := frame_input_visible w;
     frame_input_text := s;
     time_slider_value := time_slider_value w; play_btn_text := play_btn_text w;
     frame_timer := frame_timer w; evt_save_path := evt_save_path w;
     calls := calls w; console := console w |}.

Definition set_time_slider_value (v : Z) (w : VideoPlayer) : VideoPlayer :=
  {| event_manager := event_manager w; fname := fname w;
     save_status := save_status w;
     frame_editing := frame_editing w; is_slider_pressed := is_slider_pressed w;
     frame_label_visible := frame_label_visible w;
     frame_input_visible := frame_input_visible w;
     frame_input_text := frame_input_text w;
     time_slider_value := v; play_btn_text := play_btn_text w;
     frame_timer := frame_timer w; evt_save_path := evt_save_path w;
     calls := calls w; console := console w |}.



Definition set_evt_save_path (p : pystr) (w : VideoPlayer) : VideoPlayer :=
  {| event_manager := event_manager w; fname := fname w;
     save_status := save_status w;
     frame_editing := frame_editing w; is_slider_pressed := is_slider_pressed w;
     frame_label_visible := frame_label_visible w;
     frame_input_visible := frame_input_visible w;
     frame_input_text := frame_input_text w;
     time_slider_value := time_slider_value w; play_btn_text := play_btn_text w;
     frame_timer := frame_timer w; evt_save_path := p;
     calls := calls w; console := console w |}.

Definition set_fname (f : option pystr) (w : VideoPlayer) : VideoPlayer :=
  {| event_manager := event_manager w; fname := f;
     save_status := save_status w;
     frame_editing := frame_editing w; is_slider_pressed := is_slider_pressed w;
     frame_label_visible := frame_label_visible w;
     frame_input_visible := frame_input_visible w;
     frame_input_text := frame_input_text w;
     time_slider_value := time_slider_value w; play_btn_text := play_btn_text w;
     frame_timer := frame_timer w; evt_save_path := evt_save_path w;
     calls := calls w; console := console w |}.

Definition call (c : Call) (w : VideoPlayer) : VideoPlayer :=
  {| event_manager := event_manager w; fname := fname w;
     save_status := save_status w;
     frame_editing := frame_editing w; is_slider_pressed := is_slider_pressed w;
     frame_label_visible := frame_label_visible w;
     frame_input_visible := frame_input_visible w;
     frame_input_text := frame_input_text w;
     time_slider_value := time_slider_value w; play_btn_text := play_btn_text w;
     frame_timer := frame_timer w; evt_save_path := evt_save_path w;
     calls := calls w ++ [c]; console := console w |}.

Definition print (m : Msg) (w : VideoPlayer) : VideoPlayer :=
  {| event_manager := event_manager w; fname := fname w;
     save_status := save_status w;
     frame_editing := frame_editing w; is_slider_pressed := is_slider_pressed w;
     frame_label_visible := frame_label_visible w;
     frame_input_visible := frame_input_visible w;
     frame_input_text := frame_input_text w;
     time_slider_value := time_slider_value w; play_btn_text := play_btn_text w;
     frame_timer := frame_timer w; evt_save_path := evt_save_path w;
     calls := calls w; console := console w ++ [m] |}.

(** [undo_stack.clear(); redo_stack.clear()] *)
Definition clear_history (w : VideoPlayer) : VideoPlayer :=
  set_event_manager
    {| markers := markers (event_manager w); undo_stack := []; redo_stack := [] |}
    w.

(** The window as [__init__] leaves it. *)
Definition init (save_path : pystr) : VideoPlayer :=
  {| event_manager := EventManager.empty; fname := None; save_status := true;
     frame_editing := false; is_slider_pressed := false;
     frame_label_visible := true; frame_input_visible := false;
     frame_input_text := []; time_slider_value := 0%Z;
     play_btn_text := TextPlay; frame_timer := None;
     evt_save_path := save_path; calls := []; console := [] |}.

(** *** Files *)

(** The bytes of a file, one character per byte. *)
Definition bytes := list ascii.

(** The disk: the bytes held by each path that exists. *)
Definition FS := list (pystr * bytes).

Fixpoint fs_get (p : pystr) (fs : FS) : option bytes :=
  match fs with
  | [] => None
  | (q, b) :: fs' => if pystr_eqb q p then Some b else fs_get p fs'
  end.

Definition fs_set (p : pystr) (b : bytes) (fs : FS) : FS := (p, b) :: fs.

Definition is_ascii (c : ascii) : bool := (N_of_ascii c <? 128)%N.

(** [text.encode('utf-8')] on code points up to 255: one byte below 128,
    two from there on. *)
Definition utf8_char (c : ascii) : bytes :=
  let k := N_of_ascii c in
  if (k <? 128)%N then [c]
  else [ascii_of_N (192 + k / 64); ascii_of_N (128 + k mod 64)].

Definition utf8_encode (text : pystr) : bytes := flat_map utf8_char text.

(** Universal newlines, as a file opened for reading in text mode has
    them: [\r\n] and [\r] are read as [\n]. *)
Fixpoint universal_newlines (s : pystr) : pystr :=
  match s with
  | [] => []
  | c :: r =>
      if Ascii.eqb c c_cr then
        c_lf :: match r with
                | d :: r' => if Ascii.eqb d c_lf then universal_newlines r'
                             else universal_newlines r
                | [] => []
                end
      else c :: universal_newlines r
  end.

(** What the operating system refuses during one call: each flag makes the
    corresponding step raise [OSError]. *)
Record Faults : Type := {
  makedirs_fails : bool;     (* os.makedirs(base_path, exist_ok=True) *)
  read_fails : bool;         (* open(path, 'r') / f.read() *)
  open_write_fails : bool;   (* open(path, 'w') *)
  write_fails : bool;        (* f.write(text), after the file was truncated *)
  viewer_fails : bool        (* os.startfile / subprocess.call *)
}.

Definition no_faults : Faults :=
  {| makedirs_fails := false; read_fails := false; open_write_fails := false;
     write_fails := false; viewer_fails := false |}.

(** What [open(path, 'r')] and [f.read()] give: a text, an exception (a
    missing or unreadable file), or a text that is beyond this model. The
    file is decoded with the default encoding of the platform, which is
    taken to extend ASCII (as UTF-8, Latin-1 and the Windows code pages
    do): a file of bytes below 128 holds the text that its bytes spell,
    and what a file with another byte holds is not told. *)
Inductive Read : Type :=
| Text (text : pystr)
| ReadError
| Beyond.

Definition read_file (ft : Faults) (path : pystr) (fs : FS) : Read :=
  if read_fails ft then ReadError
  else
    match fs_get path fs with
    | None => ReadError
    | Some b =>
        if forallb is_ascii b then Text (universal_newlines b) else Beyond
    end.

(** [open(path, 'w', encoding='utf-8')] and [f.write(text)], for a text
    without line ends (text mode leaves the rest as it is). *)
Definition write_file (path text : pystr) (fs : FS) : FS :=
  fs_set path (utf8_encode text) fs.

(** How a method ends: it returns, or an exception leaves it. *)
Inductive Outcome : Type :=
| Returned (w : VideoPlayer)
| Raised (w : VideoPlayer).

Definition state_of (o : Outcome) : VideoPlayer :=
  match o with Returned w | Raised w => w end.

(** [str(dict(markers))], the text of an event file. *)
Definition event_text (m : list (PyValue * list PyValue)) : pystr :=
  py_repr (markers_dict m).

(** [m.group() if m else os.path.splitext(os.path.basename(fname))[0]] *)
Definition derived_id (fname : pystr) : pystr :=
  match TaskPattern.task_search fname with
  | Some g => g
  | None => fst (OsPath.splitext (OsPath.basename fname))
  end.

(** [os.path.join(base_path, f'event-{fnm}.txt')] *)
Definition event_file_path (base_path fname : pystr) : pystr :=
  OsPath.join base_path (py:"event-" ++ derived_id fname ++ py:".txt").

(** [any(markers.values())]: some key has a non-empty list. *)
Definition any_marker (m : list (PyValue * list PyValue)) : bool :=
  existsb (fun kv => match snd kv with [] => false | _ :: _ => true end) m.

Section Methods.

(** [sorted(v)] on a value that is not a list of ints: an error ([None]) or
    some list. The development holds whatever it is. *)
Variable sorted_other : PyValue -> option (list PyValue).

(** A file that is beyond this model, by a byte that is not ASCII or by a
    text outside the fragment of [PyLit.literal_eval]: what loading it
    leaves ([load_foreign file_name fs w]), and whether it evaluates to
    something equal to a mapping ([same_foreign file_path fs m]). The
    development holds whatever they are. *)
Variable load_foreign : pystr -> FS -> VideoPlayer -> VideoPlayer.
Variable same_foreign : pystr -> FS -> list (PyValue * list PyValue) -> bool.

Definition py_sorted (v : PyValue) : option (list PyValue) :=
  match v with
  | VList l =>
      match as_ints l with
      | Some zs => Some (map VInt (sorted_ints zs))
      | None => sorted_other v
      end
  | _ => sorted_other v
  end.

(** The pairs of [{k: sorted(v) for k, v in data.items()}], in order;
    [None] when a [sorted] raises. *)
Fixpoint sorted_items (items : list (PyValue * PyValue))
  : option (list (PyValue * list PyValue)) :=
  match items with
  | [] => Some []
  | (k, v) :: rest =>
      match py_sorted v with
      | None => None
      | Some l =>
          match sorted_items rest with
          | None => None
          | Some d => Some ((k, l) :: d)
          end
      end
  end.

(** [VideoPlayer._read_event_file] *)
Definition _read_event_file (ft : Faults) (file_name : pystr)
  (w : VideoPlayer) (fs : FS) : VideoPlayer :=
  match read_file ft file_name fs with
  | ReadError => print ErrorLoading w
  | Beyond => load_foreign file_name fs w
  | Text text =>
      match literal_eval text with
      | None =>
          if foreign text then load_foreign file_name fs w
          else print ErrorLoading w
      | Some data =>
          let w1 := set_event_manager (clear (event_manager w)) w in
          match data with
          | VDict items =>
              match sorted_items items with
              | None => print ErrorLoading w1
              | Some pairs =>
                  let em := event_manager w1 in
                  let em' := {| markers :=
                                  dict_update (markers em) (dict_of_pairs pairs);
                                undo_stack := undo_stack em;
                                redo_stack := redo_stack em |} in
                  print (LoadedEvents file_name)
                    (set_save_status true
                       (call MarkersWidgetUpdate (set_event_manager em' w1)))
              end
          | _ => print ErrorLoading w1   (* no [items] attribute *)
          end
      end
  end.

(** The handler of [save_event]'s outer [try]. *)
Definition save_failed (w : VideoPlayer) : VideoPlayer :=
  print (RecordedEvents (event_text (markers (event_manager w))))
    (print ErrorSaving w).

(** Whether the file at [file_path] exists, can be read and evaluated, and
    equals [dict(markers)]; a failure of the inner [try] counts as no. *)
Definition existing_same (ft : Faults) (file_path : pystr)
  (m : list (PyValue * list PyValue)) (fs : FS) : bool :=
  match fs_get file_path fs with
  | None => false
  | Some _ =>
      match read_file ft file_path fs with
      | ReadError => false
      | Beyond => same_foreign file_path fs m
      | Text text =>
          match literal_eval text with
          | None => foreign text && same_foreign file_path fs m
          | Some existing_data => py_eqb existing_data (markers_dict m)
          end
      end
  end.

(** [VideoPlayer.save_event] *)
Definition save_event (ft : Faults) (w : VideoPlayer) (fs : FS)
  : VideoPlayer * FS :=
  let em := event_manager w in
  if negb (any_marker (markers em)) then (print NothingToSave w, fs)
  else
    match fname w with
    | None | Some [] => (print CannotSaveNoVideo w, fs)
    | Some fn =>
        if save_status w &&
           (length (undo_stack em) + length (redo_stack em) =? 0)%nat
        then (print NothingNewToSave w, fs)
        else if makedirs_fails ft then (save_failed w, fs)
        else
          let file_path := event_file_path (evt_save_path w) fn in
          if existing_same ft file_path (markers em) fs then
            (clear_history
               (set_save_status true (print (EventsUnchanged file_path) w)),
             fs)
          else if open_write_fails ft then (save_failed w, fs)
          else if write_fails ft then (save_failed w, fs_set file_path [] fs)
          else
            let fs' := write_file file_path (event_text (markers em)) fs in
            let w1 := clear_history
                        (set_save_status true
                           (print (SavedEvents file_path) w)) in
            if viewer_fails ft then (save_failed w1, fs')
            else (call (OpenViewer file_path) w1, fs')
    end.

(** [VideoPlayer.save_event_as]; [chosen] is the path the save dialog
    returns, empty when the dialog is cancelled. *)
Definition save_event_as (ft : Faults) (chosen : pystr) (w : VideoPlayer)
  (fs : FS) : VideoPlayer * FS :=
  let em := event_manager w in
  if negb (any_marker (markers em)) then (print NothingToSave w, fs)
  else
    match fname w with
    | None | Some [] => (print CannotSaveNoVideo w, fs)
    | Some _ =>
        match chosen with
        | [] => (w, fs)
        | _ :: _ =>
            if open_write_fails ft then (save_failed w, fs)
            else if write_fails ft then (save_failed w, fs_set chosen [] fs)
            else
              (set_save_status true
                 (set_evt_save_path (OsPath.dirname chosen)
                    (print (SavedEvents chosen) w)),
               write_file chosen (event_text (markers em)) fs)
        end
    end.



(** [VideoPlayer.enable_frame_edit]; [current_frame] is what
    [playback_controller.get_current_frame()] answers. *)
Definition enable_frame_edit (current_frame : Z) (w : VideoPlayer)
  : VideoPlayer :=
  call MediaPause
    (call FocusFrameInput
       (set_frame_input_text (repr_int current_frame)
          (set_frame_input_visible true
             (set_frame_label_visible false (set_frame_editing true w))))).

(** What a call on a collaborator may do. *)
Inductive Raises : Type := NoError | ValueOrTypeError | OtherException.

(** [VideoPlayer.jump_to_frame_from_input]; [jump_raises] tells how
    [playback_controller.jump_to_frame] ends on a frame number. *)
Definition jump_to_frame_from_input (jump_raises : Z -> Raises)
  (w : VideoPlayer) : Outcome :=
  let frame_text := frame_input_text w in
  let '(w1, r) :=
    match frame_text with
    | [] => (call MediaPlay w, NoError)
    | _ :: _ =>
        match PyInt.py_int frame_text with
        | None => (w, ValueOrTypeError)
        | Some frame_number =>
            (call (JumpToFrame frame_number) w, jump_raises frame_number)
        end
    end in
  let w2 := match r with
            | ValueOrTypeError => print InvalidFrameNumber w1
            | _ => w1
            end in
  let w3 := call FocusWindow
              (set_frame_label_visible true
                 (set_frame_input_visible false (set_frame_editing false w2))) in
  match r with
  | OtherException => Raised w3
  | _ => Returned w3
  end.

(** [VideoPlayer.slider_pressed] and [VideoPlayer.slider_released] *)
Definition slider_pressed (w : VideoPlayer) : VideoPlayer :=
  set_is_slider_pressed true w.

Definition slider_released (cfg : Config) (w : VideoPlayer) : Outcome :=
  let w1 := set_is_slider_pressed false w in
  match PyFloat.float_of_int (time_slider_value w1) with
  | None => Raised w1
  | Some v =>
      match PyFloat.py_round (v * VIDEO_FPS_ORIGINAL cfg / 1000)%float with
      | None => Raised w1
      | Some target_frame => Returned (call (JumpToFrame target_frame) w1)
      end
  end.


(** Whether an int fits the C [int] that [QTimer.start] takes; passing
    another one raises [OverflowError]. *)
Definition fits_c_int (i : Z) : bool :=
  ((- 2 ^ 31 <=? i) && (i <? 2 ^ 31))%Z.




End Methods.

(** The default rates: 30 frames per second for playback, 119.88 (the
    nearest float) for the source. *)
Definition default_config : Config :=
  {| PLAYBACK_FPS := 30; VIDEO_FPS_ORIGINAL := 0x1.df851eb851eb8p+6 |}.

(** *** Loading an event file *)

(** A mapping from keys to lists of ints, as a value and as markers. *)
Definition int_items (izs : list (PyValue * list Z)) : list (PyValue * PyValue) :=
  map (fun kz => (fst kz, VList (map VInt (snd kz)))) izs.

Definition int_markers (izs : list (PyValue * list Z))
  : list (PyValue * list PyValue) :=
  map (fun kz => (fst kz, map VInt (snd kz))) izs.

Definition sort_each (izs : list (PyValue * list Z)) : list (PyValue * list Z) :=
  map (fun kz => (fst kz, sorted_ints (snd kz))) izs.

(** The log of a window that holds no history. *)
Definition fresh_log (m : list (PyValue * list PyValue)) : EventLog :=
  {| markers := m; undo_stack := []; redo_stack := [] |}.

(** The three guards of [save_event]: a marker to save, a video loaded,
    unsaved changes. *)
Definition guards_pass (w : VideoPlayer) (fn : pystr) : Prop :=
  any_marker (markers (event_manager w)) = true /\
  fname w = Some fn /\ fn <> [] /\
  save_status w &&
    (length (undo_stack (event_manager w)) +
     length (redo_stack (event_manager w)) =? 0)%nat = false.

(** *** Concrete windows and files *)

Definition sorted_raises : PyValue -> option (list PyValue) := fun _ => None.

Definition foreign_kept : pystr -> FS -> VideoPlayer -> VideoPlayer :=
  fun _ _ w => w.

Definition foreign_differs
  : pystr -> FS -> list (PyValue * list PyValue) -> bool :=
  fun _ _ _ => false.

Definition video_path : pystr := py:"/data/20250101-Pici-TS-3.mp4".

Definition key1 : PyValue := VStr py:"1".

Definition key2 : PyValue := VStr py:"2".

Definition example_markers : list (PyValue * list PyValue) :=
  [(key1, [VInt 120; VInt 340]); (key2, [VInt 200])].

Definition example_log : EventLog :=
  {| markers := example_markers;
     undo_stack := [ {| op_kind := ADD; op_key := key2; op_frame := 200 |} ];
     redo_stack := [] |}.

(** A window with a video loaded and one unsaved mark. *)
Definition example_window : VideoPlayer :=
  set_save_status false
    (set_fname (Some video_path)
       (set_event_manager example_log (init py:"/data/events"))).

(** A window whose only mark was added and removed again. *)
Definition unmarked_window : VideoPlayer :=
  set_fname (Some video_path)
    (set_event_manager
       {| markers := [(key1, [])];
          undo_stack := [ {| op_kind := ADD; op_key := key1; op_frame := 5 |};
                          {| op_kind := REMOVE; op_key := key1; op_frame := 5 |} ];
          redo_stack := [] |}
       (init py:"/data/events")).



Definition events_dir_file : pystr := py:"/data/events/event-20250101-Pici-TS-3.txt".

End Gui.

(** ** The value of a float *)
Module FloatValue.

Import Reals.

(** The real number that a finite float with a positive sign denotes:
    [m * 2^e]. *)
Definition fval (m : positive) (e : Z) : R :=
  (IZR (Zpos m) * powerRZ 2 e)%R.

(** A float that is positive and normal: its mantissa has 53 bits. *)
Definition normal (x : float) (m : positive) (e : Z) : Prop :=
  Prim2SF x = S754_finite false m e /\ Zpos (digits2_pos m) = 53%Z.

(** The unit of relative error that the operations are shown to keep:
    [2^-52], one unit in the last place of a normal number. *)
Definition u : R := powerRZ 2 (-52).

End FloatValue.

(** ** Frame and time conversions *)
Module FrameClock.

Import PyFloat.

(** Modelled from the spec: [time_to_frame(position_ms, fps)] is
    [round(position_ms * fps / 1000)] ([playback_controller.py], where the
    conversions live, is not among the sources). The rate is a [binary64]
    float, as the rates of the configuration are (30.0, 119.88): the int
    [position_ms] is converted to a float, multiplied by the rate and
    divided by 1000.0, each operation rounding to the nearest float, and
    [round] takes the quotient to the nearest int. [None] is an exception
    ([OverflowError] of [float] or [round], [ValueError] of [round] on a
    NaN). *)
Definition time_to_frame (position_ms : Z) (fps : float) : option Z :=
  match float_of_int position_ms with
  | None => None
  | Some p => py_round (p * fps / 1000)%float
  end.

(** Modelled from the spec: [frame_to_time(frame_index, fps)] is
    [round(frame_index * 1000 / fps)]: the product of ints is exact, it is
    converted to a float and divided by the rate ([ZeroDivisionError] for
    a rate of zero), and [round] takes the quotient to the nearest int. *)
Definition frame_to_time (frame_index : Z) (fps : float) : option Z :=
  match float_of_int (frame_index * 1000) with
  | None => None
  | Some a =>
      match truediv a fps with
      | None => None
      | Some q => py_round q
      end
  end.

(** [time_to_frame(frame_to_time(f, fps), fps)] *)
Definition round_trip (f : Z) (fps : float) : option Z :=
  match frame_to_time f fps with
  | None => None
  | Some t => time_to_frame t fps
  end.

(** The floats that Python reads for [0.001] and [999.99]. *)
Definition rate_0_001 : float := 0x1.0624dd2f1a9fcp-10%float.

Definition rate_999_99 : float := 0x1.f3feb851eb852p+9%float.

End FrameClock.

(** ** The rest of the main window: videos, auto-loading, labels, child
    windows *)
Module Session.

Import PyLit EventManager Gui.

(** What [cfg.config] holds for the window besides the frame rates. *)
Record AppConfig : Type := {
  WINDOW_TITLE : pystr;
  AUTO_SEARCH_EVENTS : bool;
  MARKER_FLOAT_ENABLED : bool;
  CSV_PLOT_ENABLED : bool
}.

(** Where the main window is: [x()], [y()] and [height()]. *)
Record Geometry : Type := { geo_x : Z; geo_y : Z; geo_height : Z }.

(** Lines printed by the functions of this part. *)
Inductive Note : Type :=
| MatchedTaskFormat (vid_base : pystr)
| AutoLoadEvent (path : pystr).

(** What these functions do to their collaborators, in order. *)
Inductive Action : Type :=
| SetSource (path : pystr)   (* media_player.setSource(QUrl.fromLocalFile(.)) *)
| EnablePlayButton           (* play_btn.setEnabled(True) *)
| MediaStop                  (* media_player.stop() *)
| ConnectMarkerSignal        (* marker_signal.connect(float.receive_string) *)
| EmitMarker (name : pystr)  (* marker_signal.emit(name) *)
| CloseCsvPlot               (* csv_plot_win.close() *)
| CloseMarkerFloat           (* marker_float.close() *)
| SettingsSync               (* settings.sync(), after the window's size *)
| BaseCloseEvent             (* super().closeEvent(event) *)
| Said (n : Note).

(** The state of the window beyond [Gui.VideoPlayer]: the settings that
    these functions read back, the labels, the child windows. *)
Record Session : Type := {
  window : VideoPlayer;
  evt_dir : option pystr;                  (* settings: 'Path/evt_dir' *)
  last_vid_path : option pystr;            (* 'Path/last_vid_path' *)
  window_title : pystr;
  slider_max : Z;                          (* the slider runs from 0 to it *)
  time_label : pystr;
  frame_label : pystr;
  marker_label : option pystr;             (* [None]: the dash *)
  marker_float : option bool;              (* [Some v]: created, visible or not *)
  csv_plot_win : option (bool * (Z * Z));  (* visible or not, and where *)
  actions : list Action
}.

(** Field updates. *)
Definition set_window (x : VideoPlayer) (s : Session) : Session :=
  {| window := x; evt_dir := evt_dir s; last_vid_path := last_vid_path s;
     window_title := window_title s; slider_max := slider_max s;
     time_label := time_label s; frame_label := frame_label s;
     marker_label := marker_label s; marker_float := marker_float s;
     csv_plot_win := csv_plot_win s; actions := actions s |}.

Definition set_evt_dir (x : option pystr) (s : Session) : Session :=
  {| window := window s; evt_dir := x; last_vid_path := last_vid_path s;
     window_title := window_title s; slider_max := slider_max s;
     time_label := time_label s; frame_label := frame_label s;
     marker_label := marker_label s; marker_float := marker_float s;
     csv_plot_win := csv_plot_win s; actions := actions s |}.

Definition set_last_vid_path (x : option pystr) (s : Session) : Session :=
  {| window := window s; evt_dir := evt_dir s; last_vid_path := x;
     window_title := window_title s; slider_max := slider_max s;
     time_label := time_label s; frame_label := frame_label s;
     marker_label := marker_label s; marker_float := marker_float s;
     csv_plot_win := csv_plot_win s; actions := actions s |}.

Definition set_window_title (x : pystr) (s : Session) : Session :=
  {| window := window s; evt_dir := evt_dir s;
     last_vid_path := last_vid_path s; window_title := x;
     slider_max := slider_max s; time_label := time_label s;
     frame_label := frame_label s; marker_label := marker_label s;
     marker_float := marker_float s; csv_plot_win := csv_plot_win s;
     actions := actions s |}.

Definition set_slider_max (x : Z) (s : Session) : Session :=
  {| window := window s; evt_dir := evt_dir s;
     last_vid_path := last_vid_path s; window_title := window_title s;
     slider_max := x; time_label := time_label s;
     frame_label := frame_label s; marker_label := marker_label s;
     marker_float := marker_float s; csv_plot_win := csv_plot_win s;
     actions := actions s |}.

Definition set_time_label (x : pystr) (s : Session) : Session :=
  {| window := window s; evt_dir := evt_dir s;
     last_vid_path := last_vid_path s; window_title := window_title s;
     slider_max := slider_max s; time_label := x;
     frame_label := frame_label s; marker_label := marker_label s;
     marker_float := marker_float s; csv_plot_win := csv_plot_win s;
     actions := actions s |}.

Definition set_frame_label (x : pystr) (s : Session) : Session :=
  {| window := window s; evt_dir := evt_dir s;
     last_vid_path := last_vid_path s; window_title := window_title s;
     slider_max := slider_max s; time_label := time_label s;
     frame_label := x; marker_label := marker_label s;
     marker_float := marker_float s; csv_plot_win := csv_plot_win s;
     actions := actions s |}.

Definition set_marker_label (x : option pystr) (s : Session) : Session :=
  {| window := window s; evt_dir := evt_dir s;
     last_vid_path := last_vid_path s; window_title := window_title s;
     slider_max := slider_max s; time_label := time_label s;
     frame_label := frame_label s; marker_label := x;
     marker_float := marker_float s; csv_plot_win := csv_plot_win s;
     actions := actions s |}.

Definition set_marker_float (x : option bool) (s : Session) : Session :=
  {| window := window s; evt_dir := evt_dir s;
     last_vid_path := last_vid_path s; window_title := window_title s;
     slider_max := slider_max s; time_label := time_label s;
     frame_label := frame_label s; marker_label := marker_label s;
     marker_float := x; csv_plot_win := csv_plot_win s;
     actions := actions s |}.

Definition set_csv_plot_win (x : option (bool * (Z * Z))) (s : Session) : Session :=
  {| window := window s; evt_dir := evt_dir s;
     last_vid_path := last_vid_path s; window_title := window_title s;
     slider_max := slider_max s; time_label := time_label s;
     frame_label := frame_label s; marker_label := marker_label s;
     marker_float := marker_float s; csv_plot_win := x;
     actions := actions s |}.

Definition set_actions (x : list Action) (s : Session) : Session :=
  {| window := window s; evt_dir := evt_dir s;
     last_vid_path := last_vid_path s; window_title := window_title s;
     slider_max := slider_max s; time_label := time_label s;
     frame_label := frame_label s; marker_label := marker_label s;
     marker_float := marker_float s; csv_plot_win := csv_plot_win s;
     actions := x |}.

(** One more action. *)
Definition act (a : Action) (s : Session) : Session :=
  set_actions (actions s ++ [a]) s.

(** The child window for the marker, as [MarkerFloat()] makes it: hidden
    until it is shown. The plot window is made at a position. *)
Definition csv_position (g : Geometry) : Z * Z :=
  (geo_x g + 20, geo_y g + geo_height g - 170)%Z.

(** The session as [__init__] leaves it; [g] is the geometry that the
    settings restored, [stored_evt_dir] and [stored_vid_path] are the paths
    that the settings hold from earlier runs. A [QSlider] starts with the
    range 0..99. *)
Definition init_session (cfg : AppConfig) (g : Geometry)
  (stored_evt_dir stored_vid_path : option pystr) (save_path : pystr)
  : Session :=
  {| window := init save_path; evt_dir := stored_evt_dir;
     last_vid_path := stored_vid_path;
     window_title := WINDOW_TITLE cfg; slider_max := 99;
     time_label := py:"00:00:00 / 00:00:00"; frame_label := py:"Frame: 0";
     marker_label := None;
     marker_float := if MARKER_FLOAT_ENABLED cfg then Some true else None;
     csv_plot_win :=
       if CSV_PLOT_ENABLED cfg then Some (true, csv_position g) else None;
     actions := if MARKER_FLOAT_ENABLED cfg then [ConnectMarkerSignal] else [] |}.

(** *** Strings *)

(** [b.startswith(a)] and [a in b] on strings. *)
Fixpoint startswith (a b : pystr) : bool :=
  match a, b with
  | [], _ => true
  | x :: a', y :: b' => Ascii.eqb x y && startswith a' b'
  | _ :: _, [] => false
  end.

Fixpoint py_in (a b : pystr) : bool :=
  startswith a b ||
  match b with
  | [] => false
  | _ :: b' => py_in a b'
  end.

Definition endswith (a b : pystr) : bool := startswith (rev a) (rev b).

(** [str(v)]: a string is itself, anything else is its [repr]. *)
Definition py_str (v : PyValue) : pystr :=
  match v with VStr s => s | _ => py_repr v end.

(** [bool(v)] *)
Definition truthy (v : PyValue) : bool :=
  match v with
  | VInt z => negb (z =? 0)%Z
  | VStr [] | VList [] | VDict [] => false
  | _ => true
  end.

(** *** Directories *)

(** What the operating system tells about directories: whether a path
    exists, the names that [os.scandir] lists in a directory, in its order
    (none for what is no directory), and what [glob] answers when the
    directory part of its pattern has a wildcard of its own. *)
Record Dirs : Type := {
  path_exists : pystr -> bool;
  scandir : pystr -> list pystr;
  glob_wild : pystr -> list pystr
}.

(** [glob.has_magic]: one of [*], [?] and the opening square bracket. *)
Definition has_magic (p : pystr) : bool :=
  existsb (fun c => Ascii.eqb c "*"%char || Ascii.eqb c "?"%char
                    || Ascii.eqb c "["%char) p.

(** [fnmatch] of a name against [event-*.txt] (case matters, as in
    [posixpath]). *)
Definition event_name (name : pystr) : bool :=
  startswith py:"event-" name && endswith py:".txt" (skipn 6 name).

(** [glob.glob(os.path.join(last_path, 'event-*.txt'))] *)
Definition glob_event_files (os : Dirs) (last_path : pystr) : list pystr :=
  let pathname := OsPath.join last_path py:"event-*.txt" in
  let dirname := OsPath.dirname pathname in
  if has_magic dirname then glob_wild os pathname
  else map (OsPath.join dirname) (filter event_name (scandir os dirname)).

Section Methods.

Variable sorted_other : PyValue -> option (list PyValue).
Variable load_foreign : pystr -> FS -> VideoPlayer -> VideoPlayer.
Variable same_foreign : pystr -> FS -> list (PyValue * list PyValue) -> bool.

(** The loop of [load_events_silent]: the first file whose base name
    contains [vid_base] is read, and the search ends there. *)
Fixpoint auto_load (ft : Faults) (vid_base : pystr) (txts : list pystr)
  (s : Session) (fs : FS) : Session :=
  match txts with
  | [] => s
  | f :: rest =>
      if py_in vid_base (OsPath.basename f) then
        let s1 := act (Said (AutoLoadEvent f)) s in
        set_window
          (_read_event_file sorted_other load_foreign ft f (window s1) fs) s1
      else auto_load ft vid_base rest s fs
  end.

(** [VideoPlayer.load_events_silent] *)
Definition load_events_silent (os : Dirs) (ft : Faults) (s : Session)
  (fs : FS) : Session :=
  match fname (window s) with
  | None | Some [] => s
  | Some fn =>
      match evt_dir s with
      | None | Some [] => s
      | Some last_path =>
          if negb (path_exists os last_path) then s
          else
            let txts := glob_event_files os last_path in
            match TaskPattern.task_search fn with
            | None => s
            | Some vid_base =>
                auto_load ft vid_base txts
                  (act (Said (MatchedTaskFormat vid_base)) s) fs
            end
      end
  end.

(** [VideoPlayer.load_video]; [ft_save] and [ft_load] are what the
    operating system refuses while the previous work is saved and while
    the events of the new video are searched. *)
Definition load_video (cfg : AppConfig) (os : Dirs) (ft_save ft_load : Faults)
  (file_path : pystr) (s : Session) (fs : FS) : Session * FS :=
  let saved :=
    match fname (window s) with
    | None | Some [] => (window s, fs)
    | Some _ => save_event same_foreign ft_save (window s) fs
    end in
  let w1 := fst saved in
  let w2 := set_fname (Some file_path)
              (call MarkersWidgetUpdate
                 (set_event_manager (clear (event_manager w1)) w1)) in
  let s1 :=
    set_last_vid_path (Some (OsPath.dirname file_path))
      (act EnablePlayButton
         (set_window_title
            (WINDOW_TITLE cfg ++ py:" - " ++ OsPath.basename file_path)
            (act (SetSource file_path) (set_window w2 s)))) in
  if AUTO_SEARCH_EVENTS cfg
  then (load_events_silent os ft_load s1 (snd saved), snd saved)
  else (s1, snd saved).

(** [VideoPlayer.open_file_dialog]; [file_name] is what the dialog
    returns, empty when it is cancelled. *)
Definition open_file_dialog (cfg : AppConfig) (os : Dirs)
  (ft_save ft_load : Faults) (file_name : pystr) (s : Session) (fs : FS)
  : Session * FS :=
  match file_name with
  | [] => (s, fs)
  | _ :: _ => load_video cfg os ft_save ft_load file_name s fs
  end.

(** [VideoPlayer.load_events]; [file_name] is what the dialog returns. *)
Definition load_events (ft : Faults) (file_name : pystr) (s : Session)
  (fs : FS) : Session :=
  match file_name with
  | [] => s
  | _ :: _ =>
      set_evt_dir (Some (OsPath.dirname file_name))
        (set_window
           (_read_event_file sorted_other load_foreign ft file_name
              (window s) fs) s)
  end.

(** [VideoPlayer.closeEvent] *)
Definition closeEvent (ft : Faults) (s : Session) (fs : FS) : Session * FS :=
  let s1 := act MediaStop s in
  let w1 := print (RecordedEvents
                     (event_text (markers (event_manager (window s1)))))
              (window s1) in
  let saved := save_event same_foreign ft w1 fs in
  let s2 := act SettingsSync (set_window (fst saved) s1) in
  let s3 := match csv_plot_win s2 with
            | Some (_, at_) =>
                act CloseCsvPlot (set_csv_plot_win (Some (false, at_)) s2)
            | None => s2
            end in
  let s4 := match marker_float s3 with
            | Some _ => act CloseMarkerFloat (set_marker_float (Some false) s3)
            | None => s3
            end in
  (act BaseCloseEvent s4, snd saved).

End Methods.

(** *** Labels *)

(** [frame in frames] *)
Definition frame_in (frame : Z) (frames : list PyValue) : bool :=
  existsb (fun x => py_eqb x (VInt frame)) frames.

(** The loop of [update_current_marker_label]: the first key, in the order
    of the mapping, whose list has the frame. *)
Fixpoint first_marker (frame : Z) (m : list (PyValue * list PyValue))
  : option PyValue :=
  match m with
  | [] => None
  | (key, frames) :: rest =>
      if frame_in frame frames then Some key else first_marker frame rest
  end.

(** [VideoPlayer.update_current_marker_label] *)
Definition update_current_marker_label (frame : Z) (s : Session) : Session :=
  match first_marker frame (markers (event_manager (window s))) with
  | Some name =>
      if truthy name then
        let s1 := set_marker_label (Some (py_str name)) s in
        match marker_float s1 with
        | Some _ => act (EmitMarker (py_str name)) s1
        | None => s1
        end
      else set_marker_label None s
  | None => set_marker_label None s
  end.

(** Two digits, and [QTime(0, 0, 0).addMSecs(ms).toString("HH:mm:ss")]:
    the time of day, which wraps at midnight. *)
Definition two_digits (n : Z) : pystr :=
  [Digits.digit_char (Z.to_N (n / 10)); Digits.digit_char (Z.to_N (n mod 10))].

Definition clock (ms : Z) : pystr :=
  let t := (ms mod 86400000)%Z in
  two_digits (t / 3600000) ++ ":"%char ::
  two_digits (t / 60000 mod 60) ++ ":"%char ::
  two_digits (t / 1000 mod 60).

(** How a method of this part ends: it returns, or an exception leaves
    it. *)
Inductive Ended : Type :=
| Done (s : Session)
| Failed (s : Session).

Definition session_of (e : Ended) : Session :=
  match e with Done s | Failed s => s end.

(** [time_slider.setValue(v)]: the value is kept within the range. *)
Definition slider_set_value (v : Z) (s : Session) : Session :=
  set_window
    (set_time_slider_value (Z.max 0 (Z.min v (slider_max s))) (window s)) s.

(** [VideoPlayer.update_duration]: [setRange(0, duration)] keeps the
    maximum from going below the minimum and the value within the new
    range; a duration beyond a C [int] raises [OverflowError]. *)
Definition update_duration (duration : Z) (s : Session) : Ended :=
  if fits_c_int duration then
    let s1 := set_slider_max (Z.max 0 duration) s in
    Done (slider_set_value (time_slider_value (window s1)) s1)
  else Failed s.

(** [VideoPlayer.update_position]; [position] and [pos_ms] are the two
    answers of [media_player.position()], [dur_ms] is the duration and
    [frame] what [playback_controller.get_current_frame()] answers. The
    slider and [QTime.addMSecs] take a C [int]. *)
Definition update_position (position pos_ms dur_ms frame : Z) (s : Session)
  : Ended :=
  let moved :=
    if is_slider_pressed (window s) then Some s
    else if fits_c_int position then Some (slider_set_value position s)
    else None in
  match moved with
  | None => Failed s
  | Some s1 =>
      if fits_c_int pos_ms && fits_c_int dur_ms then
        let s2 := set_time_label (clock pos_ms ++ py:" / " ++ clock dur_ms) s1 in
        let s3 := set_frame_label (py:"Frame: " ++ repr_int frame) s2 in
        Done (update_current_marker_label frame s3)
      else Failed s1
  end.

(** *** Child windows *)

(** The connections of the marker signal among the actions. *)
Definition is_connect (a : Action) : bool :=
  match a with ConnectMarkerSignal => true | _ => false end.

(** [VideoPlayer.toggle_marker_float] *)
Definition toggle_marker_float (checked : bool) (s : Session) : Session :=
  if checked then
    let s1 := match marker_float s with
              | None => act ConnectMarkerSignal (set_marker_float (Some false) s)
              | Some _ => s
              end in
    set_marker_float (Some true) s1
  else
    match marker_float s with
    | Some _ => set_marker_float (Some false) s
    | None => s
    end.

(** [VideoPlayer.toggle_csv_plot]; [g] is where the main window is when
    the box is ticked. *)
Definition toggle_csv_plot (g : Geometry) (checked : bool) (s : Session)
  : Session :=
  if checked then
    let at_ := match csv_plot_win s with
               | None => csv_position g
               | Some (_, p) => p
               end in
    set_csv_plot_win (Some (true, at_)) s
  else
    match csv_plot_win s with
    | Some (_, p) => set_csv_plot_win (Some (false, p)) s
    | None => s
    end.

(** *** A concrete session *)

Definition example_config : AppConfig :=
  {| WINDOW_TITLE := py:"Event Marker"; AUTO_SEARCH_EVENTS := false;
     MARKER_FLOAT_ENABLED := true; CSV_PLOT_ENABLED := false |}.

Definition example_geometry : Geometry :=
  {| geo_x := 100; geo_y := 100; geo_height := 600 |}.

(** The directory of the event files, with the file of the video among
    other files. *)
Definition example_dirs : Dirs :=
  {| path_exists := fun p => pystr_eqb p py:"/data/events";
     scandir := fun p =>
       if pystr_eqb p py:"/data/events"
       then [py:"notes.md"; py:"event-20250101-Pici-TS-3.txt";
             py:"event-20250102-Fusillo-BBT-1.txt"]
       else [];
     glob_wild := fun _ => [] |}.

(** The window of [Gui.example_window], whose settings remember the
    directory of the event files. *)
Definition example_session : Session :=
  set_window example_window
    (init_session example_config example_geometry (Some py:"/data/events")
       None py:"/data/events").

End Session.

(** ** The configuration dialog: marker rows and pairing
    ([evtmkr/cfg_window.py]) *)
Module ConfigWindow.

Import PyLit.

(** [enumerate(l)] *)
Definition enumerate {A} (l : list A) : list (nat * A) :=
  combine (seq 0 (length l)) l.

(** [str(i + 1)] for a position [i]. *)
Definition index_str (i : nat) : pystr := repr_int (Z.of_nat (i + 1)).

(** *** Combo boxes *)

(** A [QComboBox] that cannot be edited: its items and the index of the
    current one, none while the box is empty. *)
Record Combo : Type := { items : list pystr; current : option nat }.

Definition new_combo : Combo := {| items := []; current := None |}.

(** [combo.currentText()]: the empty string without a current item. *)
Definition currentText (c : Combo) : pystr :=
  match current c with
  | Some i => nth i (items c) []
  | None => []
  end.

(** [combo.addItems(l)]: the first item put into an empty box becomes the
    current one. *)
Definition addItems (l : list pystr) (c : Combo) : Combo :=
  {| items := items c ++ l;
     current := match current c, items c, l with
                | None, [], _ :: _ => Some 0
                | cur, _, _ => cur
                end |}.

(** [combo.findText(t)]: the first item with this text. *)
Fixpoint findText (t : pystr) (l : list pystr) : option nat :=
  match l with
  | [] => None
  | x :: r => if pystr_eqb x t then Some 0 else option_map S (findText t r)
  end.

(** [combo.setCurrentText(t)]: the item with this text becomes the current
    one; a text that is not in the box changes nothing. *)
Definition setCurrentText (t : pystr) (c : Combo) : Combo :=
  match findText t (items c) with
  | Some i => {| items := items c; current := Some i |}
  | None => c
  end.

(** *** Keys *)

(** The names that [populate_key_combo] builds: the function keys, the
    digits of the main keyboard, the letters. *)
Definition qt_keys : list pystr :=
  let keys :=
    map (fun i => "F"%char :: repr_int (Z.of_nat i)) (seq 1 12) ++
    map (fun i => repr_int (Z.of_nat i)) (seq 0 10) ++
    map (fun i => [ascii_of_nat i]) (seq 65 26) in
  map (fun k => py:"Key_" ++ k) keys.

(** [ConfigWindow.populate_key_combo] *)
Definition populate_key_combo (combo : Combo) : Combo :=
  match items combo with
  | _ :: _ => combo
  | [] => addItems qt_keys combo
  end.

(** *** The dialog *)

(** A colour [QColor(r, g, b)], by its red, green and blue parts. *)
Definition Color : Type := (Z * Z * Z)%type.

(** [QColor("lightgray")] *)
Definition lightgray : Color := (211, 211, 211)%Z.

(** A row of the marker tab: its label, the box with the key and the colour
    that its button shows. *)
Record Row : Type := { row_label : pystr; key_combo : Combo; color : Color }.

(** The marker tab: the rows of the markers, the rows of the pairing boxes
    (each with its label) and the pairing check box. *)
Record Dialog : Type := {
  rows : list Row;
  pairing : list (pystr * Combo);
  marker_pairing_enabled : bool
}.

(** The dialog before [load_settings]. *)
Definition new_dialog : Dialog :=
  {| rows := []; pairing := []; marker_pairing_enabled := false |}.

(** The key names of the rows: the current text of each key box. *)
Definition key_names (d : Dialog) : list pystr :=
  map (fun r => currentText (key_combo r)) (rows d).

(** The box that [refresh_marker_ui] builds for the row at position [i]:
    every other key name after ["None"], and the selection that the box at
    this position had before, when it is still on offer. *)
Definition pairing_box (names old : list pystr) (i : nat) (key_name : pystr)
  : pystr * Combo :=
  let options :=
    py:"None" :: filter (fun k => negb (pystr_eqb k key_name)) names in
  let combo := addItems options new_combo in
  (py:"Pair '" ++ key_name ++ py:"' with:",
   match nth_error old i with
   | Some t => if existsb (pystr_eqb t) options
               then setCurrentText t combo else combo
   | None => combo
   end).

(** [ConfigWindow.refresh_marker_ui] *)
Definition refresh_marker_ui (d : Dialog) : Dialog :=
  let names := key_names d in
  let old := map (fun p => currentText (snd p)) (pairing d) in
  let relabelled :=
    map (fun r => {| row_label := "'"%char :: currentText (key_combo r)
                                  ++ py:"':";
                     key_combo := key_combo r; color := color r |})
      (rows d) in
  {| rows := relabelled;
     pairing := match names with
                | [] => []
                | _ :: _ =>
                    map (fun ik => pairing_box names old (fst ik) (snd ik))
                      (enumerate names)
                end;
     marker_pairing_enabled := marker_pairing_enabled d |}.

(** [ConfigWindow.add_marker_row] *)
Definition add_marker_row (key_name : option pystr) (c : option Color)
  (update_ui : bool) (d : Dialog) : Dialog :=
  let combo := populate_key_combo new_combo in
  let combo := match key_name with
               | Some (x :: k) => setCurrentText (x :: k) combo
               | _ => combo
               end in
  let initial_color := match c with Some col => col | None => lightgray end in
  let d1 := {| rows := rows d ++ [{| row_label := py:"Marker:";
                                     key_combo := combo;
                                     color := initial_color |}];
               pairing := pairing d;
               marker_pairing_enabled := marker_pairing_enabled d |} in
  if update_ui then refresh_marker_ui d1 else d1.

(** Dropping the element at a position. *)
Fixpoint drop_nth {A} (i : nat) (l : list A) : list A :=
  match l, i with
  | [], _ => []
  | _ :: r, O => r
  | x :: r, S j => x :: drop_nth j r
  end.

(** [ConfigWindow.remove_marker_row], for the row at position [i]. *)
Definition remove_marker_row (i : nat) (d : Dialog) : Dialog :=
  refresh_marker_ui
    {| rows := drop_nth i (rows d); pairing := pairing d;
       marker_pairing_enabled := marker_pairing_enabled d |}.

(** *** Loading and applying the marker settings *)

(** The [marker] part of the configuration: the names of the keys, their
    colours, and the pairing, whose rules map the 1-based position of a
    marker, written out, to the position of its partner. *)
Record MarkerConfig : Type := {
  cfg_keys : list pystr;
  cfg_colors : list Color;
  cfg_pairing_enabled : bool;
  cfg_rules : list (PyValue * pystr)
}.

(** The translation at the end of [load_settings]: the box at position [i]
    takes the key of the partner that the rules give for [str(i + 1)]. *)
Definition select_partner (rules index_to_key : list (PyValue * pystr))
  (i : nat) (box : pystr * Combo) : pystr * Combo :=
  match dict_get (VStr (index_str i)) rules with
  | Some (x :: paired_marker_index_str) =>
      match dict_get (VStr (x :: paired_marker_index_str)) index_to_key with
      | Some (y :: paired_key_name) =>
          (fst box, setCurrentText (y :: paired_key_name) (snd box))
      | _ => box
      end
  | _ => box
  end.

(** The part of [ConfigWindow.load_settings] on the marker tab: the rows
    that are there are removed one by one, a row is added for each key of
    the configuration, and the pairing boxes are set from the rules. (The
    other tabs have widgets of their own.) *)
Definition load_settings (cfg : MarkerConfig) (d : Dialog) : Dialog :=
  let d0 := Nat.iter (length (rows d)) (remove_marker_row 0) d in
  let d1 :=
    fold_left
      (fun acc ik =>
         add_marker_row (Some (snd ik)) (nth_error (cfg_colors cfg) (fst ik))
           false acc)
      (enumerate (cfg_keys cfg)) d0 in
  let d2 := refresh_marker_ui d1 in
  let index_to_key :=
    fold_left (fun acc ik => dict_set (VStr (index_str (fst ik))) (snd ik) acc)
      (enumerate (key_names d2)) [] in
  {| rows := rows d2;
     pairing :=
       map (fun ib => select_partner (cfg_rules cfg) index_to_key
                        (fst ib) (snd ib))
         (enumerate (pairing d2));
     marker_pairing_enabled := cfg_pairing_enabled cfg |}.

(** What [apply_changes] writes into the [marker] part of the configuration
    from the keys and the pairing (the colours, read back from the palettes
    of the buttons, are left out). *)
Record Applied : Type := {
  marker_keys : list pystr;
  pairing_enabled : bool;
  pairing_rules : list (PyValue * pystr)
}.

(** The rules that [apply_changes] reads off the pairing boxes. *)
Definition new_rules (key_to_index : list (PyValue * pystr))
  (boxes : list (pystr * Combo)) : list (PyValue * pystr) :=
  fold_left
    (fun acc ib =>
       let selected_key := currentText (snd (snd ib)) in
       if pystr_eqb selected_key py:"None" then acc
       else
         match dict_get (VStr selected_key) key_to_index with
         | Some (x :: paired_marker_index_str) =>
             dict_set (VStr (index_str (fst ib)))
               (x :: paired_marker_index_str) acc
         | _ => acc
         end)
    (enumerate boxes) [].

(** The part of [ConfigWindow.apply_changes] on the keys and the pairing. *)
Definition apply_changes (d : Dialog) : Applied :=
  let keys := key_names d in
  let key_to_index :=
    fold_left (fun acc ik => dict_set (VStr (snd ik)) (index_str (fst ik)) acc)
      (enumerate keys) [] in
  {| marker_keys := keys;
     pairing_enabled := marker_pairing_enabled d;
     pairing_rules := new_rules key_to_index (pairing d) |}.

(** *** A concrete configuration *)

(** Three markers, the first two paired with each other; the third has a
    rule that names itself and no colour. *)
Definition example_marker_config : MarkerConfig :=
  {| cfg_keys := [py:"Key_A"; py:"Key_S"; py:"Key_D"];
     cfg_colors := [(255, 0, 0)%Z; (0, 255, 0)%Z];
     cfg_pairing_enabled := true;
     cfg_rules := [(VStr py:"1", py:"2"); (VStr py:"2", py:"1");
                   (VStr py:"3", py:"3")] |}.

End ConfigWindow.

(** * Properties *)

Lemma pystr_eqb_eq a b : pystr_eqb a b = true <-> a = b.
Proof.
  revert b; induction a as [|x a IH]; intros [|y b]; simpl; split;
    try congruence; try reflexivity.
  - rewrite andb_true_iff, Ascii.eqb_eq, IH. intros [-> ->]; reflexivity.
  - intros [= -> ->]. rewrite Ascii.eqb_refl. simpl. apply IH. reflexivity.
Qed.

Lemma pystr_eqb_refl a : pystr_eqb a a = true.
Proof. apply pystr_eqb_eq; reflexivity. Qed.

(** ** Decimal digits: what is written is read back *)
Module DigitsFacts.

Import Digits.

Lemma digit_char_is_digit d : (d < 10)%N -> is_digit (digit_char d) = true.
Proof.
  intros H. assert (Hc : In d [0;1;2;3;4;5;6;7;8;9]%N).
  { simpl. lia. }
  simpl in Hc. repeat (destruct Hc as [<-|Hc]; [reflexivity|]). contradiction.
Qed.

Lemma digit_val_char d : (d < 10)%N -> digit_val (digit_char d) = d.
Proof.
  intros H. assert (Hc : In d [0;1;2;3;4;5;6;7;8;9]%N).
  { simpl. lia. }
  simpl in Hc. repeat (destruct Hc as [<-|Hc]; [reflexivity|]). contradiction.
Qed.

Lemma digit_char_zero d : (d < 10)%N -> digit_char d = "0"%char -> d = 0%N.
Proof.
  intros H E. apply (f_equal digit_val) in E.
  rewrite digit_val_char in E by assumption. exact E.
Qed.

Lemma horner_app a ds ds' : horner a (ds ++ ds') = horner (horner a ds) ds'.
Proof. apply fold_left_app. Qed.

Lemma horner_one a c : horner a [c] = (10 * a + digit_val c)%N.
Proof. reflexivity. Qed.

Lemma N_digits_aux_S f n acc :
  N_digits_aux (S f) n acc =
  if (n <? 10)%N then digit_char n :: acc
  else N_digits_aux f (n / 10)%N (digit_char (n mod 10)%N :: acc).
Proof. reflexivity. Qed.

Lemma N_digits_aux_spec f : forall n acc,
  (n < 2 ^ N.of_nat f)%N ->
  exists ds, N_digits_aux (S f) n acc = ds ++ acc /\ digits_of n ds.
Proof.
  induction f as [|f IH]; intros n acc Hn.
  - assert (n = 0%N) by (simpl in Hn; lia). subst n. simpl.
    exists ["0"%char]. split; [reflexivity|].
    split; [reflexivity| |congruence|auto].
    intros a. rewrite horner_one. change (digit_val "0") with 0%N.
    change (N.of_nat (length ["0"%char])) with 1%N. lia.
  - rewrite N_digits_aux_S. destruct (n <? 10)%N eqn:E.
    + apply N.ltb_lt in E. exists [digit_char n]. split; [reflexivity|].
      split.
      * simpl. rewrite digit_char_is_digit by assumption. reflexivity.
      * intros a. rewrite horner_one, digit_val_char by assumption.
        change (N.of_nat (length [digit_char n])) with 1%N. lia.
      * congruence.
      * intros H0. split; [reflexivity|]. now apply digit_char_zero.
    + apply N.ltb_ge in E.
      assert (Hq : (n / 10 < 2 ^ N.of_nat f)%N).
      { apply N.Div0.div_lt_upper_bound.
        rewrite Nat2N.inj_succ, N.pow_succ_r' in Hn. lia. }
      destruct (IH (n / 10)%N (digit_char (n mod 10) :: acc) Hq)
        as (ds & Hds & [D1 D2 D3 D4]).
      exists (ds ++ [digit_char (n mod 10)]). split.
      * rewrite Hds, <- app_assoc. reflexivity.
      * assert (Hm : (n mod 10 < 10)%N) by (apply N.mod_lt; lia).
        split.
        -- rewrite forallb_app, D1. simpl.
           rewrite digit_char_is_digit by assumption. reflexivity.
        -- intros a. rewrite horner_app, D2, horner_one.
           rewrite digit_val_char by assumption.
           rewrite length_app, Nat.add_comm. cbn [length Nat.add].
           rewrite Nat2N.inj_succ, N.pow_succ_r'.
           pose proof (N.div_mod n 10). nia.
        -- destruct ds; simpl; congruence.
        -- destruct ds as [|c r]; [congruence|]. simpl. intros H0.
           destruct (D4 H0) as [_ Hz].
           assert (1 <= n / 10)%N.
           { apply N.div_le_lower_bound; lia. }
           lia.
Qed.

Lemma N_digits_spec n : digits_of n (N_digits n).
Proof.
  unfold N_digits.
  destruct (@N_digits_aux_spec (N.to_nat (N.size n)) n []) as (ds & E & D).
  - rewrite N2Nat.id. apply N.size_gt.
  - rewrite E, app_nil_r. exact D.
Qed.

End DigitsFacts.

(** ** Python literals: [literal_eval] after [repr] *)
Module PyLitFacts.

Import Digits DigitsFacts PyLit.

Lemma py_repr_list vs : py_repr (VList vs) = "["%char :: repr_items vs ++ ["]"%char].
Proof.
  reflexivity.
Qed.

Lemma py_repr_dict kvs :
  py_repr (VDict kvs) = "{"%char :: repr_entries kvs ++ ["}"%char].
Proof.
  reflexivity.
Qed.

Lemma is_digit_tok_start c : is_digit c = true -> tok_start c = true.
Proof. ascii_cases c; intros H; try discriminate H; reflexivity. Qed.

Lemma tok_start_skip br c r : tok_start c = true -> skip_ws br (c :: r) = c :: r.
Proof.
  unfold tok_start. intros H. cbn [skip_ws].
  destruct (is_space c); [discriminate H|].
  destruct (is_newline c); [discriminate H|].
  reflexivity.
Qed.

Lemma span_digits_app ds rest :
  forallb is_digit ds = true -> starts_with_digit rest = false ->
  span_digits (ds ++ rest) = (ds, rest).
Proof.
  intros Hd Hr. induction ds as [|c ds IH]; cbn [forallb app span_digits] in *.
  - destruct rest as [|c r]; [reflexivity|].
    cbn [starts_with_digit span_digits] in *. rewrite Hr. reflexivity.
  - apply andb_true_iff in Hd as [Hc Hd]. rewrite Hc, (IH Hd). reflexivity.
Qed.

Lemma parse_nat_digits n rest :
  starts_with_digit rest = false ->
  parse_nat (N_digits n ++ rest) = Some (n, rest).
Proof.
  intros Hr. destruct (N_digits_spec n) as [D1 D2 D3 D4].
  unfold parse_nat. rewrite span_digits_app by assumption.
  destruct (N_digits n) as [|c ds] eqn:E; [congruence|].
  assert (Hz : leading_zero_ok (c :: ds) = true).
  { destruct ds as [|c' ds]; [reflexivity|]. cbn [leading_zero_ok].
    destruct (Ascii.eqb c "0") eqn:E0; [|reflexivity].
    apply Ascii.eqb_eq in E0. destruct (D4 E0) as [? _]. discriminate. }
  rewrite Hz, D2. rewrite N.mul_0_l, N.add_0_l. reflexivity.
Qed.

Lemma N_digits_head n :
  exists c t, N_digits n = c :: t /\ is_digit c = true.
Proof.
  destruct (N_digits_spec n) as [D1 _ D3 _].
  destruct (N_digits n) as [|c t]; [congruence|].
  exists c, t. split; [reflexivity|].
  simpl in D1. now apply andb_true_iff in D1.
Qed.

(** Unfolding [parse_value] on the first character. *)
Lemma parse_value_int br n c r :
  is_digit c = true ->
  parse_value br (S n) (c :: r) =
  match parse_nat (c :: r) with
  | Some (m, r') => Some (VInt (Z.of_N m), r')
  | None => None
  end.
Proof. ascii_cases c; intros H; try discriminate H; reflexivity. Qed.

Lemma parse_value_neg br n c r :
  is_digit c = true ->
  parse_value br (S n) ("-"%char :: c :: r) =
  match parse_nat (c :: r) with
  | Some (m, r') => Some (VInt (- Z.of_N m), r')
  | None => None
  end.
Proof. ascii_cases c; intros H; try discriminate H; reflexivity. Qed.

Lemma parse_value_str br n q r :
  q = c_squote \/ q = c_dquote ->
  parse_value br (S n) (q :: r) =
  match parse_str_body q r with
  | Some (str, r') => Some (VStr str, r')
  | None => None
  end.
Proof. intros [-> | ->]; reflexivity. Qed.

Lemma parse_value_list br n r :
  parse_value br (S n) ("["%char :: r) =
  match parse_elems n r with
  | Some (vs, r') => Some (VList vs, r')
  | None => None
  end.
Proof. reflexivity. Qed.

Lemma parse_value_dict br n r :
  parse_value br (S n) ("{"%char :: r) =
  match parse_entries n r with
  | Some (kvs, r') =>
      match mk_dict kvs with Some d => Some (d, r') | None => None end
  | None => None
  end.
Proof. reflexivity. Qed.

Lemma parse_elems_end n r : parse_elems (S n) ("]"%char :: r) = Some ([], r).
Proof. reflexivity. Qed.

Lemma parse_elems_blank n r : parse_elems n (" "%char :: r) = parse_elems n r.
Proof. destruct n; reflexivity. Qed.

Lemma parse_elems_item n c r :
  tok_start c = true ->
  parse_elems (S n) (c :: r) =
  match parse_value true n (c :: r) with
  | Some (v, r1) =>
      match skip_ws true r1 with
      | c1 :: r2 =>
          if Ascii.eqb c1 ","%char then
            match parse_elems n r2 with
            | Some (vs, r3) => Some (v :: vs, r3)
            | None => None
            end
          else if Ascii.eqb c1 "]"%char then Some ([v], r2)
          else None
      | [] => None
      end
  | None => None
  end.
Proof.
  intros H. cbn [parse_elems]. rewrite tok_start_skip by exact H.
  unfold tok_start in H. destruct (Ascii.eqb c "]"); [|reflexivity].
  rewrite !orb_true_r in H. discriminate H.
Qed.

Lemma parse_entries_end n r : parse_entries (S n) ("}"%char :: r) = Some ([], r).
Proof. reflexivity. Qed.

Lemma parse_entries_blank n r : parse_entries n (" "%char :: r) = parse_entries n r.
Proof. destruct n; reflexivity. Qed.

Lemma parse_value_blank n r : parse_value true n (" "%char :: r) = parse_value true n r.
Proof. destruct n; reflexivity. Qed.

Lemma parse_entries_item n c r :
  tok_start c = true ->
  parse_entries (S n) (c :: r) =
  match parse_value true n (c :: r) with
  | Some (k, r1) =>
      match skip_ws true r1 with
      | c1 :: r2 =>
          if Ascii.eqb c1 ":"%char then
            match parse_value true n r2 with
            | Some (v, r3) =>
                match skip_ws true r3 with
                | c2 :: r4 =>
                    if Ascii.eqb c2 ","%char then
                      match parse_entries n r4 with
                      | Some (kvs, r5) => Some ((k, v) :: kvs, r5)
                      | None => None
                      end
                    else if Ascii.eqb c2 "}"%char then Some ([(k, v)], r4)
                    else None
                | [] => None
                end
            | None => None
            end
          else None
      | [] => None
      end
  | None => None
  end.
Proof.
  intros H. cbn [parse_entries]. rewrite tok_start_skip by exact H.
  unfold tok_start in H. destruct (Ascii.eqb c "}"); [|reflexivity].
  rewrite !orb_true_r in H. discriminate H.
Qed.

(** Strings. *)
Lemma parse_escape_char q c t :
  q = c_squote \/ q = c_dquote ->
  parse_str_body q (escape_char q c ++ t) = cons_fst c (parse_str_body q t).
Proof. intros [-> | ->]; ascii_cases c; reflexivity. Qed.

Lemma choose_quote_cases s :
  choose_quote s = c_squote \/ choose_quote s = c_dquote.
Proof. unfold choose_quote. destruct (_ && _); auto. Qed.

Lemma parse_str_body_escape q s rest :
  q = c_squote \/ q = c_dquote ->
  parse_str_body q (flat_map (escape_char q) s ++ q :: rest) = Some (s, rest).
Proof.
  intros Hq. induction s as [|c s IH].
  - simpl. rewrite Ascii.eqb_refl. reflexivity.
  - cbn [flat_map]. rewrite <- app_assoc, parse_escape_char, IH by exact Hq.
    reflexivity.
Qed.

Lemma key_eqb_eq a b :
  hashable a = true -> key_eqb a b = true -> a = b.
Proof.
  destruct a, b; simpl; try discriminate; intros _ H.
  - apply Z.eqb_eq in H. congruence.
  - apply pystr_eqb_eq in H. congruence.
Qed.

Lemma key_eqb_refl a : hashable a = true -> key_eqb a a = true.
Proof.
  destruct a; simpl; try discriminate; intros _.
  - apply Z.eqb_refl.
  - apply pystr_eqb_refl.
Qed.

Lemma dict_set_fresh {V} k (v : V) d :
  Forall (fun kv => hashable (fst kv) = true) d ->
  ~ In k (map fst d) -> dict_set k v d = d ++ [(k, v)].
Proof.
  induction d as [|[k' v'] d IH]; intros Hh Hn; [reflexivity|].
  inversion Hh as [|? ? Hk Hd]; subst. simpl in Hk, Hn |- *.
  destruct (key_eqb k' k) eqn:E.
  - exfalso. apply Hn. left. now apply key_eqb_eq.
  - rewrite IH; auto.
Qed.

Lemma dict_update_fresh {V} (acc kvs : list (PyValue * V)) :
  Forall (fun kv => hashable (fst kv) = true) (acc ++ kvs) ->
  NoDup (map fst (acc ++ kvs)) ->
  dict_update acc kvs = acc ++ kvs.
Proof.
  unfold dict_update.
  revert acc. induction kvs as [|[k v] kvs IH]; intros acc Hh Hn.
  - now rewrite app_nil_r.
  - cbn [fold_left fst snd].
    assert (E : acc ++ (k, v) :: kvs = (acc ++ [(k, v)]) ++ kvs)
      by now rewrite <- app_assoc.
    rewrite E in Hh, Hn |- *.
    rewrite dict_set_fresh.
    + apply IH; assumption.
    + apply Forall_app in Hh as [Hh _]. apply Forall_app in Hh as [Hh _].
      exact Hh.
    + rewrite !map_app in Hn. apply NoDup_app_remove_r in Hn.
      simpl in Hn. apply NoDup_remove_2 in Hn. now rewrite app_nil_r in Hn.
Qed.

Lemma dict_of_pairs_fresh {V} (kvs : list (PyValue * V)) :
  Forall (fun kv => hashable (fst kv) = true) kvs ->
  NoDup (map fst kvs) ->
  dict_of_pairs kvs = kvs.
Proof. intros Hh Hn. unfold dict_of_pairs. now rewrite dict_update_fresh. Qed.

Lemma mk_dict_wf kvs :
  NoDup (map fst kvs) ->
  Forall (fun kv => hashable (fst kv) = true) kvs ->
  mk_dict kvs = Some (VDict kvs).
Proof.
  intros Hn Hh. unfold mk_dict.
  assert (E : forallb (fun kv => hashable (fst kv)) kvs = true)
    by now apply forallb_forall, Forall_forall.
  rewrite E. now rewrite dict_of_pairs_fresh.
Qed.

Lemma py_repr_head v :
  exists c t, py_repr v = c :: t /\ tok_start c = true.
Proof.
  destruct v as [z|s|vs|kvs].
  - cbn [py_repr]. unfold repr_int.
    destruct (N_digits_head (Z.abs_N z)) as (c & t & E & Hc).
    destruct (z <? 0)%Z.
    + eexists _, _. split; reflexivity.
    + exists c, t. split; [exact E|]. now apply is_digit_tok_start.
  - cbn [py_repr]. unfold repr_str.
    destruct (choose_quote_cases s) as [-> | ->];
      eexists _, _; split; reflexivity.
  - rewrite py_repr_list. eexists _, _; split; reflexivity.
  - rewrite py_repr_dict. eexists _, _; split; reflexivity.
Qed.

Lemma roundtrips_int z : roundtrips (VInt z).
Proof.
  intros br n rest Hn Hr. cbn [py_repr] in *. unfold repr_int in *.
  destruct (N_digits_head (Z.abs_N z)) as (c & t & E & Hc).
  destruct (z <? 0)%Z eqn:Ez.
  - destruct n as [|n]; [simpl in Hn; lia|].
    cbn [app]. rewrite E. cbn [app]. rewrite parse_value_neg by exact Hc.
    change (c :: t ++ rest) with ((c :: t) ++ rest).
    rewrite <- E, parse_nat_digits by exact Hr.
    apply Z.ltb_lt in Ez. rewrite N2Z.inj_abs_N.
    replace (- Z.abs z)%Z with z by lia. reflexivity.
  - destruct n as [|n]; [rewrite E in Hn; simpl in Hn; lia|].
    rewrite E. cbn [app]. rewrite parse_value_int by exact Hc.
    change (c :: t ++ rest) with ((c :: t) ++ rest).
    rewrite <- E, parse_nat_digits by exact Hr.
    apply Z.ltb_ge in Ez. rewrite N2Z.inj_abs_N.
    replace (Z.abs z) with z by lia. reflexivity.
Qed.

Lemma roundtrips_str s : roundtrips (VStr s).
Proof.
  intros br n rest Hn _. cbn [py_repr] in *. unfold repr_str in *.
  destruct n as [|n]; [simpl in Hn; lia|].
  cbn [app]. rewrite parse_value_str by apply choose_quote_cases.
  rewrite <- app_assoc. cbn [app].
  rewrite parse_str_body_escape by apply choose_quote_cases. reflexivity.
Qed.

Lemma skip_ws_tok (c : ascii) r :
  tok_start c = true -> skip_ws true (c :: r) = c :: r.
Proof. apply tok_start_skip. Qed.

Lemma roundtrips_elems vs :
  Forall roundtrips vs ->
  forall n rest,
    2 * length (repr_items vs) + 1 <= n ->
    parse_elems n (repr_items vs ++ "]"%char :: rest) = Some (vs, rest).
Proof.
  induction vs as [|x xs IH]; intros Hvs n rest Hn.
  - destruct n as [|n]; [lia|]. apply parse_elems_end.
  - inversion Hvs as [|? ? Hx Hxs]; subst.
    destruct n as [|n]; [lia|].
    cbn [repr_items] in *. rewrite <- app_assoc.
    rewrite length_app in Hn.
    set (tl := match xs with
               | [] => []
               | _ :: _ => ","%char :: " "%char :: repr_items xs
               end) in *.
    assert (Hk : starts_with_digit (tl ++ "]"%char :: rest) = false)
      by (subst tl; destruct xs; reflexivity).
    assert (Hp := Hx true n _ ltac:(lia) Hk).
    destruct (py_repr_head x) as (c & t & E & Hc).
    rewrite E in Hp |- *. cbn [app] in Hp |- *.
    rewrite parse_elems_item by exact Hc. rewrite Hp.
    subst tl. destruct xs as [|y ys].
    + reflexivity.
    + cbn [app]. rewrite skip_ws_tok by reflexivity.
      change (Ascii.eqb ","%char ","%char) with true. cbv iota.
      rewrite parse_elems_blank.
      rewrite IH; [reflexivity|exact Hxs|].
      cbn [length] in Hn. lia.
Qed.

Lemma roundtrips_entries kvs :
  Forall (fun kv => roundtrips (fst kv) /\ roundtrips (snd kv)) kvs ->
  forall n rest,
    2 * length (repr_entries kvs) + 1 <= n ->
    parse_entries n (repr_entries kvs ++ "}"%char :: rest) = Some (kvs, rest).
Proof.
  induction kvs as [|[k x] xs IH]; intros Hvs n rest Hn.
  - destruct n as [|n]; [lia|]. apply parse_entries_end.
  - inversion Hvs as [|? ? [Hk Hx] Hxs]; subst. cbn [fst snd] in *.
    destruct n as [|n]; [lia|].
    cbn [repr_entries] in *. rewrite <- app_assoc. cbn [app].
    rewrite <- app_assoc.
    rewrite length_app in Hn. cbn [length] in Hn. rewrite length_app in Hn.
    set (tl := match xs with
               | [] => []
               | _ :: _ => ","%char :: " "%char :: repr_entries xs
               end) in *.
    assert (Htl : starts_with_digit (tl ++ "}"%char :: rest) = false)
      by (subst tl; destruct xs; reflexivity).
    assert (Hpx := Hx true n _ ltac:(lia) Htl).
    assert (Hpk := Hk true n
                     (":"%char :: " "%char :: py_repr x ++ tl ++ "}"%char :: rest)
                     ltac:(lia) eq_refl).
    destruct (py_repr_head k) as (c & t & E & Hc).
    rewrite E in Hpk |- *. cbn [app] in Hpk |- *.
    rewrite parse_entries_item by exact Hc. rewrite Hpk.
    rewrite skip_ws_tok by reflexivity.
    change (Ascii.eqb ":"%char ":"%char) with true. cbv iota.
    rewrite parse_value_blank, Hpx.
    subst tl. destruct xs as [|y ys].
    + reflexivity.
    + cbn [app]. rewrite skip_ws_tok by reflexivity.
      change (Ascii.eqb ","%char ","%char) with true. cbv iota.
      rewrite parse_entries_blank.
      rewrite IH; [reflexivity|exact Hxs|].
      cbn [length] in Hn. lia.
Qed.

Lemma wf_roundtrips v : wf_value v -> roundtrips v.
Proof.
  induction v as [z|s|vs IH|kvs IH] using PyValue_nested_ind; intros Hwf.
  - apply roundtrips_int.
  - apply roundtrips_str.
  - inversion Hwf as [| |? Hvs|]; subst.
    assert (Hall : Forall roundtrips vs).
    { apply Forall_forall. intros x Hx.
      rewrite Forall_forall in IH, Hvs. auto. }
    intros br n rest Hn _. rewrite py_repr_list in *.
    destruct n as [|n]; [simpl in Hn; lia|].
    cbn [app]. rewrite parse_value_list, <- app_assoc. cbn [app].
    rewrite roundtrips_elems; [reflexivity|exact Hall|].
    cbn [length] in Hn. rewrite length_app in Hn. lia.
  - inversion Hwf as [| | |? Hnd Hkv]; subst.
    assert (Hall : Forall (fun kv => roundtrips (fst kv) /\ roundtrips (snd kv)) kvs).
    { apply Forall_forall. intros [k x] Hx.
      rewrite Forall_forall in IH, Hkv.
      destruct (IH _ Hx) as [IHk IHx]. destruct (Hkv _ Hx) as [Hh Hw].
      cbn [fst snd] in *. split; [|auto].
      destruct k; try discriminate Hh;
        [apply roundtrips_int|apply roundtrips_str]. }
    intros br n rest Hn _. rewrite py_repr_dict in *.
    destruct n as [|n]; [simpl in Hn; lia|].
    cbn [app]. rewrite parse_value_dict, <- app_assoc. cbn [app].
    rewrite roundtrips_entries; [|exact Hall|].
    + rewrite mk_dict_wf; [reflexivity|exact Hnd|].
      eapply Forall_impl; [|exact Hkv]. now intros ? [? _].
    + cbn [length] in Hn. rewrite length_app in Hn. lia.
Qed.

Lemma tok_start_leading c r :
  tok_start c = true ->
  lstrip_blanks (c :: r) = c :: r /\ leading true (c :: r) = Some (c :: r).
Proof.
  unfold tok_start, is_space. intros H. cbn [lstrip_blanks leading].
  destruct (Ascii.eqb c " "); [discriminate H|].
  destruct (Ascii.eqb c c_tab); [discriminate H|].
  destruct (Ascii.eqb c (ascii_of_N 12)); [discriminate H|].
  destruct (is_newline c); [discriminate H|]. split; reflexivity.
Qed.

(** Round trip of the literal syntax: [literal_eval (repr v) = v]. *)
Theorem literal_eval_repr v :
  wf_value v -> literal_eval (py_repr v) = Some v.
Proof.
  intros Hwf. unfold literal_eval.
  pose proof (@wf_roundtrips v Hwf false (2 * length (py_repr v) + 2) []) as H.
  rewrite app_nil_r in H.
  destruct (py_repr_head v) as (c & t & E & Hc).
  destruct (@tok_start_leading c t Hc) as [E1 E2].
  rewrite E in *. rewrite E1, E2, H; [reflexivity|lia|reflexivity].
Qed.

(** *** What [literal_eval] returns is well formed *)

Lemma dict_set_keys {V} k (v : V) d :
  map fst (dict_set k v d) = map fst d \/
  (map fst (dict_set k v d) = map fst d ++ [k] /\
   Forall (fun kv => key_eqb (fst kv) k = false) d).
Proof.
  induction d as [|[k' v'] d IH]; simpl.
  - right. split; [reflexivity|constructor].
  - destruct (key_eqb k' k) eqn:E; simpl.
    + left. reflexivity.
    + destruct IH as [IH|[IH HF]].
      * left. now rewrite IH.
      * right. split; [now rewrite IH|]. constructor; assumption.
Qed.

Lemma dict_set_nodup {V} k (v : V) d :
  hashable k = true ->
  NoDup (map fst d) -> NoDup (map fst (dict_set k v d)).
Proof.
  intros Hk Hn. destruct (dict_set_keys k v d) as [E|[E HF]]; rewrite E.
  - exact Hn.
  - apply NoDup_app; [exact Hn|repeat constructor; simpl; tauto|].
    intros x Hx [<-|[]]. apply in_map_iff in Hx as ([k' v'] & <- & Hin).
    rewrite Forall_forall in HF. specialize (HF _ Hin). simpl in HF.
    rewrite key_eqb_refl in HF by exact Hk. discriminate.
Qed.

Lemma dict_set_forall {V} (P : PyValue * V -> Prop) k (v : V) d :
  (forall k', key_eqb k' k = true -> P (k', v)) -> P (k, v) ->
  Forall P d -> Forall P (dict_set k v d).
Proof.
  intros Hk Hv. induction 1 as [|[k' v'] d Hx Hd IH]; simpl.
  - repeat constructor. exact Hv.
  - destruct (key_eqb k' k) eqn:E; constructor; auto.
Qed.

Lemma dict_update_wf {V} (Q : V -> Prop) (kvs acc : list (PyValue * V)) :
  Forall (fun kv => hashable (fst kv) = true /\ Q (snd kv)) kvs ->
  NoDup (map fst acc) ->
  Forall (fun kv => hashable (fst kv) = true /\ Q (snd kv)) acc ->
  NoDup (map fst (dict_update acc kvs)) /\
  Forall (fun kv => hashable (fst kv) = true /\ Q (snd kv))
         (dict_update acc kvs).
Proof.
  unfold dict_update. intros Hkvs. revert acc.
  induction Hkvs as [|[k v] kvs [Hk Hv] _ IH]; intros acc Hn Ha;
    cbn [fold_left fst snd] in *.
  - split; assumption.
  - apply IH.
    + now apply dict_set_nodup.
    + apply dict_set_forall; cbn [fst snd]; auto.
      intros k' E. split; [|exact Hv].
      destruct k'; try discriminate E; reflexivity.
Qed.

Lemma mk_dict_some kvs d :
  Forall (fun kv => wf_value (fst kv) /\ wf_value (snd kv)) kvs ->
  mk_dict kvs = Some d -> wf_value d.
Proof.
  unfold mk_dict. intros Hw.
  destruct (forallb _ kvs) eqn:E; [|discriminate]. intros [= <-].
  rewrite forallb_forall in E.
  destruct (@dict_update_wf _ wf_value kvs []) as [Hn Hf].
  - apply Forall_forall. intros kv Hin. rewrite Forall_forall in Hw.
    split; [now apply E|now apply Hw].
  - constructor.
  - constructor.
  - constructor; assumption.
Qed.

Lemma parse_wf n :
  (forall br s v r, parse_value br n s = Some (v, r) -> wf_value v) /\
  (forall s vs r, parse_elems n s = Some (vs, r) -> Forall wf_value vs) /\
  (forall s kvs r, parse_entries n s = Some (kvs, r) ->
     Forall (fun kv => wf_value (fst kv) /\ wf_value (snd kv)) kvs).
Proof.
  induction n as [|n (IHv & IHe & IHd)].
  - repeat split; intros; discriminate.
  - repeat split.
    + intros br s v r H. cbn [parse_value] in H.
      destruct (skip_ws br s) as [|c t]; [discriminate|].
      destruct (Ascii.eqb c "[").
      { destruct (parse_elems n t) as [[vs r']|] eqn:E; [|discriminate].
        injection H as <- <-. constructor. eapply IHe, E. }
      destruct (Ascii.eqb c "{").
      { destruct (parse_entries n t) as [[kvs r']|] eqn:E; [|discriminate].
        destruct (mk_dict kvs) as [d|] eqn:Ed; [|discriminate].
        injection H as <- <-. eapply mk_dict_some; [|exact Ed]. eapply IHd, E. }
      destruct (_ || _).
      { destruct (parse_str_body c t) as [[str r']|]; [|discriminate].
        injection H as <- <-. constructor. }
      destruct (Ascii.eqb c "-").
      { destruct (parse_nat _) as [[m r']|]; [|discriminate].
        injection H as <- <-. constructor. }
      destruct (Ascii.eqb c "+").
      { destruct (parse_nat _) as [[m r']|]; [|discriminate].
        injection H as <- <-. constructor. }
      destruct (parse_nat _) as [[m r']|]; [|discriminate].
      injection H as <- <-. constructor.
    + intros s vs r H. cbn [parse_elems] in H.
      destruct (skip_ws true s) as [|c t]; [discriminate|].
      destruct (Ascii.eqb c "]"); [injection H as <- <-; constructor|].
      destruct (parse_value true n (c :: t)) as [[v r1]|] eqn:Ev; [|discriminate].
      destruct (skip_ws true r1) as [|c1 r2]; [discriminate|].
      destruct (Ascii.eqb c1 ",").
      { destruct (parse_elems n r2) as [[vs' r3]|] eqn:E; [|discriminate].
        injection H as <- <-. constructor; [eapply IHv, Ev|eapply IHe, E]. }
      destruct (Ascii.eqb c1 "]"); [|discriminate].
      injection H as <- <-. repeat constructor. eapply IHv, Ev.
    + intros s kvs r H. cbn [parse_entries] in H.
      destruct (skip_ws true s) as [|c t]; [discriminate|].
      destruct (Ascii.eqb c "}"); [injection H as <- <-; constructor|].
      destruct (parse_value true n (c :: t)) as [[k r1]|] eqn:Ek; [|discriminate].
      destruct (skip_ws true r1) as [|c1 r2]; [discriminate|].
      destruct (Ascii.eqb c1 ":"); [|discriminate].
      destruct (parse_value true n r2) as [[v r3]|] eqn:Ev; [|discriminate].
      destruct (skip_ws true r3) as [|c2 r4]; [discriminate|].
      destruct (Ascii.eqb c2 ",").
      { destruct (parse_entries n r4) as [[kvs' r5]|] eqn:E; [|discriminate].
        injection H as <- <-. constructor; [|eapply IHd, E].
        split; [eapply IHv, Ek|eapply IHv, Ev]. }
      destruct (Ascii.eqb c2 "}"); [|discriminate].
      injection H as <- <-. repeat constructor; [eapply IHv, Ek|eapply IHv, Ev].
Qed.

Theorem literal_eval_wf text v : literal_eval text = Some v -> wf_value v.
Proof.
  unfold literal_eval.
  destruct (leading true _) as [s|]; [|discriminate].
  destruct (parse_value false _ s) as [[v' r]|] eqn:E; [|discriminate].
  destruct (trailing true false r); [|discriminate]. intros [= <-].
  eapply (proj1 (parse_wf _)), E.
Qed.

(** *** The fuel of [literal_eval] is enough *)

Lemma skip_ws_length br s : length (skip_ws br s) <= length s.
Proof.
  induction s as [|c r IH]; cbn [skip_ws length]; [lia|].
  destruct (_ || _); cbn [length]; lia.
Qed.

Lemma span_digits_length s ds r :
  span_digits s = (ds, r) -> length s = length ds + length r.
Proof.
  revert ds r. induction s as [|c s IH]; intros ds r; cbn [span_digits].
  - intros [= <- <-]. reflexivity.
  - destruct (is_digit c).
    + destruct (span_digits s) as [ds' r'] eqn:E. intros [= <- <-].
      cbn [length]. rewrite (IH _ _ eq_refl). reflexivity.
    + intros [= <- <-]. reflexivity.
Qed.

Lemma parse_nat_consumes s m r :
  parse_nat s = Some (m, r) -> length r < length s.
Proof.
  unfold parse_nat. destruct (span_digits s) as [ds r'] eqn:E.
  apply span_digits_length in E.
  destruct ds as [|d ds]; [discriminate|].
  destruct (leading_zero_ok _); [|discriminate]. intros [= _ <-].
  cbn [length] in E. lia.
Qed.

Lemma parse_str_body_consumes q s str r :
  parse_str_body q s = Some (str, r) -> length r < length s.
Proof.
  remember (length s) as k eqn:Ek.
  assert (Hk : length s <= k) by lia. clear Ek.
  revert s str r Hk. induction k as [|k IH]; intros s str r Hk.
  - destruct s; [discriminate|cbn [length] in Hk; lia].
  - destruct s as [|c s]; [discriminate|]. cbn [parse_str_body length] in *.
    destruct (Ascii.eqb c q); [intros [= _ <-]; lia|].
    destruct (Ascii.eqb c c_bslash).
    + destruct s as [|e s1]; [discriminate|].
      destruct (Ascii.eqb e "x").
      * destruct s1 as [|h1 [|h2 s2]]; try discriminate.
        destruct (hex_val h1); [|discriminate].
        destruct (hex_val h2); [|discriminate].
        destruct (parse_str_body q s2) as [[l b]|] eqn:E; [|discriminate].
        cbn [cons_fst]. intros [= _ <-].
        apply IH in E; cbn [length] in *; lia.
      * destruct (unescape e); [|discriminate].
        destruct (parse_str_body q s1) as [[l b]|] eqn:E; [|discriminate].
        cbn [cons_fst]. intros [= _ <-].
        apply IH in E; cbn [length] in *; lia.
    + destruct (_ || _); [discriminate|].
      destruct (parse_str_body q s) as [[l b]|] eqn:E; [|discriminate].
      cbn [cons_fst]. intros [= _ <-]. apply IH in E; lia.
Qed.

(** Every successful call consumes input. *)
Lemma parse_consumes n :
  (forall br s v r, parse_value br n s = Some (v, r) -> length r < length s) /\
  (forall s vs r, parse_elems n s = Some (vs, r) -> length r < length s) /\
  (forall s kvs r, parse_entries n s = Some (kvs, r) -> length r < length s).
Proof.
  induction n as [|n (IHv & IHe & IHd)].
  - repeat split; intros; discriminate.
  - repeat split.
    + intros br s v r H. cbn [parse_value] in H.
      pose proof (skip_ws_length br s) as Hs.
      destruct (skip_ws br s) as [|c t]; [discriminate|]. cbn [length] in Hs.
      destruct (Ascii.eqb c "[").
      { destruct (parse_elems n t) as [[vs r']|] eqn:E; [|discriminate].
        injection H as _ <-. apply IHe in E. lia. }
      destruct (Ascii.eqb c "{").
      { destruct (parse_entries n t) as [[kvs r']|] eqn:E; [|discriminate].
        destruct (mk_dict kvs); [|discriminate].
        injection H as _ <-. apply IHd in E. lia. }
      destruct (_ || _).
      { destruct (parse_str_body c t) as [[str r']|] eqn:E; [|discriminate].
        injection H as _ <-. apply parse_str_body_consumes in E. lia. }
      destruct (Ascii.eqb c "-").
      { destruct (parse_nat _) as [[m r']|] eqn:E; [|discriminate].
        injection H as _ <-. apply parse_nat_consumes in E.
        pose proof (skip_ws_length br t). lia. }
      destruct (Ascii.eqb c "+").
      { destruct (parse_nat _) as [[m r']|] eqn:E; [|discriminate].
        injection H as _ <-. apply parse_nat_consumes in E.
        pose proof (skip_ws_length br t). lia. }
      destruct (parse_nat _) as [[m r']|] eqn:E; [|discriminate].
      injection H as _ <-. apply parse_nat_consumes in E. cbn [length] in E. lia.
    + intros s vs r H. cbn [parse_elems] in H.
      pose proof (skip_ws_length true s) as Hs.
      destruct (skip_ws true s) as [|c t]; [discriminate|]. cbn [length] in Hs.
      destruct (Ascii.eqb c "]"); [injection H as _ <-; lia|].
      destruct (parse_value true n (c :: t)) as [[v r1]|] eqn:Ev; [|discriminate].
      apply IHv in Ev. cbn [length] in Ev.
      pose proof (skip_ws_length true r1) as Hs1.
      destruct (skip_ws true r1) as [|c1 r2]; [discriminate|]. cbn [length] in Hs1.
      destruct (Ascii.eqb c1 ",").
      { destruct (parse_elems n r2) as [[vs' r3]|] eqn:E; [|discriminate].
        injection H as _ <-. apply IHe in E. lia. }
      destruct (Ascii.eqb c1 "]"); [|discriminate].
      injection H as _ <-. lia.
    + intros s kvs r H. cbn [parse_entries] in H.
      pose proof (skip_ws_length true s) as Hs.
      destruct (skip_ws true s) as [|c t]; [discriminate|]. cbn [length] in Hs.
      destruct (Ascii.eqb c "}"); [injection H as _ <-; lia|].
      destruct (parse_value true n (c :: t)) as [[k r1]|] eqn:Ek; [|discriminate].
      apply IHv in Ek. cbn [length] in Ek.
      pose proof (skip_ws_length true r1) as Hs1.
      destruct (skip_ws true r1) as [|c1 r2]; [discriminate|]. cbn [length] in Hs1.
      destruct (Ascii.eqb c1 ":"); [|discriminate].
      destruct (parse_value true n r2) as [[v r3]|] eqn:Ev; [|discriminate].
      apply IHv in Ev.
      pose proof (skip_ws_length true r3) as Hs3.
      destruct (skip_ws true r3) as [|c2 r4]; [discriminate|]. cbn [length] in Hs3.
      destruct (Ascii.eqb c2 ",").
      { destruct (parse_entries n r4) as [[kvs' r5]|] eqn:E; [|discriminate].
        injection H as _ <-. apply IHd in E. lia. }
      destruct (Ascii.eqb c2 "}"); [|discriminate].
      injection H as _ <-. lia.
Qed.

(** Beyond twice the length of the text, more fuel changes nothing. *)
Lemma parse_fuel n :
  (forall br s m, 2 * length s < n -> n <= m ->
     parse_value br m s = parse_value br n s) /\
  (forall s m, 2 * length s + 1 < n -> n <= m ->
     parse_elems m s = parse_elems n s) /\
  (forall s m, 2 * length s + 1 < n -> n <= m ->
     parse_entries m s = parse_entries n s).
Proof.
  induction n as [|n (IHv & IHe & IHd)].
  - repeat split; intros; lia.
  - destruct (parse_consumes n) as (Cv & _ & _).
    repeat split.
    + intros br s m Hn Hm. destruct m as [|m]; [lia|]. cbn [parse_value].
      pose proof (skip_ws_length br s) as Hs.
      destruct (skip_ws br s) as [|c t]; [reflexivity|]. cbn [length] in Hs.
      rewrite (IHe t m) by lia. rewrite (IHd t m) by lia. reflexivity.
    + intros s m Hn Hm. destruct m as [|m]; [lia|]. cbn [parse_elems].
      pose proof (skip_ws_length true s) as Hs.
      destruct (skip_ws true s) as [|c t]; [reflexivity|]. cbn [length] in Hs.
      destruct (Ascii.eqb c "]"); [reflexivity|].
      rewrite (IHv true (c :: t) m) by (cbn [length]; lia).
      destruct (parse_value true n (c :: t)) as [[v r1]|] eqn:Ev; [|reflexivity].
      apply Cv in Ev. cbn [length] in Ev.
      pose proof (skip_ws_length true r1) as Hs1.
      destruct (skip_ws true r1) as [|c1 r2]; [reflexivity|]. cbn [length] in Hs1.
      rewrite (IHe r2 m) by lia. reflexivity.
    + intros s m Hn Hm. destruct m as [|m]; [lia|]. cbn [parse_entries].
      pose proof (skip_ws_length true s) as Hs.
      destruct (skip_ws true s) as [|c t]; [reflexivity|]. cbn [length] in Hs.
      destruct (Ascii.eqb c "}"); [reflexivity|].
      rewrite (IHv true (c :: t) m) by (cbn [length]; lia).
      destruct (parse_value true n (c :: t)) as [[k r1]|] eqn:Ek; [|reflexivity].
      apply Cv in Ek. cbn [length] in Ek.
      pose proof (skip_ws_length true r1) as Hs1.
      destruct (skip_ws true r1) as [|c1 r2]; [reflexivity|]. cbn [length] in Hs1.
      destruct (Ascii.eqb c1 ":"); [|reflexivity].
      rewrite (IHv true r2 m) by lia.
      destruct (parse_value true n r2) as [[v r3]|] eqn:Ev; [|reflexivity].
      apply Cv in Ev.
      pose proof (skip_ws_length true r3) as Hs3.
      destruct (skip_ws true r3) as [|c2 r4]; [reflexivity|]. cbn [length] in Hs3.
      rewrite (IHd r4 m) by lia. reflexivity.
Qed.

Lemma leading_length col0 s s' :
  leading col0 s = Some s' -> length s' <= length s.
Proof.
  revert col0. induction s as [|c r IH]; intros col0; cbn [leading]; [discriminate|].
  destruct (_ || _); [intros H; apply IH in H; cbn [length]; lia|].
  destruct (Ascii.eqb c (ascii_of_N 12)); [intros H; apply IH in H; cbn [length]; lia|].
  destruct (is_newline c); [intros H; apply IH in H; cbn [length]; lia|].
  destruct col0; [|discriminate]. intros [= <-]. lia.
Qed.

Lemma lstrip_blanks_length s : length (lstrip_blanks s) <= length s.
Proof.
  induction s as [|c r IH]; cbn [lstrip_blanks length]; [lia|].
  destruct (_ || _); cbn [length]; lia.
Qed.

(** So a [None] of [literal_eval] is never a lack of fuel: no larger bound
    would read the text. *)
Theorem literal_eval_fuel text s n :
  leading true (lstrip_blanks text) = Some s ->
  2 * length text + 2 <= n ->
  parse_value false n s = parse_value false (2 * length text + 2) s.
Proof.
  intros Hs Hn. apply leading_length in Hs.
  pose proof (lstrip_blanks_length text).
  apply (proj1 (parse_fuel (2 * length text + 2))); lia.
Qed.

(** *** What [repr] writes *)

(** [repr] writes printable characters only. *)
Lemma is_digit_printable c : is_digit c = true -> is_printable c = true.
Proof. ascii_cases c; intros H; try discriminate H; reflexivity. Qed.

Lemma hex_char_printable d : (d < 16)%N -> is_printable (hex_char d) = true.
Proof.
  intros H. unfold hex_char.
  assert (Hc : forall k, (48 <= k < 127)%N -> is_printable (ascii_of_N k) = true).
  { intros k Hk. unfold is_printable. rewrite N_ascii_embedding by lia.
    apply orb_true_iff. left. apply andb_true_iff.
    split; [apply N.leb_le|apply N.ltb_lt]; lia. }
  destruct (d <? 10)%N eqn:E; apply Hc;
    [apply N.ltb_lt in E|apply N.ltb_ge in E]; lia.
Qed.

Lemma escape_char_printable q c :
  is_printable q = true ->
  Forall (fun x => is_printable x = true) (escape_char q c).
Proof.
  intros Hq. unfold escape_char.
  destruct (Ascii.eqb c q || Ascii.eqb c c_bslash) eqn:E1.
  { apply orb_true_iff in E1 as [E|E]; apply Ascii.eqb_eq in E; subst c;
      repeat constructor; assumption. }
  destruct (Ascii.eqb c c_tab); [repeat constructor|].
  destruct (Ascii.eqb c c_lf); [repeat constructor|].
  destruct (Ascii.eqb c c_cr); [repeat constructor|].
  destruct (is_printable c) eqn:E; [repeat constructor; exact E|].
  pose proof (N_ascii_bounded c) as Hb.
  repeat constructor; apply hex_char_printable.
  - apply N.Div0.div_lt_upper_bound. lia.
  - apply N.mod_lt. lia.
Qed.

Lemma repr_str_printable s :
  Forall (fun x => is_printable x = true) (repr_str s).
Proof.
  unfold repr_str.
  assert (Hq : is_printable (choose_quote s) = true)
    by (destruct (choose_quote_cases s) as [-> | ->]; reflexivity).
  constructor; [exact Hq|]. apply Forall_app. split; [|now repeat constructor].
  generalize dependent (choose_quote s). intros q Hq.
  induction s as [|c s IH]; cbn [flat_map]; [constructor|].
  apply Forall_app. split; [now apply escape_char_printable|exact IH].
Qed.

Lemma repr_int_printable z :
  Forall (fun x => is_printable x = true) (repr_int z).
Proof.
  unfold repr_int.
  assert (Hd : Forall (fun x => is_printable x = true) (N_digits (Z.abs_N z))).
  { pose proof (do_digits (N_digits_spec (Z.abs_N z))) as H.
    rewrite forallb_forall in H. apply Forall_forall. intros c Hc.
    apply is_digit_printable, H, Hc. }
  destruct (z <? 0)%Z; [constructor; [reflexivity|exact Hd]|exact Hd].
Qed.

Theorem py_repr_printable v :
  Forall (fun x => is_printable x = true) (py_repr v).
Proof.
  induction v as [z|s|vs IH|kvs IH] using PyValue_nested_ind.
  - apply repr_int_printable.
  - apply repr_str_printable.
  - rewrite py_repr_list. constructor; [reflexivity|].
    apply Forall_app. split; [|now repeat constructor].
    induction IH as [|x l Hx _ IHl]; cbn [repr_items]; [constructor|].
    apply Forall_app. split; [exact Hx|].
    destruct l; [constructor|]. now repeat (constructor; [reflexivity|]).
  - rewrite py_repr_dict. constructor; [reflexivity|].
    apply Forall_app. split; [|now repeat constructor].
    induction IH as [|[k x] l [Hk Hx] _ IHl]; cbn [repr_entries]; [constructor|].
    cbn [fst snd] in *. apply Forall_app. split; [exact Hk|].
    repeat (constructor; [reflexivity|]).
    apply Forall_app. split; [exact Hx|].
    destruct l; [constructor|]. now repeat (constructor; [reflexivity|]).
Qed.

(** *** Texts outside the fragment *)

(** [str_end] follows [parse_str_body]: it closes where the body is read,
    and nowhere else. *)
Lemma str_end_parse q s :
  match str_end q s with
  | Closed r => exists str, parse_str_body q s = Some (str, r)
  | _ => parse_str_body q s = None
  end.
Proof.
  remember (length s) as k eqn:Ek.
  assert (Hk : length s <= k) by lia. clear Ek.
  revert s Hk. induction k as [|k IH]; intros s Hk.
  - destruct s; [reflexivity|cbn [length] in Hk; lia].
  - destruct s as [|c s]; [reflexivity|]. cbn [parse_str_body str_end length] in *.
    destruct (Ascii.eqb c q); [now exists []|].
    destruct (Ascii.eqb c c_bslash).
    + destruct s as [|e s1]; [reflexivity|].
      destruct (Ascii.eqb e "x").
      * destruct s1 as [|h1 [|h2 s2]]; try reflexivity.
        destruct (hex_val h1); [|reflexivity].
        destruct (hex_val h2); [|reflexivity].
        specialize (IH s2). cbn [length] in Hk.
        destruct (str_end q s2).
        -- destruct IH as (str & ->); [lia|]. cbn [cons_fst]. eauto.
        -- rewrite IH by lia. reflexivity.
        -- rewrite IH by lia. reflexivity.
      * destruct (unescape e); [|reflexivity].
        specialize (IH s1). cbn [length] in Hk.
        destruct (str_end q s1).
        -- destruct IH as (str & ->); [lia|]. cbn [cons_fst]. eauto.
        -- rewrite IH by lia. reflexivity.
        -- rewrite IH by lia. reflexivity.
    + destruct (_ || _); [reflexivity|].
      specialize (IH s).
      destruct (str_end q s).
      * destruct IH as (str & ->); [lia|]. cbn [cons_fst]. eauto.
      * rewrite IH by lia. reflexivity.
      * rewrite IH by lia. reflexivity.
Qed.

Lemma str_end_closed q s str r :
  parse_str_body q s = Some (str, r) -> str_end q s = Closed r.
Proof.
  intros H. pose proof (str_end_parse q s) as P.
  destruct (str_end q s); [|congruence|congruence].
  destruct P as (str' & P). congruence.
Qed.

Lemma str_end_consumes q s r : str_end q s = Closed r -> length r < length s.
Proof.
  intros H. pose proof (str_end_parse q s) as P. rewrite H in P.
  destruct P as (str & P). exact (parse_str_body_consumes _ _ P).
Qed.

(** One step of the scan, by the character it meets. *)
Lemma scan_blank n st a c r :
  is_space c || is_newline c = true ->
  foreign_from (S n) st a (c :: r) = foreign_from n st a r.
Proof. intros H. cbn [foreign_from]. now rewrite H. Qed.

Lemma scan_digit n st a c r :
  is_digit c = true ->
  foreign_from (S n) st a (c :: r) = foreign_from n (touch st) false r.
Proof.
  intros H. cbn [foreign_from]. rewrite H.
  replace (is_space c || is_newline c) with false; [reflexivity|].
  ascii_cases c; try discriminate H; reflexivity.
Qed.

Lemma scan_quote n st a q r :
  Ascii.eqb q c_squote || Ascii.eqb q c_dquote = true ->
  foreign_from (S n) st a (q :: r) =
  a || match str_end q r with
       | Closed r' => foreign_from n (touch st) true r'
       | Broken => false
       | OtherEscape => true
       end.
Proof.
  intros H. cbn [foreign_from]. rewrite H.
  replace (is_space q || is_newline q) with false;
    [replace (is_digit q) with false; [reflexivity|]|].
  - apply orb_true_iff in H as [H|H]; apply Ascii.eqb_eq in H; now subst q.
  - apply orb_true_iff in H as [H|H]; apply Ascii.eqb_eq in H; now subst q.
Qed.

Lemma scan_sign n st a c r :
  Ascii.eqb c "+" || Ascii.eqb c "-" = true ->
  foreign_from (S n) st a (c :: r) = foreign_from n (touch st) false r.
Proof.
  intros H. apply orb_true_iff in H as [H|H]; apply Ascii.eqb_eq in H;
    now subst c.
Qed.

Lemma scan_open_square n st a r :
  foreign_from (S n) st a ("["%char :: r) =
  foreign_from n (Square :: touch st) false r.
Proof. reflexivity. Qed.

Lemma scan_open_brace n st a r :
  foreign_from (S n) st a ("{"%char :: r) =
  foreign_from n (Brace false false :: touch st) false r.
Proof. reflexivity. Qed.

Lemma scan_close_square n st a r :
  foreign_from (S n) (Square :: st) a ("]"%char :: r) = foreign_from n st false r.
Proof. reflexivity. Qed.

Lemma scan_comma_square n st a r :
  foreign_from (S n) (Square :: st) a (","%char :: r) =
  foreign_from n (Square :: st) false r.
Proof. reflexivity. Qed.

Lemma scan_close_brace n st a r tok :
  foreign_from (S n) (Brace tok tok :: st) a ("}"%char :: r) =
  foreign_from n st false r.
Proof. now destruct tok. Qed.

Lemma scan_comma_brace n st a r :
  foreign_from (S n) (Brace true true :: st) a (","%char :: r) =
  foreign_from n (Brace false false :: st) false r.
Proof. reflexivity. Qed.

Lemma scan_colon n st a r tok colon :
  foreign_from (S n) (Brace tok colon :: st) a (":"%char :: r) =
  foreign_from n (Brace tok true :: st) false r.
Proof. reflexivity. Qed.

Lemma touch_touch st : touch (touch st) = touch st.
Proof. now destruct st as [|[|tok colon] st]. Qed.

(** The bound on the number of tokens plays no part once it covers the
    text. *)
Lemma foreign_from_fuel n : forall m st a s,
  length s <= n -> length s <= m ->
  foreign_from n st a s = foreign_from m st a s.
Proof.
  induction n as [|n IH]; intros m st a s Hn Hm.
  - destruct s; [now destruct m|cbn [length] in Hn; lia].
  - destruct s as [|c r]; [now destruct m|].
    destruct m as [|m]; [cbn [length] in Hm; lia|].
    cbn [length] in Hn, Hm. cbn [foreign_from].
    destruct (_ || _); [apply IH; lia|].
    destruct (is_digit c); [apply IH; lia|].
    destruct (_ || _).
    { f_equal. destruct (str_end c r) as [r'| |] eqn:E; try reflexivity.
      apply str_end_consumes in E. apply IH; lia. }
    destruct (_ || _); [apply IH; lia|].
    destruct (Ascii.eqb c "["); [apply IH; lia|].
    destruct (Ascii.eqb c "{"); [apply IH; lia|].
    assert (Htl : length r <= n -> length r <= m ->
                  foreign_from n (tl st) false r = foreign_from m (tl st) false r)
      by (intros; apply IH; lia).
    destruct (Ascii.eqb c "]"); [apply Htl; lia|].
    destruct (Ascii.eqb c "}").
    { destruct st as [|[|[] []] st]; try reflexivity; apply IH; lia. }
    destruct (Ascii.eqb c ",").
    { destruct st as [|[|[] []] st]; try reflexivity; apply IH; lia. }
    destruct (Ascii.eqb c ":"); [|reflexivity].
    destruct st as [|[|tok colon] st]; apply IH; lia.
Qed.

Lemma scan_skip_ws br s : forall n m st a,
  length s <= n -> length (skip_ws br s) <= m ->
  foreign_from n st a s = foreign_from m st a (skip_ws br s).
Proof.
  induction s as [|c r IH]; intros n m st a Hn Hm.
  - now apply foreign_from_fuel.
  - cbn [skip_ws] in *. destruct (is_space c || is_newline c && br) eqn:E.
    + destruct n as [|n]; [cbn [length] in Hn; lia|]. cbn [length] in Hn.
      rewrite scan_blank; [apply IH; lia|].
      destruct (is_space c); [reflexivity|].
      cbn [orb] in *. now apply andb_true_iff in E as [-> _].
    + now apply foreign_from_fuel.
Qed.

Lemma scan_span s : forall ds r n m st a,
  span_digits s = (ds, r) -> ds <> [] ->
  length s <= n -> length r <= m ->
  foreign_from n st a s = foreign_from m (touch st) false r.
Proof.
  induction s as [|c s IH]; intros ds r n m st a; cbn [span_digits].
  - intros [= <- <-]. congruence.
  - destruct (is_digit c) eqn:Ec; [|intros [= <- <-]; congruence].
    destruct (span_digits s) as [ds' r'] eqn:E in *.
    intros [= <- <-] _ Hn Hm.
    destruct n as [|n]; [cbn [length] in Hn; lia|]. cbn [length] in Hn.
    rewrite scan_digit by exact Ec.
    destruct ds' as [|d ds'].
    + assert (s = r') as ->.
      { destruct s as [|c' s]; cbn [span_digits] in E; [congruence|].
        destruct (is_digit c'); [|congruence].
        destruct (span_digits s). discriminate. }
      apply foreign_from_fuel; lia.
    + rewrite (IH (d :: ds') r' n m (touch st) false eq_refl)
        by (congruence || lia).
      now rewrite touch_touch.
Qed.

Lemma scan_nat s k r n m st a :
  parse_nat s = Some (k, r) ->
  length s <= n -> length r <= m ->
  foreign_from n st a s = foreign_from m (touch st) false r.
Proof.
  unfold parse_nat. destruct (span_digits s) as [ds r'] eqn:E.
  destruct ds as [|d ds]; [discriminate|].
  destruct (leading_zero_ok _); [|discriminate]. intros [= _ <-] Hn Hm.
  apply (@scan_span s _ _ n m st a E); (discriminate || assumption).
Qed.

(** What the reader reads, the scan passes: a value leaves the stack of
    brackets as it was, with a token more in the innermost one. *)
Lemma scan_parse n :
  (forall br s v r, parse_value br n s = Some (v, r) ->
     forall k m st, length s <= k -> length r <= m ->
     foreign_from k st false s =
     foreign_from m (touch st) (match v with VStr _ => true | _ => false end) r) /\
  (forall s vs r, parse_elems n s = Some (vs, r) ->
     forall k m st, length s <= k -> length r <= m ->
     foreign_from k (Square :: st) false s = foreign_from m st false r) /\
  (forall s kvs r, parse_entries n s = Some (kvs, r) ->
     forall k m st, length s <= k -> length r <= m ->
     foreign_from k (Brace false false :: st) false s = foreign_from m st false r).
Proof.
  induction n as [|n (IHv & IHe & IHd)].
  - repeat split; intros; discriminate.
  - repeat split.
    + intros br s v r H k m st Hk Hm. cbn [parse_value] in H.
      pose proof (skip_ws_length br s) as Hs.
      rewrite (@scan_skip_ws br s k k st false Hk) by lia.
      destruct (skip_ws br s) as [|c t]; [discriminate|]. cbn [length] in Hs.
      destruct k as [|k]; [lia|].
      destruct (Ascii.eqb c "[") eqn:E1.
      { apply Ascii.eqb_eq in E1. subst c.
        destruct (parse_elems n t) as [[vs r']|] eqn:E; [|discriminate].
        injection H as <- <-. rewrite scan_open_square.
        apply (IHe _ _ _ E); lia. }
      destruct (Ascii.eqb c "{") eqn:E2.
      { apply Ascii.eqb_eq in E2. subst c.
        destruct (parse_entries n t) as [[kvs r']|] eqn:E; [|discriminate].
        destruct (mk_dict kvs) as [d|] eqn:Ed; [|discriminate].
        injection H as <- <-. rewrite scan_open_brace.
        unfold mk_dict in Ed. destruct (forallb _ _); [|discriminate].
        injection Ed as <-. apply (IHd _ _ _ E); lia. }
      destruct (Ascii.eqb c c_squote || Ascii.eqb c c_dquote) eqn:E3.
      { destruct (parse_str_body c t) as [[str r']|] eqn:E; [|discriminate].
        injection H as <- <-. rewrite (@scan_quote k st false c t E3).
        rewrite (str_end_closed _ _ E). cbn [orb].
        apply parse_str_body_consumes in E. apply foreign_from_fuel; lia. }
      assert (Hsign : forall z,
                Ascii.eqb c "+" || Ascii.eqb c "-" = true ->
                match parse_nat (skip_ws br t) with
                | Some (j, r') => Some (VInt (z j), r')
                | None => None
                end = Some (v, r) ->
                foreign_from (S k) st false (c :: t) =
                foreign_from m (touch st)
                  (match v with VStr _ => true | _ => false end) r).
      { intros z Hc Hp. rewrite (@scan_sign k st false c t Hc).
        pose proof (skip_ws_length br t) as Ht.
        rewrite (@scan_skip_ws br t k k (touch st) false) by lia.
        destruct (parse_nat (skip_ws br t)) as [[j r']|] eqn:E; [|discriminate].
        injection Hp as <- <-.
        rewrite (@scan_nat _ _ _ k m (touch st) false E) by lia.
        now rewrite touch_touch. }
      destruct (Ascii.eqb c "-") eqn:E4.
      { apply (Hsign (fun j => (- Z.of_N j)%Z)); [now rewrite orb_true_r|exact H]. }
      destruct (Ascii.eqb c "+") eqn:E5.
      { apply (Hsign (fun j => Z.of_N j)); [reflexivity|exact H]. }
      destruct (parse_nat (c :: t)) as [[j r']|] eqn:E; [|discriminate].
      injection H as <- <-.
      apply (@scan_nat _ _ _ (S k) m st false E); cbn [length]; lia.
    + intros s vs r H k m st Hk Hm. cbn [parse_elems] in H.
      pose proof (skip_ws_length true s) as Hs.
      rewrite (@scan_skip_ws true s k k (Square :: st) false Hk) by lia.
      destruct (skip_ws true s) as [|c t]; [discriminate|]. cbn [length] in Hs.
      destruct (Ascii.eqb c "]") eqn:E1.
      { apply Ascii.eqb_eq in E1. subst c. injection H as <- <-.
        destruct k as [|k]; [lia|]. rewrite scan_close_square.
        apply foreign_from_fuel; lia. }
      destruct (parse_value true n (c :: t)) as [[v r1]|] eqn:E; [|discriminate].
      pose proof (proj1 (parse_consumes n) _ _ _ _ E) as Hc1.
      cbn [length] in Hc1.
      rewrite (IHv _ _ _ _ E k k (Square :: st)) by (cbn [length]; lia).
      cbn [touch].
      pose proof (skip_ws_length true r1) as Hs1.
      rewrite (@scan_skip_ws true r1 k k (Square :: st) _) by lia.
      destruct (skip_ws true r1) as [|c1 r2]; [discriminate|]. cbn [length] in *.
      destruct k as [|k]; [lia|].
      destruct (Ascii.eqb c1 ",") eqn:E2.
      { apply Ascii.eqb_eq in E2. subst c1.
        destruct (parse_elems n r2) as [[vs' r3]|] eqn:E'; [|discriminate].
        injection H as <- <-. rewrite scan_comma_square.
        apply (IHe _ _ _ E'); lia. }
      destruct (Ascii.eqb c1 "]") eqn:E3; [|discriminate].
      apply Ascii.eqb_eq in E3. subst c1. injection H as <- <-.
      rewrite scan_close_square. apply foreign_from_fuel; lia.
    + intros s kvs r H k m st Hk Hm. cbn [parse_entries] in H.
      pose proof (skip_ws_length true s) as Hs.
      rewrite (@scan_skip_ws true s k k (Brace false false :: st) false Hk) by lia.
      destruct (skip_ws true s) as [|c t]; [discriminate|]. cbn [length] in Hs.
      destruct (Ascii.eqb c "}") eqn:E1.
      { apply Ascii.eqb_eq in E1. subst c. injection H as <- <-.
        destruct k as [|k]; [lia|]. rewrite (scan_close_brace k st false t false).
        apply foreign_from_fuel; lia. }
      destruct (parse_value true n (c :: t)) as [[key r1]|] eqn:E; [|discriminate].
      pose proof (proj1 (parse_consumes n) _ _ _ _ E) as Hc1.
      cbn [length] in Hc1.
      rewrite (IHv _ _ _ _ E k k (Brace false false :: st))
        by (cbn [length]; lia).
      cbn [touch].
      pose proof (skip_ws_length true r1) as Hs1.
      rewrite (@scan_skip_ws true r1 k k (Brace true false :: st) _) by lia.
      destruct (skip_ws true r1) as [|c1 r2]; [discriminate|]. cbn [length] in *.
      destruct k as [|k]; [lia|].
      destruct (Ascii.eqb c1 ":") eqn:E2; [|discriminate].
      apply Ascii.eqb_eq in E2. subst c1. rewrite scan_colon.
      destruct (parse_value true n r2) as [[v r3]|] eqn:E'; [|discriminate].
      pose proof (proj1 (parse_consumes n) _ _ _ _ E') as Hc2.
      rewrite (IHv _ _ _ _ E' k k (Brace true true :: st)) by lia. cbn [touch].
      pose proof (skip_ws_length true r3) as Hs3.
      rewrite (@scan_skip_ws true r3 k k (Brace true true :: st) _) by lia.
      destruct (skip_ws true r3) as [|c2 r4]; [discriminate|]. cbn [length] in *.
      destruct k as [|k]; [lia|].
      destruct (Ascii.eqb c2 ",") eqn:E3.
      { apply Ascii.eqb_eq in E3. subst c2.
        destruct (parse_entries n r4) as [[kvs' r5]|] eqn:E''; [|discriminate].
        injection H as <- <-. rewrite scan_comma_brace.
        apply (IHd _ _ _ E''); lia. }
      destruct (Ascii.eqb c2 "}") eqn:E4; [|discriminate].
      apply Ascii.eqb_eq in E4. subst c2. injection H as <- <-.
      rewrite (scan_close_brace k st _ r4 true). apply foreign_from_fuel; lia.
Qed.

Lemma scan_lstrip_blanks s : forall n m st a,
  length s <= n -> length (lstrip_blanks s) <= m ->
  foreign_from n st a s = foreign_from m st a (lstrip_blanks s).
Proof.
  induction s as [|c r IH]; intros n m st a Hn Hm.
  - now apply foreign_from_fuel.
  - cbn [lstrip_blanks] in *.
    destruct (Ascii.eqb c " " || Ascii.eqb c c_tab) eqn:E.
    + destruct n as [|n]; [cbn [length] in Hn; lia|]. cbn [length] in Hn.
      rewrite scan_blank; [apply IH; lia|].
      unfold is_space. apply orb_true_iff in E as [-> | ->];
        now rewrite ?orb_true_r.
    + now apply foreign_from_fuel.
Qed.

Lemma scan_leading s : forall col0 s' n m st a,
  leading col0 s = Some s' ->
  length s <= n -> length s' <= m ->
  foreign_from n st a s = foreign_from m st a s'.
Proof.
  induction s as [|c r IH]; intros col0 s' n m st a; cbn [leading];
    [discriminate|].
  assert (Hb : forall col,
            is_space c || is_newline c = true ->
            leading col r = Some s' ->
            length (c :: r) <= n -> length s' <= m ->
            foreign_from n st a (c :: r) = foreign_from m st a s').
  { intros col Hc H Hn Hm.
    destruct n as [|n]; [cbn [length] in Hn; lia|]. cbn [length] in Hn.
    rewrite scan_blank by exact Hc. apply (IH col); [exact H|lia|lia]. }
  destruct (Ascii.eqb c " " || Ascii.eqb c c_tab) eqn:E1.
  { apply Hb. unfold is_space. apply orb_true_iff in E1 as [-> | ->];
      now rewrite ?orb_true_r. }
  destruct (Ascii.eqb c (ascii_of_N 12)) eqn:E2.
  { apply Hb. unfold is_space. rewrite E2. now rewrite !orb_true_r. }
  destruct (is_newline c) eqn:E3.
  { apply Hb. now rewrite orb_true_r. }
  destruct col0; [|discriminate]. intros [= <-] Hn Hm.
  now apply foreign_from_fuel.
Qed.

Lemma scan_trailing s : forall same_line col0 n a,
  trailing same_line col0 s = true -> foreign_from n [] a s = false.
Proof.
  induction s as [|c r IH]; intros same_line col0 n a; cbn [trailing].
  - now destruct n.
  - destruct n as [|n]; [reflexivity|].
    assert (Hb : forall sl col,
              is_space c || is_newline c = true ->
              trailing sl col r = true ->
              foreign_from (S n) [] a (c :: r) = false).
    { intros sl col Hc H. rewrite scan_blank by exact Hc. now apply (IH sl col). }
    destruct (Ascii.eqb c " " || Ascii.eqb c c_tab) eqn:E1.
    { apply Hb. unfold is_space. apply orb_true_iff in E1 as [-> | ->];
        now rewrite ?orb_true_r. }
    destruct (Ascii.eqb c (ascii_of_N 12)) eqn:E2.
    { apply Hb. unfold is_space. rewrite E2. now rewrite !orb_true_r. }
    destruct (is_newline c) eqn:E3; [|discriminate].
    apply Hb. now rewrite orb_true_r.
Qed.

(** A text that is read is not foreign: the three outcomes (a value, an
    error, a text outside the fragment) exclude one another. *)
Theorem literal_eval_not_foreign text v :
  literal_eval text = Some v -> foreign text = false.
Proof.
  unfold literal_eval, foreign.
  destruct (leading true (lstrip_blanks text)) as [s|] eqn:El; [|discriminate].
  destruct (parse_value false _ s) as [[v' r]|] eqn:Ep; [|discriminate].
  destruct (trailing true false r) eqn:Et; [|discriminate]. intros _.
  pose proof (lstrip_blanks_length text) as H1.
  pose proof (leading_length _ _ El) as H2.
  pose proof (proj1 (parse_consumes _) _ _ _ _ Ep) as H3.
  rewrite (@scan_lstrip_blanks text (length text) (length text) [] false)
    by lia.
  rewrite (@scan_leading _ _ _ (length text) (length text) [] false El)
    by lia.
  rewrite (proj1 (scan_parse _) _ _ _ _ Ep (length text) (length text) [])
    by lia.
  exact (@scan_trailing r true false _ _ Et).
Qed.

(** Texts that are not read: sets, tuples, floats and comments are outside
    the fragment; a truncated file is inside it, and an error. *)
Lemma foreign_examples :
  map (fun t => (literal_eval t, foreign t))
    [py:"{'1': [1, 2"; py:"{'1': [1 2]}"; py:"{1, 2}"; py:"1, 2";
     py:"{'1': [1.5]}"; py:"{'1': [1]} # marks"; py:"{'1': (1, 2)}"]
  = [(None, false); (None, false); (None, true); (None, true);
     (None, true); (None, true); (None, true)].
Proof. vm_compute. reflexivity. Qed.

Lemma as_ints_map zs : as_ints (map VInt zs) = Some zs.
Proof. induction zs as [|z zs IH]; simpl; [|rewrite IH]; reflexivity. Qed.

Lemma as_ints_some l zs : as_ints l = Some zs -> l = map VInt zs.
Proof.
  revert zs. induction l as [|v l IH]; intros zs; simpl.
  - intros [= <-]. reflexivity.
  - destruct v; try discriminate.
    destruct (as_ints l) as [zs'|]; [|discriminate].
    intros [= <-]. simpl. f_equal. now apply IH.
Qed.

Lemma insert_sorted_perm x l : Permutation (x :: l) (insert_sorted x l).
Proof.
  induction l as [|y l IH]; simpl; [reflexivity|].
  destruct (x <=? y)%Z; [reflexivity|].
  rewrite perm_swap. now constructor.
Qed.

Lemma sorted_ints_perm l : Permutation l (sorted_ints l).
Proof.
  induction l as [|x l IH]; simpl; [constructor|].
  rewrite <- insert_sorted_perm. now constructor.
Qed.

Lemma insert_sorted_sorted x l :
  Sorted Z.le l -> Sorted Z.le (insert_sorted x l).
Proof.
  induction 1 as [|y l Hs IH Hhd]; simpl.
  - repeat constructor.
  - destruct (x <=? y)%Z eqn:E.
    + apply Z.leb_le in E. repeat constructor; assumption.
    + apply Z.leb_gt in E. constructor; [exact IH|].
      destruct l as [|z l]; simpl.
      * constructor. lia.
      * inversion Hhd; subst. destruct (x <=? z)%Z; constructor; lia.
Qed.

Lemma sorted_ints_sorted l : Sorted Z.le (sorted_ints l).
Proof.
  induction l as [|x l IH]; simpl; [constructor|].
  now apply insert_sorted_sorted.
Qed.

(** Sorting an ascending list changes nothing. *)
Lemma sorted_ints_id l : Sorted Z.le l -> sorted_ints l = l.
Proof.
  induction 1 as [|x l Hs IH Hhd]; simpl; [reflexivity|].
  rewrite IH. destruct Hhd as [|y l Hxy]; simpl; [reflexivity|].
  apply Z.leb_le in Hxy. now rewrite Hxy.
Qed.

Lemma sorted_ints_idem l : sorted_ints (sorted_ints l) = sorted_ints l.
Proof. apply sorted_ints_id, sorted_ints_sorted. Qed.

(** [==] on dicts and on lists, unfolded. *)
Lemma py_eqb_dict xs ys :
  py_eqb (VDict xs) (VDict ys) =
  (length xs =? length ys)%nat &&
  forallb (fun kx => match dict_get (fst kx) ys with
                     | Some y => py_eqb (snd kx) y
                     | None => false
                     end) xs.
Proof.
  cbn [py_eqb]. f_equal.
  induction xs as [|[k x] xs IH]; [reflexivity|].
  cbn [forallb fst snd]. now rewrite IH.
Qed.

Lemma py_eqb_int_list x zs :
  py_eqb x (VList (map VInt zs)) = true -> x = VList (map VInt zs).
Proof.
  destruct x as [| |xs|]; try discriminate. cbn [py_eqb]. intros H. f_equal.
  revert zs H. induction xs as [|x xs IH]; intros [|z zs] H; cbn [map] in *;
    try discriminate; [reflexivity|].
  apply andb_true_iff in H as [Hx Hxs].
  destruct x; try discriminate. cbn [py_eqb] in Hx. apply Z.eqb_eq in Hx.
  subst. f_equal. now apply IH.
Qed.

Lemma dict_get_in {V} k (d : list (PyValue * V)) v :
  dict_get k d = Some v -> exists k', In (k', v) d.
Proof.
  induction d as [|[k' v'] d IH]; [discriminate|]. cbn [dict_get].
  destruct (key_eqb k' k).
  - intros [= <-]. exists k'. now left.
  - intros H. destruct (IH H) as (k'' & Hin). exists k''. now right.
Qed.

End PyLitFacts.

(** ** [os.path] *)
Module OsPathFacts.

Import OsPath.

Lemma rfind_from_spec c s : forall i last,
  (rfind_from c s i last = last /\ ~ In c s) \/
  (exists a b, s = a ++ c :: b /\ ~ In c b /\
               rfind_from c s i last = (i + Z.of_nat (length a))%Z).
Proof.
  induction s as [|x r IH]; intros i last; cbn [rfind_from].
  - left. split; [reflexivity|intros []].
  - destruct (IH (i + 1)%Z (if Ascii.eqb x c then i else last))
      as [[E Hn]|(a & b & -> & Hb & E)].
    + destruct (Ascii.eqb x c) eqn:Ex.
      * apply Ascii.eqb_eq in Ex. subst x. right. exists [], r.
        repeat split; [exact Hn|]. rewrite E. cbn [length]. lia.
      * left. split; [exact E|]. intros [->|Hin]; [|now apply Hn].
        now rewrite Ascii.eqb_refl in Ex.
    + right. exists (x :: a), b. repeat split; [exact Hb|].
      rewrite E. cbn [length]. lia.
Qed.

Lemma rfind_spec c s :
  (rfind c s = (-1)%Z /\ ~ In c s) \/
  (exists a b, s = a ++ c :: b /\ ~ In c b /\
               rfind c s = Z.of_nat (length a)).
Proof.
  unfold rfind. destruct (rfind_from_spec c s 0 (-1)) as [H|(a & b & H1 & H2 & H3)].
  - now left.
  - right. exists a, b. repeat split; [exact H1|exact H2|]. rewrite H3. lia.
Qed.




End OsPathFacts.

(** ** The matcher finds exactly the language *)
Module RegexFacts.

Import Regex.









End RegexFacts.

(** ** Rounding *)
Module PyFloatFacts.

Import PyFloat.

(** [round_div a b] is within one half of [a / b] ... *)
Lemma round_div_near a b :
  (0 < b -> - b <= 2 * (round_div a b * b - a) <= b)%Z.
Proof.
  intros Hb. unfold round_div.
  pose proof (Z.div_mod a b ltac:(lia)) as Hdm.
  pose proof (Z.mod_pos_bound a b Hb) as Hm.
  destruct (2 * (a mod b) <? b)%Z eqn:E1; [apply Z.ltb_lt in E1; nia|].
  apply Z.ltb_ge in E1.
  destruct (b <? 2 * (a mod b))%Z eqn:E2; [apply Z.ltb_lt in E2; nia|].
  apply Z.ltb_ge in E2.
  destruct (Z.even (a / b)); nia.
Qed.

(** ... and an integer strictly within one half of [a / b] is it. *)
Lemma round_div_unique a b z :
  (0 < b -> - b < 2 * (z * b - a) < b -> round_div a b = z)%Z.
Proof.
  intros Hb Hz. pose proof (round_div_near a Hb) as Hr.
  assert (- (2 * b) < 2 * ((round_div a b - z) * b) < 2 * b)%Z by nia.
  assert (-1 < round_div a b - z < 1)%Z by nia. lia.
Qed.

Lemma round_div_exact z b : (0 < b)%Z -> round_div (z * b) b = z.
Proof. intros Hb. apply round_div_unique; [exact Hb|]. lia. Qed.

(** [nearest_even m e] is an integer nearest to [m * 2^e]. *)
Lemma nearest_even_near m e :
  (e < 0 ->
   - 2 ^ (- e) <= 2 * (nearest_even m e * 2 ^ (- e) - m) <= 2 ^ (- e))%Z.
Proof.
  intros He. unfold nearest_even.
  replace (0 <=? e)%Z with false by (symmetry; apply Z.leb_gt; exact He).
  apply round_div_near. apply Z.pow_pos_nonneg; lia.
Qed.

End PyFloatFacts.

(** ** The main window *)
Module GuiFacts.

Import PyLit PyLitFacts EventManager Gui.

(** *** Slider, timer, key gate and frame box *)

(** C3: releasing the slider at value [s] computes the target frame as
    [round(s * VIDEO_FPS_ORIGINAL / 1000)] and calls [jump_to_frame] with it,
    after clearing the pressed flag; the configured playback rate plays no
    part in it. *)
Theorem slider_released_jumps cfg w v target :
  PyFloat.float_of_int (time_slider_value w) = Some v ->
  PyFloat.py_round (v * VIDEO_FPS_ORIGINAL cfg / 1000)%float = Some target ->
  slider_released cfg w =
    Returned (call (JumpToFrame target) (set_is_slider_pressed false w)) /\
  forall playback_fps,
    slider_released {| PLAYBACK_FPS := playback_fps;
                       VIDEO_FPS_ORIGINAL := VIDEO_FPS_ORIGINAL cfg |} w =
    slider_released cfg w.
Proof.
  intros Hv Hr. split.
  - unfold slider_released. cbn [time_slider_value set_is_slider_pressed].
    rewrite Hv, Hr. reflexivity.
  - intros fps. reflexivity.
Qed.

Lemma slider_released_jumps_witness :
  slider_released default_config
    (set_time_slider_value 1000 (init py:"/data/events")) =
  Returned (call (JumpToFrame 120)
              (set_is_slider_pressed false
                 (set_time_slider_value 1000 (init py:"/data/events")))).
Proof.
  refine (proj1 (@slider_released_jumps default_config
                   (set_time_slider_value 1000 (init py:"/data/events"))
                   1000%float 120%Z _ _)); reflexivity.
Defined.




(** C10: however the text of the frame box reads (an integer, nothing, or
    something [int] rejects) and however [jump_to_frame] ends, the method
    leaves frame editing: the flag is false, the box hidden and the label
    shown. A text that [int] rejects is reported and the method returns,
    having called nothing but [setFocus]; an empty text resumes playback;
    an integer is passed to [jump_to_frame]. *)
Theorem jump_to_frame_from_input_exits_editing jump_raises w :
  let w' := state_of (jump_to_frame_from_input jump_raises w) in
  (frame_editing w' = false /\
   frame_input_visible w' = false /\
   frame_label_visible w' = true) /\
  (frame_input_text w <> [] -> PyInt.py_int (frame_input_text w) = None ->
   jump_to_frame_from_input jump_raises w = Returned w' /\
   console w' = console w ++ [InvalidFrameNumber] /\
   calls w' = calls w ++ [FocusWindow]) /\
  (frame_input_text w = [] ->
   jump_to_frame_from_input jump_raises w = Returned w' /\
   calls w' = calls w ++ [MediaPlay; FocusWindow]) /\
  (forall n,
     frame_input_text w <> [] -> PyInt.py_int (frame_input_text w) = Some n ->
     calls w' = calls w ++ [JumpToFrame n; FocusWindow]).
Proof.
  unfold jump_to_frame_from_input. split; [|split; [|split]].
  - destruct (frame_input_text w) as [|c r]; [repeat split|].
    destruct (PyInt.py_int (c :: r)) as [fr|]; [|repeat split].
    destruct (jump_raises fr); repeat split.
  - intros Hne Hp. rewrite Hp.
    destruct (frame_input_text w) as [|c r]; [congruence|]. repeat split.
  - intros ->. cbn. split; [reflexivity|]. now rewrite <- app_assoc.
  - intros n Hne Hp. rewrite Hp.
    destruct (frame_input_text w) as [|c r]; [congruence|].
    destruct (jump_raises n); cbn; now rewrite <- app_assoc.
Qed.

Section Files.

Variable sorted_other : PyValue -> option (list PyValue).
Variable load_foreign : pystr -> FS -> VideoPlayer -> VideoPlayer.
Variable same_foreign : pystr -> FS -> list (PyValue * list PyValue) -> bool.

Lemma sorted_items_ints izs :
  sorted_items sorted_other (int_items izs) = Some (int_markers (sort_each izs)).
Proof.
  induction izs as [|[k zs] izs IH]; [reflexivity|].
  cbn [int_items map sorted_items fst snd py_sorted].
  rewrite as_ints_map. fold (int_items izs). rewrite IH. reflexivity.
Qed.

Lemma int_items_keys izs : map fst (int_items izs) = map fst izs.
Proof. unfold int_items. rewrite map_map. reflexivity. Qed.

Lemma int_markers_keys izs : map fst (int_markers izs) = map fst izs.
Proof. unfold int_markers. rewrite map_map. reflexivity. Qed.

Lemma sort_each_keys izs : map fst (sort_each izs) = map fst izs.
Proof. unfold sort_each. rewrite map_map. reflexivity. Qed.

Lemma markers_dict_int izs : markers_dict (int_markers izs) = VDict (int_items izs).
Proof. unfold markers_dict, int_markers, int_items. now rewrite map_map. Qed.

(** The keys of a dict that [literal_eval] returned are distinct and
    hashable. *)
Lemma wf_dict_keys items :
  wf_value (VDict items) ->
  NoDup (map fst items) /\ Forall (fun kv => hashable (fst kv) = true) items.
Proof.
  intros H. inversion H as [| | |? Hn Hf]; subst. split; [exact Hn|].
  eapply Forall_impl; [|exact Hf]. now intros ? [? _].
Qed.

Lemma read_event_file_ints ft file_name w fs text izs :
  read_file ft file_name fs = Text text ->
  literal_eval text = Some (VDict (int_items izs)) ->
  _read_event_file sorted_other load_foreign ft file_name w fs =
  print (LoadedEvents file_name)
    (set_save_status true
       (call MarkersWidgetUpdate
          (set_event_manager (fresh_log (int_markers (sort_each izs))) w))).
Proof.
  intros Hr He. unfold _read_event_file. rewrite Hr, He, sorted_items_ints.
  apply literal_eval_wf, wf_dict_keys in He as [Hn Hh].
  rewrite int_items_keys in Hn.
  assert (Hh' : Forall (fun kv : PyValue * list PyValue => hashable (fst kv) = true)
                  (int_markers (sort_each izs))).
  { apply Forall_forall. intros kl Hin.
    apply (in_map fst) in Hin. rewrite int_markers_keys, sort_each_keys in Hin.
    rewrite <- int_items_keys in Hin. apply in_map_iff in Hin as (kv & E & Hin).
    rewrite Forall_forall in Hh. rewrite <- E. now apply Hh. }
  assert (Hn' : NoDup (map fst (int_markers (sort_each izs))))
    by now rewrite int_markers_keys, sort_each_keys.
  cbn [event_manager set_event_manager clear markers undo_stack redo_stack].
  unfold dict_of_pairs.
  rewrite (dict_update_fresh [] (int_markers (sort_each izs)) Hh' Hn').
  cbn [app].
  rewrite (dict_update_fresh [] (int_markers (sort_each izs)) Hh' Hn').
  reflexivity.
Qed.

(** C7: when the file can be read and its text evaluates to a mapping from
    keys to lists of ints, [_read_event_file] leaves exactly that mapping as
    [markers], each list sorted ascending (the same frames, in ascending
    order), with empty undo and redo stacks, whatever the log held before. *)
Theorem read_event_file_replaces ft file_name w fs text izs :
  read_file ft file_name fs = Text text ->
  literal_eval text = Some (VDict (int_items izs)) ->
  let w' := _read_event_file sorted_other load_foreign ft file_name w fs in
  event_manager w' = fresh_log (int_markers (sort_each izs)) /\
  map fst (markers (event_manager w')) = map fst izs /\
  Forall (fun kz => Sorted Z.le (snd kz)) (sort_each izs) /\
  Forall2 (fun kz kz' => fst kz' = fst kz /\ Permutation (snd kz) (snd kz'))
          izs (sort_each izs) /\
  save_status w' = true.
Proof.
  intros Hr He w'. subst w'. rewrite (@read_event_file_ints ft file_name w fs text izs Hr He).
  cbn [event_manager print set_save_status call set_event_manager save_status
       fresh_log markers].
  repeat split.
  - now rewrite int_markers_keys, sort_each_keys.
  - apply Forall_forall. intros [k zs] Hin.
    apply in_map_iff in Hin as ([k' zs'] & [= <- <-] & _).
    apply sorted_ints_sorted.
  - clear. induction izs as [|[k zs] izs IH]; constructor; [|exact IH].
    split; [reflexivity|apply sorted_ints_perm].
Qed.

(** *** Saving, then loading *)

Lemma sort_each_id izs :
  Forall (fun kz => Sorted Z.le (snd kz)) izs -> sort_each izs = izs.
Proof.
  induction 1 as [|[k zs] izs Hs _ IH]; [reflexivity|].
  cbn [sort_each map fst snd] in *. rewrite (sorted_ints_id Hs).
  fold (sort_each izs). now rewrite IH.
Qed.

Lemma log_wf_ints m :
  log_wf m ->
  exists izs, m = int_markers izs /\
              Forall (fun kz => Sorted Z.le (snd kz)) izs.
Proof.
  intros [_ Hf]. induction Hf as [|[k l] m [_ (zs & E & Hs)] _ (izs & Em & Hi)].
  - exists []. split; [reflexivity|constructor].
  - cbn [snd] in E. subst l m.
    exists ((k, zs) :: izs). split; [reflexivity|]. now constructor.
Qed.

Lemma log_wf_sorted izs :
  NoDup (map fst izs) ->
  Forall (fun kz => hashable (fst kz) = true) izs ->
  log_wf (int_markers (sort_each izs)).
Proof.
  intros Hn Hh. split.
  - now rewrite int_markers_keys, sort_each_keys.
  - apply Forall_forall. intros kl Hin.
    apply in_map_iff in Hin as (kz & <- & Hin).
    apply in_map_iff in Hin as ([k zs] & <- & Hin). cbn [fst snd].
    rewrite Forall_forall in Hh. split; [exact (Hh _ Hin)|].
    exists (sorted_ints zs). split; [reflexivity|apply sorted_ints_sorted].
Qed.

Lemma log_wf_value m : log_wf m -> wf_value (markers_dict m).
Proof.
  intros [Hn Hf]. unfold markers_dict. constructor.
  - now rewrite map_map.
  - apply Forall_forall. intros kv Hin.
    apply in_map_iff in Hin as ([k l] & <- & Hin). cbn [fst snd].
    rewrite Forall_forall in Hf. destruct (Hf _ Hin) as [Hh (zs & E & _)].
    cbn [fst snd] in *. split; [exact Hh|]. constructor.
    subst l. apply Forall_forall. intros v Hv.
    apply in_map_iff in Hv as (z & <- & _). constructor.
Qed.

Lemma fs_get_set p text fs : fs_get p (fs_set p text fs) = Some text.
Proof. unfold fs_set. cbn [fs_get]. now rewrite pystr_eqb_refl. Qed.

(** On ASCII text UTF-8 is the text itself, and a text without carriage
    returns is read as it is. *)
Lemma utf8_encode_ascii s : forallb is_ascii s = true -> utf8_encode s = s.
Proof.
  induction s as [|c s IH]; [reflexivity|]. cbn [forallb utf8_encode flat_map].
  intros H. apply andb_true_iff in H as [Hc Hs].
  unfold utf8_char. unfold is_ascii in Hc. rewrite Hc. cbn [app].
  f_equal. exact (IH Hs).
Qed.

Lemma universal_newlines_id s : ~ In c_cr s -> universal_newlines s = s.
Proof.
  induction s as [|c s IH]; [reflexivity|]. intros H. cbn [universal_newlines].
  destruct (Ascii.eqb c c_cr) eqn:E.
  - apply Ascii.eqb_eq in E. subst c. destruct H. now left.
  - f_equal. apply IH. intros Hin. apply H. now right.
Qed.

Lemma event_text_no_cr m : ~ In c_cr (event_text m).
Proof.
  intros Hin. pose proof (py_repr_printable (markers_dict m)) as Hp.
  rewrite Forall_forall in Hp. specialize (Hp _ Hin). discriminate Hp.
Qed.

Lemma fs_get_write p text fs :
  fs_get p (write_file p text fs) = Some (utf8_encode text).
Proof. apply fs_get_set. Qed.

(** So an event file written in ASCII is read back as the text that was
    written. *)
Lemma read_written p m fs :
  forallb is_ascii (event_text m) = true ->
  read_file no_faults p (write_file p (event_text m) fs) = Text (event_text m).
Proof.
  intros Ha. unfold read_file, write_file. cbn [read_fails no_faults].
  rewrite fs_get_set, (utf8_encode_ascii _ Ha), Ha.
  now rewrite (@universal_newlines_id _ (@event_text_no_cr m)).
Qed.

(** Loading a file that holds [str(dict(m))] for a well-formed [m]. *)
Lemma read_event_text ft file_name w fs m :
  log_wf m ->
  read_file ft file_name fs = Text (event_text m) ->
  _read_event_file sorted_other load_foreign ft file_name w fs =
  print (LoadedEvents file_name)
    (set_save_status true
       (call MarkersWidgetUpdate (set_event_manager (fresh_log m) w))).
Proof.
  intros Hwf Hr. destruct (log_wf_ints Hwf) as (izs & -> & Hs).
  assert (He : literal_eval (event_text (int_markers izs)) =
               Some (VDict (int_items izs))).
  { unfold event_text. rewrite literal_eval_repr by now apply log_wf_value.
    now rewrite markers_dict_int. }
  rewrite (@read_event_file_ints ft file_name w fs _ izs Hr He).
  now rewrite (sort_each_id Hs).
Qed.

Lemma save_event_past_guards ft w fs fn :
  guards_pass w fn ->
  save_event same_foreign ft w fs =
  if makedirs_fails ft then (save_failed w, fs)
  else
    let file_path := event_file_path (evt_save_path w) fn in
    if existing_same same_foreign ft file_path (markers (event_manager w)) fs
    then
      (clear_history
         (set_save_status true (print (EventsUnchanged file_path) w)), fs)
    else if open_write_fails ft then (save_failed w, fs)
    else if write_fails ft then (save_failed w, fs_set file_path [] fs)
    else
      let fs' :=
        write_file file_path (event_text (markers (event_manager w))) fs in
      let w1 := clear_history
                  (set_save_status true (print (SavedEvents file_path) w)) in
      if viewer_fails ft then (save_failed w1, fs')
      else (call (OpenViewer file_path) w1, fs').
Proof.
  intros (Ha & Hf & Hn & Hs). unfold save_event. rewrite Ha, Hf, Hs.
  destruct fn; [congruence|]. reflexivity.
Qed.

Lemma save_event_as_writes chosen w fs :
  any_marker (markers (event_manager w)) = true ->
  (exists fn, fname w = Some fn /\ fn <> []) ->
  chosen <> [] ->
  save_event_as no_faults chosen w fs =
  (set_save_status true
     (set_evt_save_path (OsPath.dirname chosen) (print (SavedEvents chosen) w)),
   write_file chosen (event_text (markers (event_manager w))) fs).
Proof.
  intros Ha (fn & Hf & Hn) Hc. unfold save_event_as. rewrite Ha, Hf.
  destruct fn; [congruence|]. destruct chosen; [congruence|]. reflexivity.
Qed.

(** A dict equal ([==]) to the dict of a well-formed log is itself a
    mapping to ascending lists of ints. *)
Lemma py_eqb_markers_dict items m :
  log_wf m ->
  py_eqb (VDict items) (markers_dict m) = true ->
  exists izs, items = int_items izs /\
              Forall (fun kz => Sorted Z.le (snd kz)) izs.
Proof.
  intros [_ Hf] H. unfold markers_dict in H. rewrite py_eqb_dict in H.
  apply andb_true_iff in H as [_ H]. rewrite forallb_forall in H.
  induction items as [|[k x] items IH].
  - exists []. split; [reflexivity|constructor].
  - destruct IH as (izs & -> & Hs); [intros kx Hin; apply H; now right|].
    specialize (H (k, x) (or_introl eq_refl)). cbn [fst snd] in H.
    destruct (dict_get k _) as [y|] eqn:Eg; [|discriminate].
    apply dict_get_in in Eg as (k' & Hin).
    apply in_map_iff in Hin as ([k'' l] & [= <- <-] & Hin).
    rewrite Forall_forall in Hf. destruct (Hf _ Hin) as [_ (zs & El & Hzs)].
    cbn [snd] in El. subst l. apply py_eqb_int_list in H. subst x.
    exists ((k, zs) :: izs). split; [reflexivity|]. now constructor.
Qed.

(** C1, as the code has it: for a log with distinct keys and ascending
    lists of ints, the text [str(dict(markers))] that a save writes is read
    back by [_read_event_file] as exactly that mapping, with the history
    reset, and writing the mapping so read gives the same text byte for
    byte. This holds through [save_event_as] and through [save_event] when
    it writes the file, for a text of ASCII characters: a save writes UTF-8
    and a load reads with the default encoding of the platform, which agree
    there. When [save_event] finds a file with equal content and writes
    nothing, loading that file (its text being of the fragment that is
    read here) gives a mapping equal ([==]) to the log's. (A file in
    another layout is not preserved: see [read_then_write_changes_text].) *)
Theorem event_file_round_trip m :
  log_wf m ->
  (forall ft file_name w fs,
     read_file ft file_name fs = Text (event_text m) ->
     let w' := _read_event_file sorted_other load_foreign ft file_name w fs in
     event_manager w' = fresh_log m /\
     event_text (markers (event_manager w')) = event_text m) /\
  (forall chosen w fs,
     markers (event_manager w) = m ->
     forallb is_ascii (event_text m) = true ->
     any_marker m = true ->
     (exists fn, fname w = Some fn /\ fn <> []) ->
     chosen <> [] ->
     let saved := save_event_as no_faults chosen w fs in
     let w2 := _read_event_file sorted_other load_foreign no_faults chosen
                 (fst saved) (snd saved) in
     let saved_again := save_event_as no_faults chosen w2 (snd saved) in
     fs_get chosen (snd saved) = Some (event_text m) /\
     event_manager w2 = fresh_log m /\
     fs_get chosen (snd saved_again) = fs_get chosen (snd saved)) /\
  (forall w fs fn,
     markers (event_manager w) = m ->
     forallb is_ascii (event_text m) = true ->
     guards_pass w fn ->
     existing_same same_foreign no_faults
       (event_file_path (evt_save_path w) fn) m fs = false ->
     let saved := save_event same_foreign no_faults w fs in
     let file_path := event_file_path (evt_save_path w) fn in
     fs_get file_path (snd saved) = Some (event_text m) /\
     event_manager
       (_read_event_file sorted_other load_foreign no_faults file_path
          (fst saved) (snd saved))
     = fresh_log m) /\
  (forall w fs fn,
     markers (event_manager w) = m ->
     guards_pass w fn ->
     existing_same same_foreign no_faults
       (event_file_path (evt_save_path w) fn) m fs = true ->
     (exists text,
        read_file no_faults (event_file_path (evt_save_path w) fn) fs
        = Text text /\ foreign text = false) ->
     let saved := save_event same_foreign no_faults w fs in
     let file_path := event_file_path (evt_save_path w) fn in
     let w2 := _read_event_file sorted_other load_foreign no_faults file_path
                 (fst saved) (snd saved) in
     snd saved = fs /\
     py_eqb (markers_dict (markers (event_manager w2))) (markers_dict m) = true /\
     log_wf (markers (event_manager w2)) /\
     undo_stack (event_manager w2) = [] /\ redo_stack (event_manager w2) = []).
Proof.
  intros Hwf. split; [|split; [|split]].
  - intros ft file_name w fs Hr w'. subst w'.
    rewrite (@read_event_text ft file_name w fs m Hwf Hr). split; reflexivity.
  - intros chosen w fs Hm Hascii Ha Hf Hc saved w2 saved_again.
    subst saved_again w2 saved.
    rewrite save_event_as_writes by (rewrite ?Hm; assumption).
    cbn [fst snd]. rewrite Hm, fs_get_write, (utf8_encode_ascii _ Hascii).
    rewrite (@read_event_text no_faults chosen _ _ m Hwf)
      by now apply read_written.
    repeat split.
    rewrite save_event_as_writes; [|assumption|exact Hf|exact Hc].
    cbn [snd event_manager print set_save_status call set_event_manager
         fresh_log markers].
    now rewrite fs_get_write, (utf8_encode_ascii _ Hascii).
  - intros w fs fn Hm Hascii Hg Hx saved file_path. subst saved file_path.
    rewrite (@save_event_past_guards no_faults w fs fn Hg), Hm.
    cbn [makedirs_fails open_write_fails write_fails viewer_fails no_faults].
    cbv zeta. rewrite Hx. cbn [fst snd].
    rewrite fs_get_write, (utf8_encode_ascii _ Hascii). split; [reflexivity|].
    rewrite (@read_event_text no_faults _ _ _ m Hwf)
      by now apply read_written.
    reflexivity.
  - intros w fs fn Hm Hg Hx (text & Hr & Hnf) saved file_path w2.
    subst w2 saved file_path.
    rewrite (@save_event_past_guards no_faults w fs fn Hg), Hm.
    cbn [makedirs_fails no_faults]. cbv zeta. rewrite Hx. cbn [fst snd].
    split; [reflexivity|].
    unfold existing_same in Hx. rewrite Hr in Hx.
    destruct (fs_get _ fs) as [b|] eqn:Eg; [|discriminate].
    destruct (literal_eval text) as [existing|] eqn:El;
      [|now rewrite Hnf in Hx].
    assert (Hd : exists items, existing = VDict items).
    { destruct existing; try discriminate Hx. eauto. }
    destruct Hd as (items & ->).
    destruct (py_eqb_markers_dict _ Hwf Hx) as (izs & -> & Hs).
    rewrite (@read_event_file_ints no_faults _ _ fs text izs Hr El).
    cbn [event_manager print set_save_status call set_event_manager
         fresh_log markers undo_stack redo_stack].
    rewrite (sort_each_id Hs), markers_dict_int. repeat split; try exact Hx.
    + rewrite int_markers_keys. apply literal_eval_wf, wf_dict_keys in El.
      destruct El as [Hn _]. now rewrite int_items_keys in Hn.
    + apply literal_eval_wf, wf_dict_keys in El as [_ Hh].
      apply Forall_forall. intros kl Hin.
      apply in_map_iff in Hin as ([k zs] & <- & Hin). cbn [fst snd].
      rewrite Forall_forall in Hh, Hs. split.
      * apply (Hh (k, VList (map VInt zs))).
        apply in_map_iff. exists (k, zs). auto.
      * exists zs. split; [reflexivity|]. exact (Hs _ Hin).
Qed.

(** C9, as the code has it: once past its three guards, a [save_event]
    in which no step raises (whether it writes the file or finds a file
    with equal content and writes nothing) leaves both stacks empty and the
    markers as they were; nothing else of the log changes, and when the
    content was equal the disk is untouched. (Before the guards it returns
    with the history as it was: see [save_event_guard_keeps_history].) *)
Theorem save_event_clears_history ft w fs fn :
  guards_pass w fn ->
  makedirs_fails ft = false ->
  existing_same same_foreign ft (event_file_path (evt_save_path w) fn)
    (markers (event_manager w)) fs = true \/
  (open_write_fails ft = false /\ write_fails ft = false /\
   viewer_fails ft = false) ->
  let saved := save_event same_foreign ft w fs in
  event_manager (fst saved) = fresh_log (markers (event_manager w)) /\
  save_status (fst saved) = true /\
  (existing_same same_foreign ft (event_file_path (evt_save_path w) fn)
     (markers (event_manager w)) fs = true -> snd saved = fs).
Proof.
  intros Hg Hmk Hok saved. subst saved.
  rewrite (@save_event_past_guards ft w fs fn Hg), Hmk. cbv zeta.
  destruct (existing_same same_foreign ft _ _ fs) eqn:Ex.
  - repeat split.
  - destruct Hok as [Hok|(Ho & Hw & Hv)]; [discriminate|].
    rewrite Ho, Hw, Hv. repeat split. discriminate.
Qed.


(** What happens to the log when the text evaluates to something that is
    not a mapping: the error comes after [clear()], so the log is emptied. *)
Lemma read_non_mapping_clears_log ft file_name w fs text data :
  read_file ft file_name fs = Text text ->
  literal_eval text = Some data ->
  (forall items, data <> VDict items) ->
  let w' := _read_event_file sorted_other load_foreign ft file_name w fs in
  event_manager w' = EventManager.empty /\
  console w' = console w ++ [ErrorLoading].
Proof.
  intros Hr He Hd w'. subst w'. unfold _read_event_file. rewrite Hr, He.
  destruct data; try (split; reflexivity). now destruct (Hd kvs).
Qed.

Lemma fs_get_set_other p q text fs :
  fs_get p (fs_set q text fs) <> fs_get p fs -> p = q.
Proof.
  unfold fs_set. cbn [fs_get]. destruct (pystr_eqb q p) eqn:E; [|congruence].
  intros _. symmetry. now apply pystr_eqb_eq.
Qed.


End Files.

Lemma example_markers_wf : log_wf example_markers.
Proof.
  split.
  - repeat constructor; simpl; intuition discriminate.
  - repeat constructor; cbn [snd].
    + exists [120; 340]%Z. split; [reflexivity|]. repeat constructor. lia.
    + exists [200]%Z. split; [reflexivity|]. repeat constructor.
Qed.

Lemma example_guards : guards_pass example_window video_path.
Proof. repeat split. discriminate. Qed.

Lemma event_file_round_trip_witness :
  event_manager
    (_read_event_file sorted_raises foreign_kept no_faults events_dir_file
       (fst (save_event foreign_differs no_faults example_window []))
       (snd (save_event foreign_differs no_faults example_window [])))
  = fresh_log example_markers.
Proof.
  exact (proj2 (proj1 (proj2 (proj2 (@event_file_round_trip sorted_raises
                                       foreign_kept foreign_differs
                                       example_markers example_markers_wf)))
                 example_window [] video_path eq_refl eq_refl example_guards
                 eq_refl)).
Defined.

(** C1, counterexample: a file whose list is not ascending is read, and
    the mapping written back with [save_event_as]; the text on disk is no
    longer the text that was read. *)
Lemma read_then_write_changes_text :
  let text := py:"{'1': [2, 1]}" in
  let fs0 := [(events_dir_file, text)] in
  let w1 := _read_event_file sorted_raises foreign_kept no_faults
              events_dir_file example_window fs0 in
  let fs2 := snd (save_event_as no_faults events_dir_file w1 fs0) in
  literal_eval text = Some (VDict [(key1, VList [VInt 2; VInt 1])]) /\
  markers (event_manager w1) = [(key1, [VInt 1; VInt 2])] /\
  fs_get events_dir_file fs2 = Some py:"{'1': [1, 2]}" /\
  fs_get events_dir_file fs2 <> fs_get events_dir_file fs0.
Proof. vm_compute. repeat split. discriminate. Qed.

(** The same with a file that differs from the canonical text by its
    spacing and quoting only. *)
Lemma read_then_write_changes_spacing :
  let text := "{'1':[1,2]}"%string in
  let fs0 := [(events_dir_file, py:text)] in
  let w1 := _read_event_file sorted_raises foreign_kept no_faults
              events_dir_file example_window fs0 in
  let fs2 := snd (save_event_as no_faults events_dir_file w1 fs0) in
  option_map string_of_list_ascii (fs_get events_dir_file fs2)
    = Some "{'1': [1, 2]}"%string.
Proof. vm_compute. reflexivity. Qed.



(** A file holding a list, not a mapping: loading it reports an error and
    leaves the log empty. *)
Lemma read_list_clears_log :
  let w' := _read_event_file sorted_raises foreign_kept no_faults
              events_dir_file example_window
              [(events_dir_file, py:"[1, 2]")] in
  event_manager w' = EventManager.empty /\ console w' = [ErrorLoading].
Proof. vm_compute. split; reflexivity. Qed.

Lemma read_event_file_replaces_witness :
  event_manager
    (_read_event_file sorted_raises foreign_kept no_faults events_dir_file
       example_window [(events_dir_file, py:"{'1': [3, 1, 2], '2': []}")])
  = fresh_log [(key1, [VInt 1; VInt 2; VInt 3]); (key2, [])].
Proof.
  exact (proj1 (@read_event_file_replaces sorted_raises foreign_kept no_faults
                  events_dir_file example_window
                  [(events_dir_file, py:"{'1': [3, 1, 2], '2': []}")]
                  py:"{'1': [3, 1, 2], '2': []}"
                  [(key1, [3; 1; 2]%Z); (key2, [])] eq_refl eq_refl)).
Defined.

(** C9, counterexample: the only mark was removed again, so [save_event]
    returns at its first guard, without an exception and with the two
    operations still on the undo stack. *)
Lemma save_event_guard_keeps_history :
  let saved := save_event foreign_differs no_faults unmarked_window [] in
  console (fst saved) = [NothingToSave] /\
  length (undo_stack (event_manager (fst saved))) = 2 /\
  undo_stack (event_manager (fst saved)) <> [].
Proof. vm_compute. repeat split. discriminate. Qed.

Lemma save_event_clears_history_witness :
  event_manager (fst (save_event foreign_differs no_faults example_window []))
    = fresh_log example_markers /\
  event_manager
    (fst (save_event foreign_differs no_faults example_window
            [(events_dir_file, py:"{'2': [200], '1': [120, 340]}")]))
    = fresh_log example_markers.
Proof.
  split.
  - exact (proj1 (@save_event_clears_history foreign_differs no_faults
                    example_window [] video_path example_guards eq_refl
                    (or_intror (conj eq_refl (conj eq_refl eq_refl))))).
  - exact (proj1 (@save_event_clears_history foreign_differs no_faults
                    example_window
                    [(events_dir_file, py:"{'2': [200], '1': [120, 340]}")]
                    video_path example_guards eq_refl (or_introl eq_refl))).
Defined.


(** A key with a letter of Latin-1 is written raw by [repr], in two bytes
    of UTF-8; what the default encoding makes of them is not told. *)
Lemma latin1_key_beyond :
  let key := VStr [ascii_of_N 233] in
  let fs := write_file events_dir_file (event_text [(key, [VInt 1])]) [] in
  fs_get events_dir_file fs =
    Some (py:"{'" ++ [ascii_of_N 195; ascii_of_N 169] ++ py:"': [1]}") /\
  read_file no_faults events_dir_file fs = Beyond.
Proof. vm_compute. split; reflexivity. Qed.

(** The pattern is searched in the whole path: a match in a directory name
    gives the name of the event file. *)
Lemma derived_id_from_directory :
  derived_id py:"/data/20250101-Pici-TS-1/cam2.mp4" = py:"20250101-Pici-TS-1" /\
  derived_id py:"/data/cam2.session.mp4" = py:"cam2.session".
Proof. split; vm_compute; reflexivity. Qed.

End GuiFacts.

(** ** Rounding to a float: the mantissa that [binary_round_aux] keeps *)
Module FloatRounding.

Open Scope Z_scope.

Lemma digits2_pos_bounds p :
  2 ^ (Zpos (digits2_pos p) - 1) <= Zpos p < 2 ^ Zpos (digits2_pos p).
Proof.
  induction p as [p IH|p IH|]; cbn [digits2_pos].
  - rewrite Pos2Z.inj_succ.
    replace (Z.succ (Zpos (digits2_pos p)) - 1) with (Zpos (digits2_pos p))
      by lia.
    rewrite Z.pow_succ_r by lia.
    assert (H : 2 ^ Zpos (digits2_pos p) =
                2 * 2 ^ (Zpos (digits2_pos p) - 1)).
    { rewrite <- Z.pow_succ_r by lia. f_equal. lia. }
    lia.
  - rewrite Pos2Z.inj_succ.
    replace (Z.succ (Zpos (digits2_pos p)) - 1) with (Zpos (digits2_pos p))
      by lia.
    rewrite Z.pow_succ_r by lia.
    assert (H : 2 ^ Zpos (digits2_pos p) =
                2 * 2 ^ (Zpos (digits2_pos p) - 1)).
    { rewrite <- Z.pow_succ_r by lia. f_equal. lia. }
    lia.
  - cbn. lia.
Qed.

Lemma digits2_pos_unique p d :
  2 ^ (d - 1) <= Zpos p < 2 ^ d -> Zpos (digits2_pos p) = d.
Proof.
  intros [Hl Hu]. pose proof (digits2_pos_bounds p) as [Bl Bu].
  set (k := Zpos (digits2_pos p)) in *.
  assert (0 < d).
  { destruct (Z_lt_le_dec 0 d) as [H|H]; [exact H|].
    assert (2 ^ d <= 2 ^ 0) by (destruct (Z_lt_le_dec d 0);
      [rewrite Z.pow_neg_r by lia; cbn; lia|apply Z.pow_le_mono_r; lia]).
    cbn in *. lia. }
  destruct (Z_lt_le_dec k d) as [H1|H1].
  - assert (2 ^ k <= 2 ^ (d - 1)) by (apply Z.pow_le_mono_r; lia). lia.
  - destruct (Z_lt_le_dec d k) as [H2|H2]; [|lia].
    assert (2 ^ d <= 2 ^ (k - 1)) by (apply Z.pow_le_mono_r; lia). lia.
Qed.

Lemma shr_1_m r : 0 <= shr_m r -> shr_m (shr_1 r) = shr_m r / 2.
Proof.
  destruct r as [m b s]. cbn [shr_m shr_1]. intros H.
  destruct m as [|[p|p|]|p]; cbn [shr_m]; try reflexivity.
  - apply Z.div_unique with 1; lia.
  - apply Z.div_unique with 0; lia.
  - lia.
Qed.

Lemma iter_shr_m p : forall r,
  0 <= shr_m r ->
  shr_m (iter_pos shr_1 p r) = shr_m r / 2 ^ Zpos p.
Proof.
  assert (Hnn : forall r, 0 <= shr_m r -> 0 <= shr_m (shr_1 r)).
  { intros r H. rewrite shr_1_m by exact H. apply Z.div_pos; lia. }
  induction p as [p IH|p IH|]; intros r H; cbn [iter_pos].
  - assert (H1 := Hnn r H).
    assert (H2 : 0 <= shr_m (iter_pos shr_1 p (shr_1 r))).
    { rewrite IH by exact H1. apply Z.div_pos; [exact H1|].
      apply Z.pow_pos_nonneg; lia. }
    assert (E : 2 ^ Zpos p~1 = 2 * (2 ^ Zpos p * 2 ^ Zpos p)).
    { replace (Zpos p~1) with (1 + (Zpos p + Zpos p)) by lia.
      rewrite !Z.pow_add_r by lia. reflexivity. }
    assert (Hp : 0 < 2 ^ Zpos p) by (apply Z.pow_pos_nonneg; lia).
    rewrite IH by exact H2. rewrite IH by exact H1. rewrite shr_1_m by exact H.
    rewrite E, !Z.div_div by lia. reflexivity.
  - assert (H2 : 0 <= shr_m (iter_pos shr_1 p r)).
    { rewrite IH by exact H. apply Z.div_pos; [exact H|].
      apply Z.pow_pos_nonneg; lia. }
    assert (E : 2 ^ Zpos p~0 = 2 ^ Zpos p * 2 ^ Zpos p).
    { replace (Zpos p~0) with (Zpos p + Zpos p) by lia.
      rewrite !Z.pow_add_r by lia. reflexivity. }
    assert (Hp : 0 < 2 ^ Zpos p) by (apply Z.pow_pos_nonneg; lia).
    rewrite IH by exact H2. rewrite IH by exact H.
    rewrite E, !Z.div_div by lia. reflexivity.
  - rewrite shr_1_m by exact H. reflexivity.
Qed.

Lemma shr_m_of_loc m l : shr_m (shr_record_of_loc m l) = m.
Proof. destruct l as [|[]]; reflexivity. Qed.

Lemma round_nearest_even_cases m l :
  round_nearest_even m l = m \/ round_nearest_even m l = m + 1.
Proof.
  destruct l as [|[]]; cbn [round_nearest_even]; auto.
  destruct (Z.even m); auto.
Qed.

Lemma fexp_normal k : -1074 <= k - 53 -> fexp prec emax k = k - 53.
Proof. unfold fexp, SpecFloat.emin, prec, emax. lia. Qed.

(** The first shift of [binary_round_aux]: a mantissa of at least 53 bits
    is cut down to 53. *)
Lemma shr_fexp_cut m e l :
  let d := Zpos (digits2_pos m) in
  53 <= d -> -1074 <= d + e - 53 ->
  let r := shr_fexp prec emax (Zpos m) e l in
  shr_m (fst r) = Zpos m / 2 ^ (d - 53) /\ snd r = d + e - 53.
Proof.
  intros d Hd He r. subst r. unfold shr_fexp. cbn [Zdigits2]. fold d.
  rewrite fexp_normal by lia.
  replace (d + e - 53 - e) with (d - 53) by lia.
  destruct (d - 53) as [|n|n] eqn:En; try lia; cbn [shr fst snd].
  - rewrite shr_m_of_loc, Z.pow_0_r, Z.div_1_r. split; [reflexivity|lia].
  - rewrite iter_shr_m by (rewrite shr_m_of_loc; lia).
    rewrite shr_m_of_loc. split; [reflexivity|lia].
Qed.

Lemma cut_53 m :
  let d := Zpos (digits2_pos m) in
  53 <= d -> 2 ^ 52 <= Zpos m / 2 ^ (d - 53) < 2 ^ 53.
Proof.
  intros d Hd. pose proof (digits2_pos_bounds m) as [Bl Bu]. fold d in Bl, Bu.
  assert (Hp : 0 < 2 ^ (d - 53)) by (apply Z.pow_pos_nonneg; lia).
  assert (E1 : 2 ^ (d - 1) = 2 ^ 52 * 2 ^ (d - 53)).
  { rewrite <- Z.pow_add_r by lia. f_equal. lia. }
  assert (E2 : 2 ^ d = 2 ^ 53 * 2 ^ (d - 53)).
  { rewrite <- Z.pow_add_r by lia. f_equal. lia. }
  split.
  - apply Z.div_le_lower_bound; [exact Hp|]. lia.
  - apply Z.div_lt_upper_bound; [exact Hp|]. lia.
Qed.

(** The second shift: a rounded mantissa of 53 bits stays, and 2^53 becomes
    2^52 one exponent up. *)
Lemma shr_fexp_again m1 e :
  2 ^ 52 <= m1 <= 2 ^ 53 -> -1074 <= e ->
  let r := shr_fexp prec emax m1 e loc_Exact in
  (m1 < 2 ^ 53 /\ shr_m (fst r) = m1 /\ snd r = e) \/
  (m1 = 2 ^ 53 /\ shr_m (fst r) = 2 ^ 52 /\ snd r = e + 1).
Proof.
  intros Hm He r. subst r. unfold shr_fexp.
  destruct m1 as [|p|p]; try (cbn in Hm; lia). cbn [Zdigits2].
  destruct (Z_lt_le_dec (Zpos p) (2 ^ 53)) as [Hlt|Hge].
  - left. rewrite (@digits2_pos_unique p 53) by (cbn in *; lia).
    rewrite fexp_normal by lia.
    replace (53 + e - 53 - e) with 0 by lia. cbn [shr fst snd shr_m
      shr_record_of_loc]. auto.
  - right. assert (E : Zpos p = 2 ^ 53) by lia.
    rewrite (@digits2_pos_unique p 54) by (cbn in *; lia).
    rewrite fexp_normal by lia.
    replace (54 + e - 53 - e) with 1 by lia.
    injection E as ->. cbn. repeat split; lia.
Qed.

(** [binary_round_aux] on a mantissa of at least 53 bits, within the range
    of the normal numbers: the result is finite, with a mantissa of 53
    bits, and it is the cut mantissa or the next one. *)
Lemma binary_round_aux_faithful s m e l :
  let d := Zpos (digits2_pos m) in
  53 <= d -> -1074 <= d + e - 53 -> d + e - 52 <= 971 ->
  let m' := Zpos m / 2 ^ (d - 53) in
  let e' := d + e - 53 in
  exists m2 e2,
    binary_round_aux prec emax s (Zpos m) e l = S754_finite s m2 e2 /\
    Zpos (digits2_pos m2) = 53 /\
    ((e2 = e' /\ (Zpos m2 = m' \/ Zpos m2 = m' + 1)) \/
     (e2 = e' + 1 /\ Zpos m2 = 2 ^ 52 /\ m' + 1 = 2 ^ 53)).
Proof.
  intros d Hd Hlo Hhi m' e'.
  destruct (@shr_fexp_cut m e l Hd Hlo) as [Hm He].
  pose proof (@cut_53 m Hd) as Hc. fold d in Hm, He, Hc. fold m' in Hm, Hc.
  unfold binary_round_aux.
  destruct (shr_fexp prec emax (Zpos m) e l) as [mrs e1].
  cbn [fst snd] in Hm, He. subst e1. fold e'.
  set (m1 := round_nearest_even (shr_m mrs) (loc_of_shr_record mrs)).
  assert (Hm1 : m1 = m' \/ m1 = m' + 1).
  { subst m1. rewrite <- Hm. apply round_nearest_even_cases. }
  assert (Hr : 2 ^ 52 <= m1 <= 2 ^ 53) by lia.
  destruct (@shr_fexp_again m1 e' Hr ltac:(unfold e'; lia))
    as [(Hlt & Hs & Hx)|(Heq & Hs & Hx)];
    destruct (shr_fexp prec emax m1 e' loc_Exact) as [mrs2 e2];
    cbn [fst snd] in Hs, Hx; subst e2; rewrite Hs.
  - destruct m1 as [|p|p]; try (cbn in Hr; lia).
    replace (e' <=? emax - prec) with true
      by (symmetry; apply Z.leb_le; unfold emax, prec, e'; lia).
    exists p, e'. split; [reflexivity|]. split.
    + apply digits2_pos_unique. cbn in *. lia.
    + left. split; [reflexivity|exact Hm1].
  - change (2 ^ 52) with (Zpos (2 ^ 52)%positive).
    replace (e' + 1 <=? emax - prec) with true
      by (symmetry; apply Z.leb_le; unfold emax, prec, e'; lia).
    exists (2 ^ 52)%positive, (e' + 1). split; [reflexivity|]. split.
    + reflexivity.
    + right. repeat split. lia.
Qed.

End FloatRounding.

(** ** The value of a rounded float *)
Module FloatValueFacts.

Import Reals Lra.
Import FloatRounding FloatValue.
Open Scope R_scope.

Lemma bpow_pos e : 0 < powerRZ 2 e.
Proof. apply powerRZ_lt. lra. Qed.

Lemma bpow_add a b : powerRZ 2 (a + b) = powerRZ 2 a * powerRZ 2 b.
Proof. apply powerRZ_add. lra. Qed.

Lemma bpow_IZR n : (0 <= n)%Z -> powerRZ 2 n = IZR (2 ^ n).
Proof.
  intros H. destruct n as [|p|p]; [reflexivity| |lia].
  unfold powerRZ. rewrite pow_IZR, positive_nat_Z. reflexivity.
Qed.

Lemma bpow_le a b : (a <= b)%Z -> powerRZ 2 a <= powerRZ 2 b.
Proof.
  intros H. assert (E : b = (a + (b - a))%Z) by lia.
  set (k := (b - a)%Z) in *. assert (Hk : (0 <= k)%Z) by lia.
  rewrite E, bpow_add, (@bpow_IZR k Hk).
  assert (1 <= IZR (2 ^ k)).
  { apply IZR_le. assert (0 < 2 ^ k)%Z by (apply Z.pow_pos_nonneg; lia).
    lia. }
  pose proof (bpow_pos a). nra.
Qed.

Lemma u_pos : 0 < u.
Proof. apply bpow_pos. Qed.

Lemma u_value : u = / IZR (2 ^ 52).
Proof.
  unfold u. change (-52)%Z with (- (52))%Z. rewrite powerRZ_neg'.
  now rewrite (@bpow_IZR 52) by lia.
Qed.

Lemma fval_pos m e : 0 < fval m e.
Proof.
  unfold fval. apply Rmult_lt_0_compat; [|apply bpow_pos].
  apply IZR_lt. lia.
Qed.

(** A real number between two neighbours [M * 2^E] and [(M + 1) * 2^E] is
    rounded by [binary_round_aux] with a relative error of at most [u]. *)
Lemma binary_round_aux_near s M E l x :
  let d := Zpos (digits2_pos M) in
  (53 <= d)%Z -> (-1074 <= d + E - 53)%Z -> (d + E - 52 <= 971)%Z ->
  IZR (Zpos M) * powerRZ 2 E <= x < IZR (Zpos M + 1) * powerRZ 2 E ->
  exists m2 e2,
    binary_round_aux prec emax s (Zpos M) E l = S754_finite s m2 e2 /\
    Zpos (digits2_pos m2) = 53%Z /\
    (d + E - 53 <= e2 <= d + E - 52)%Z /\
    x - x * u <= fval m2 e2 <= x + x * u.
Proof.
  intros d Hd Hlo Hhi Hx.
  destruct (@binary_round_aux_faithful s M E l Hd Hlo Hhi)
    as (m2 & e2 & Hr & Hdig & Hcases).
  fold d in Hcases.
  set (m' := (Zpos M / 2 ^ (d - 53))%Z) in *.
  set (e' := (d + E - 53)%Z) in *.
  exists m2, e2. split; [exact Hr|]. split; [exact Hdig|].
  pose proof (@cut_53 M Hd) as Hc. fold d in Hc. fold m' in Hc.
  assert (Hp : (0 < 2 ^ (d - 53))%Z) by (apply Z.pow_pos_nonneg; lia).
  assert (HB : powerRZ 2 e' = powerRZ 2 E * IZR (2 ^ (d - 53))).
  { unfold e'. replace (d + E - 53)%Z with (E + (d - 53))%Z by lia.
    rewrite bpow_add, (@bpow_IZR (d - 53)) by lia. reflexivity. }
  pose proof (bpow_pos E) as HE. pose proof (bpow_pos e') as HB0.
  assert (Hdiv : (m' * 2 ^ (d - 53) <= Zpos M < (m' + 1) * 2 ^ (d - 53))%Z).
  { unfold m'. pose proof (Z.div_mod (Zpos M) (2 ^ (d - 53)) ltac:(lia)).
    pose proof (Z.mod_pos_bound (Zpos M) (2 ^ (d - 53)) Hp). nia. }
  assert (Hlow : IZR m' * powerRZ 2 e' <= x).
  { rewrite HB. apply Rle_trans with (IZR (Zpos M) * powerRZ 2 E);
      [|apply Hx].
    replace (IZR m' * (powerRZ 2 E * IZR (2 ^ (d - 53))))
      with (IZR (m' * 2 ^ (d - 53)) * powerRZ 2 E)
      by (rewrite mult_IZR; ring).
    apply Rmult_le_compat_r; [lra|]. apply IZR_le. lia. }
  assert (Hup : x <= IZR (m' + 1) * powerRZ 2 e').
  { rewrite HB. apply Rle_trans with (IZR (Zpos M + 1) * powerRZ 2 E);
      [lra|].
    replace (IZR (m' + 1) * (powerRZ 2 E * IZR (2 ^ (d - 53))))
      with (IZR ((m' + 1) * 2 ^ (d - 53)) * powerRZ 2 E)
      by (rewrite mult_IZR; ring).
    apply Rmult_le_compat_r; [lra|]. apply IZR_le. lia. }
  assert (Hulp : powerRZ 2 e' <= x * u).
  { rewrite u_value.
    assert (H52 : IZR (2 ^ 52) * powerRZ 2 e' <= x).
    { apply Rle_trans with (IZR m' * powerRZ 2 e'); [|exact Hlow].
      apply Rmult_le_compat_r; [lra|]. apply IZR_le. lia. }
    assert (H0 : 0 < IZR (2 ^ 52)) by (apply IZR_lt; reflexivity).
    apply Rmult_le_reg_l with (IZR (2 ^ 52)); [exact H0|].
    replace (IZR (2 ^ 52) * (x * / IZR (2 ^ 52))) with x
      by (field; lra).
    exact H52. }
  rewrite plus_IZR in Hup.
  assert (Hv : fval m2 e2 = IZR m' * powerRZ 2 e' \/
               fval m2 e2 = IZR m' * powerRZ 2 e' + powerRZ 2 e').
  { unfold fval.
    destruct Hcases as [(-> & [->| ->])|(-> & -> & Hm)].
    - now left.
    - right. rewrite plus_IZR. ring.
    - right. rewrite bpow_add. change (powerRZ 2 1) with (2 * 1).
      assert (Hm' : IZR m' = IZR (2 ^ 53) - 1)
        by (rewrite <- Hm, plus_IZR; ring).
      rewrite Hm'. change (2 ^ 53)%Z with (2 * 2 ^ 52)%Z.
      rewrite mult_IZR. ring. }
  split.
  - destruct Hcases as [(-> & _)|(-> & _)]; unfold e'; lia.
  - destruct Hv as [-> | ->]; lra.
Qed.

End FloatValueFacts.

(** ** The error of a product and of a quotient of floats *)
Module FloatOpsFacts.

Import Reals Lra.
Import FloatRounding FloatValue FloatValueFacts.
Open Scope R_scope.

Lemma normal_bounds x m e :
  normal x m e -> (2 ^ 52 <= Zpos m < 2 ^ 53)%Z.
Proof.
  intros [_ H]. pose proof (digits2_pos_bounds m) as B. rewrite H in B.
  exact B.
Qed.

Lemma digits_between p lo hi :
  (0 <= lo)%Z -> (2 ^ lo <= Zpos p < 2 ^ hi)%Z ->
  (lo + 1 <= Zpos (digits2_pos p) <= hi)%Z.
Proof.
  intros Hlo [Hl Hu]. pose proof (digits2_pos_bounds p) as [Bl Bu].
  set (d := Zpos (digits2_pos p)) in *. split.
  - destruct (Z_lt_le_dec d (lo + 1)) as [H|H]; [|exact H].
    assert (2 ^ d <= 2 ^ lo)%Z by (apply Z.pow_le_mono_r; lia). lia.
  - destruct (Z_lt_le_dec hi d) as [H|H]; [|exact H].
    destruct (Z_lt_le_dec hi 0) as [H0|H0].
    + rewrite (Z.pow_neg_r 2 hi H0) in Hu. lia.
    + assert (2 ^ hi <= 2 ^ (d - 1))%Z by (apply Z.pow_le_mono_r; lia). lia.
Qed.

(** The product of two normal floats, away from overflow and underflow. *)
Lemma mul_near x y mx ex my ey :
  normal x mx ex -> normal y my ey ->
  (-1126 <= ex + ey <= 917)%Z ->
  exists mz ez,
    normal (x * y)%float mz ez /\
    (ex + ey + 52 <= ez <= ex + ey + 54)%Z /\
    let p := fval mx ex * fval my ey in
    p - p * u <= fval mz ez <= p + p * u.
Proof.
  intros Hx Hy He.
  pose proof (normal_bounds Hx) as Bx. pose proof (normal_bounds Hy) as By.
  destruct Hx as [Ex _], Hy as [Ey _].
  assert (Hd : (105 <= Zpos (digits2_pos (mx * my)) <= 106)%Z).
  { apply (@digits_between (mx * my) 104 106); [lia|].
    rewrite Pos2Z.inj_mul.
    change (2 ^ 104)%Z with (2 ^ 52 * 2 ^ 52)%Z.
    change (2 ^ 106)%Z with (2 ^ 53 * 2 ^ 53)%Z. nia. }
  destruct (@binary_round_aux_near false (mx * my) (ex + ey) loc_Exact
              (fval mx ex * fval my ey))
    as (mz & ez & Hr & Hdig & Hez & Hv); try lia.
  - unfold fval. rewrite Pos2Z.inj_mul, plus_IZR, mult_IZR, bpow_add.
    pose proof (bpow_pos ex). pose proof (bpow_pos ey).
    assert (0 < powerRZ 2 ex * powerRZ 2 ey) by nra.
    split; [right; ring|]. nra.
  - exists mz, ez. split; [|split; [lia|exact Hv]]. split; [|exact Hdig].
    rewrite mul_spec, Ex, Ey. exact Hr.
Qed.

Lemma div_core mx ex my ey :
  Zpos (digits2_pos mx) = 53%Z -> Zpos (digits2_pos my) = 53%Z ->
  (-1074 <= ex - ey - 53)%Z ->
  exists l,
    SFdiv_core_binary prec emax (Zpos mx) ex (Zpos my) ey =
    ((Zpos mx * 2 ^ 53 / Zpos my)%Z, (ex - ey - 53)%Z, l).
Proof.
  intros Dx Dy He. unfold SFdiv_core_binary. cbn [Zdigits2].
  rewrite Dx, Dy.
  rewrite (@fexp_normal (53 + ex - (53 + ey))) by lia.
  rewrite Z.min_l by lia.
  replace (ex - ey - (53 + ex - (53 + ey) - 53))%Z with 53%Z by lia.
  rewrite Z.shiftl_mul_pow2 by lia.
  unfold Z.div.
  destruct (Z.div_eucl (Zpos mx * 2 ^ 53) (Zpos my)) as [q r].
  eexists. cbn [fst]. f_equal. f_equal. lia.
Qed.

(** The quotient of two normal floats, away from overflow and underflow. *)
Lemma div_near x y mx ex my ey :
  normal x mx ex -> normal y my ey ->
  (-1021 <= ex - ey <= 970)%Z ->
  exists mz ez,
    normal (x / y)%float mz ez /\
    (ex - ey - 53 <= ez <= ex - ey - 51)%Z /\
    let q := fval mx ex / fval my ey in
    q - q * u <= fval mz ez <= q + q * u.
Proof.
  intros Hx Hy He.
  pose proof (normal_bounds Hx) as Bx. pose proof (normal_bounds Hy) as By.
  destruct Hx as [Ex Dx], Hy as [Ey Dy].
  destruct (@div_core mx ex my ey Dx Dy ltac:(lia)) as (l & Hcore).
  set (q0 := (Zpos mx * 2 ^ 53 / Zpos my)%Z) in *.
  assert (Hdm : (q0 * Zpos my <= Zpos mx * 2 ^ 53 < (q0 + 1) * Zpos my)%Z).
  { unfold q0. pose proof (Z.div_mod (Zpos mx * 2 ^ 53) (Zpos my) ltac:(lia)).
    pose proof (Z.mod_pos_bound (Zpos mx * 2 ^ 53) (Zpos my) ltac:(lia)).
    nia. }
  assert (Hq : (2 ^ 52 <= q0 < 2 ^ 54)%Z).
  { change (2 ^ 54)%Z with (2 * 2 ^ 53)%Z in *. nia. }
  destruct q0 as [|q|q] eqn:Eq; try lia.
  assert (Hd : (53 <= Zpos (digits2_pos q) <= 54)%Z)
    by (apply (@digits_between q 52 54); lia).
  destruct (@binary_round_aux_near false q (ex - ey - 53) l
              (fval mx ex / fval my ey))
    as (mz & ez & Hr & Hdig & Hez & Hv); try lia.
  - unfold fval.
    pose proof (bpow_pos ex) as Px. pose proof (bpow_pos ey) as Py.
    assert (Hmy : 0 < IZR (Zpos my)) by (apply IZR_lt; lia).
    assert (Hex : powerRZ 2 ex =
                  powerRZ 2 (ex - ey - 53) * powerRZ 2 ey * IZR (2 ^ 53)).
    { replace ex with ((ex - ey - 53) + ey + 53)%Z at 1 by lia.
      rewrite !bpow_add, (@bpow_IZR 53) by lia. reflexivity. }
    pose proof (bpow_pos (ex - ey - 53)) as Pe.
    set (B := powerRZ 2 (ex - ey - 53)) in *.
    assert (Hval : IZR (Zpos mx) * powerRZ 2 ex /
                   (IZR (Zpos my) * powerRZ 2 ey) =
                   IZR (Zpos mx * 2 ^ 53) / IZR (Zpos my) * B).
    { rewrite Hex, mult_IZR. field. split; lra. }
    rewrite Hval.
    assert (H1 : IZR (Zpos q) <= IZR (Zpos mx * 2 ^ 53) / IZR (Zpos my)).
    { apply Rmult_le_reg_r with (IZR (Zpos my)); [exact Hmy|].
      replace (IZR (Zpos mx * 2 ^ 53) / IZR (Zpos my) * IZR (Zpos my))
        with (IZR (Zpos mx * 2 ^ 53)) by (field; lra).
      rewrite <- mult_IZR. apply IZR_le. exact (proj1 Hdm). }
    assert (H2 : IZR (Zpos mx * 2 ^ 53) / IZR (Zpos my) < IZR (Zpos q + 1)).
    { apply Rmult_lt_reg_r with (IZR (Zpos my)); [exact Hmy|].
      replace (IZR (Zpos mx * 2 ^ 53) / IZR (Zpos my) * IZR (Zpos my))
        with (IZR (Zpos mx * 2 ^ 53)) by (field; lra).
      rewrite <- mult_IZR. apply IZR_lt. exact (proj2 Hdm). }
    split.
    + apply Rmult_le_compat_r; [lra|exact H1].
    + apply Rmult_lt_compat_r; [exact Pe|exact H2].
  - exists mz, ez. split; [|split; [lia|exact Hv]]. split; [|exact Hdig].
    rewrite div_spec, Ex, Ey. unfold SF64div, SFdiv. rewrite Hcore.
    exact Hr.
Qed.

End FloatOpsFacts.

(** ** [float] of an int and [round] of a float *)
Module FloatConvFacts.

Import Reals Lra.
Import PyFloat PyFloatFacts.
Import FloatRounding FloatValue FloatValueFacts FloatOpsFacts.
Open Scope R_scope.

Lemma bpow_neg e : (e <= 0)%Z -> powerRZ 2 e = / IZR (2 ^ (- e)).
Proof.
  intros H. rewrite <- (Z.opp_involutive e) at 1.
  rewrite powerRZ_neg', (@bpow_IZR (- e)) by lia. reflexivity.
Qed.

Lemma iter_xO_value p k : Zpos (Pos.iter xO p k) = (Zpos p * 2 ^ Zpos k)%Z.
Proof.
  change (Pos.iter xO p k) with (Zpower.shift (Zpos k) p).
  rewrite Zpower.shift_equiv by lia. apply Z.shiftl_mul_pow2. lia.
Qed.

(** An exact mantissa of 53 bits is left as it is. *)
Lemma binary_round_aux_exact s m e :
  Zpos (digits2_pos m) = 53%Z -> (-1074 <= e <= 971)%Z ->
  binary_round_aux prec emax s (Zpos m) e loc_Exact = S754_finite s m e.
Proof.
  intros Hd He.
  assert (Hs : shr_fexp prec emax (Zpos m) e loc_Exact =
               ({| shr_m := Zpos m; shr_r := false; shr_s := false |}, e)).
  { unfold shr_fexp. cbn [Zdigits2]. rewrite Hd.
    rewrite (@fexp_normal (53 + e)) by lia.
    replace (53 + e - 53 - e)%Z with 0%Z by lia. reflexivity. }
  unfold binary_round_aux. rewrite Hs.
  cbn [shr_m loc_of_shr_record round_nearest_even]. rewrite Hs.
  cbn [shr_m].
  replace (e <=? emax - prec)%Z with true
    by (symmetry; apply Z.leb_le; unfold emax, prec; lia).
  reflexivity.
Qed.

Lemma is_infinity_finite x s m e :
  Prim2SF x = S754_finite s m e -> is_infinity x = false.
Proof.
  intros H. unfold is_infinity. rewrite eqb_spec, abs_spec, H. reflexivity.
Qed.

Lemma eqb_zero_normal x m e : normal x m e -> (x =? 0)%float = false.
Proof. intros [H _]. rewrite eqb_spec, H. reflexivity. Qed.

(** [float(z)] is exact for a positive int below [2^53]. *)
Lemma float_of_int_exact z :
  (0 < z < 2 ^ 53)%Z ->
  exists x m e,
    float_of_int z = Some x /\ normal x m e /\ fval m e = IZR z /\
    (-52 <= e <= 0)%Z.
Proof.
  intros Hz. destruct z as [|p|p]; try lia.
  pose proof (digits2_pos_bounds p) as Hb.
  set (d := Zpos (digits2_pos p)) in *.
  assert (Hd : (1 <= d <= 53)%Z).
  { split; [unfold d; lia|].
    destruct (Z_lt_le_dec 53 d) as [H|H]; [|exact H].
    assert (2 ^ 53 <= 2 ^ (d - 1))%Z by (apply Z.pow_le_mono_r; lia). lia. }
  assert (Hal : exists mz,
            shl_align p 0 (fexp prec emax (d + 0)) = (mz, (d - 53)%Z) /\
            Zpos mz = (Zpos p * 2 ^ (53 - d))%Z).
  { replace (d + 0)%Z with d by lia.
    rewrite (@fexp_normal d) by lia. unfold shl_align.
    replace (d - 53 - 0)%Z with (d - 53)%Z by lia.
    destruct (d - 53)%Z as [|k|k] eqn:Ek; try lia.
    - exists p. replace (53 - d)%Z with 0%Z by lia.
      split; [reflexivity|lia].
    - exists (Pos.iter xO p k). split; [reflexivity|].
      rewrite iter_xO_value. f_equal. f_equal. lia. }
  destruct Hal as (mz & Hal & Hmz).
  assert (Hp2 : (2 ^ (d - 1) * 2 ^ (53 - d) = 2 ^ 52)%Z)
    by (rewrite <- Z.pow_add_r by lia; f_equal; lia).
  assert (Hp3 : (2 ^ d * 2 ^ (53 - d) = 2 ^ 53)%Z)
    by (rewrite <- Z.pow_add_r by lia; f_equal; lia).
  assert (Hpp : (0 < 2 ^ (53 - d))%Z) by (apply Z.pow_pos_nonneg; lia).
  assert (Hdz : Zpos (digits2_pos mz) = 53%Z).
  { apply digits2_pos_unique. rewrite Hmz.
    change (53 - 1)%Z with 52%Z. nia. }
  assert (Hsf : binary_normalize prec emax (Zpos p) 0 false =
                S754_finite false mz (d - 53)).
  { unfold binary_normalize, binary_round. fold d.
    replace (d + 0)%Z with d in Hal |- * by lia. rewrite Hal.
    apply binary_round_aux_exact; [exact Hdz|lia]. }
  assert (Hv : valid_binary (S754_finite false mz (d - 53)) = true).
  { unfold SpecFloat.valid_binary, SpecFloat.bounded,
      SpecFloat.canonical_mantissa.
    rewrite Hdz, (@fexp_normal (53 + (d - 53))) by lia.
    apply andb_true_intro. split; [apply Z.eqb_eq; lia|].
    apply Z.leb_le. unfold emax, prec. lia. }
  exists (SF2Prim (S754_finite false mz (d - 53))), mz, (d - 53)%Z.
  assert (Hps : Prim2SF (SF2Prim (S754_finite false mz (d - 53))) =
                S754_finite false mz (d - 53))
    by (apply Prim2SF_SF2Prim; exact Hv).
  repeat split.
  - unfold float_of_int. rewrite Hsf. cbv zeta.
    now rewrite (@is_infinity_finite _ _ _ _ Hps).
  - exact Hps.
  - exact Hdz.
  - unfold fval. rewrite Hmz, mult_IZR.
    rewrite (@bpow_neg (d - 53)) by lia.
    replace (- (d - 53))%Z with (53 - d)%Z by lia.
    field. apply not_0_IZR. lia.
  - lia.
  - lia.
Qed.

(** [round] of a positive float is an integer nearest to it. *)
Lemma py_round_near x m e :
  Prim2SF x = S754_finite false m e ->
  exists z, py_round x = Some z /\ - / 2 <= IZR z - fval m e <= / 2.
Proof.
  intros H. unfold py_round. rewrite H. eexists. split; [reflexivity|].
  unfold nearest_even, fval. destruct (0 <=? e)%Z eqn:E.
  - apply Z.leb_le in E. rewrite (@bpow_IZR e E), <- mult_IZR.
    replace (IZR (Zpos m * 2 ^ e) - IZR (Zpos m * 2 ^ e)) with 0 by ring.
    lra.
  - apply Z.leb_gt in E.
    assert (Hb : (0 < 2 ^ (- e))%Z) by (apply Z.pow_pos_nonneg; lia).
    pose proof (round_div_near (Zpos m) Hb) as Hn.
    set (r := round_div (Zpos m) (2 ^ (- e))) in *.
    rewrite (@bpow_neg e) by lia. fold r.
    set (b := (2 ^ (- e))%Z) in *.
    assert (HbR : 0 < IZR b) by (apply IZR_lt; exact Hb).
    assert (H1 : - IZR b <= 2 * (IZR r * IZR b - IZR (Zpos m)) <= IZR b).
    { rewrite <- mult_IZR, <- minus_IZR, <- (mult_IZR 2), <- opp_IZR.
      split; apply IZR_le; lia. }
    assert (E1 : IZR r - IZR (Zpos m) * / IZR b =
                 (IZR r * IZR b - IZR (Zpos m)) * / IZR b)
      by (field; lra).
    rewrite E1.
    assert (Hinv : 0 < / IZR b) by (apply Rinv_0_lt_compat; exact HbR).
    assert (E2 : IZR b * / IZR b = 1) by (field; lra).
    split; nra.
Qed.

Lemma py_round_unique x m e z :
  Prim2SF x = S754_finite false m e ->
  - / 2 < fval m e - IZR z < / 2 ->
  py_round x = Some z.
Proof.
  intros H Hz. destruct (@py_round_near x m e H) as (z' & -> & Hn).
  f_equal. assert (-1 < IZR z' - IZR z < 1) by lra.
  rewrite <- minus_IZR in H0. destruct H0 as [Hl Hu].
  apply lt_IZR in Hl. apply lt_IZR in Hu. lia.
Qed.

End FloatConvFacts.

(** ** Frame and time conversions *)
Module FrameClockFacts.

Import Reals Lra.
Import PyFloat PyFloatFacts.
Import FloatRounding FloatValue FloatValueFacts FloatOpsFacts FloatConvFacts.
Import FrameClock.
Open Scope R_scope.

Lemma normal_1000 : normal 1000%float 8796093022208000 (-43).
Proof. split; reflexivity. Qed.

Lemma fval_1000 : fval 8796093022208000 (-43) = 1000.
Proof.
  unfold fval. rewrite (@bpow_neg (-43)) by lia.
  change (2 ^ (- -43))%Z with 8796093022208%Z. lra.
Qed.

Lemma compare_cont_le a b :
  Pos.compare_cont Eq a b <> Gt -> (Zpos a <= Zpos b)%Z.
Proof.
  change (Pos.compare_cont Eq a b) with (Pos.compare a b).
  intros H. destruct (Pos.compare_spec a b) as [E|E|E]; try lia. congruence.
Qed.

Lemma normal_0_001 : normal rate_0_001 4611686018427388 (-62).
Proof. split; reflexivity. Qed.

Lemma normal_999_99 : normal rate_999_99 8796005061277778 (-43).
Proof. split; reflexivity. Qed.

(** A rate between a float [lo] with exponent -62 (as 0.001 has it) and a
    float [hi] with exponent -43 (as 999.99 and 1000 have it) is a normal
    number. *)
Lemma rate_between fps lo ml hi mh :
  (lo <=? fps)%float = true -> (fps <=? hi)%float = true ->
  normal lo ml (-62) -> normal hi mh (-43) ->
  exists m e,
    normal fps m e /\ (-62 <= e <= -43)%Z /\
    / 1024 <= fval m e <= fval mh (-43).
Proof.
  intros H1 H2 [El Dl] [Eh Dh]. rewrite leb_spec in H1, H2.
  rewrite El in H1. rewrite Eh in H2.
  pose proof (Prim2SF_valid fps) as Hv.
  remember (Prim2SF fps) as sf eqn:E. symmetry in E.
  destruct sf as [s|s| |s m e].
  1: { cbn in H1. discriminate H1. }
  1: { destruct s; cbn in H1, H2; [discriminate H1|discriminate H2]. }
  1: { cbn in H1. discriminate H1. }
  destruct s; [cbn in H1; discriminate H1|].
  unfold SFleb, SFcompare in H1, H2.
  assert (Hlo : (-62 <= e)%Z).
  { destruct (Z.compare_spec (-62) e) as [He|He|He]; try discriminate H1; lia. }
  assert (Hhi : (e < -43 \/ (e = -43 /\ Zpos m <= Zpos mh))%Z).
  { destruct (Z.compare_spec e (-43)) as [He|He|He]; try discriminate H2.
    - right. split; [lia|]. apply compare_cont_le.
      intros Hc. rewrite Hc in H2. discriminate H2.
    - left. exact He. }
  assert (Hd : Zpos (digits2_pos m) = 53%Z).
  { unfold SpecFloat.valid_binary, SpecFloat.bounded,
      SpecFloat.canonical_mantissa in Hv.
    apply andb_prop in Hv as [Hc _]. apply Z.eqb_eq in Hc.
    unfold fexp, SpecFloat.emin, prec, emax in Hc. lia. }
  pose proof (digits2_pos_bounds m) as Bm. rewrite Hd in Bm.
  pose proof (digits2_pos_bounds mh) as Bh. rewrite Dh in Bh.
  exists m, e. split; [split; [exact E|exact Hd]|]. split; [lia|].
  unfold fval. pose proof (bpow_pos e) as Pe.
  assert (Hm1 : IZR (2 ^ 52) <= IZR (Zpos m)) by (apply IZR_le; lia).
  assert (Hm2 : IZR (Zpos m) <= IZR (2 ^ 53)) by (apply IZR_le; lia).
  assert (Hh1 : IZR (2 ^ 52) <= IZR (Zpos mh)) by (apply IZR_le; lia).
  assert (H52 : 0 < IZR (2 ^ 52)) by (apply IZR_lt; reflexivity).
  assert (E53 : IZR (2 ^ 53) = 2 * IZR (2 ^ 52))
    by (change (2 ^ 53)%Z with (2 * 2 ^ 52)%Z; rewrite mult_IZR; reflexivity).
  split.
  - assert (Hb : powerRZ 2 (-62) <= powerRZ 2 e) by (apply bpow_le; lia).
    rewrite (@bpow_neg (-62)) in Hb by lia.
    change (2 ^ (- -62))%Z with (1024 * 2 ^ 52)%Z in Hb.
    rewrite mult_IZR in Hb.
    assert (Hi : IZR (2 ^ 52) * / (1024 * IZR (2 ^ 52)) = / 1024)
      by (field; lra).
    apply Rle_trans with (IZR (2 ^ 52) * / (1024 * IZR (2 ^ 52))); [lra|].
    apply Rmult_le_compat; try lra.
  - destruct Hhi as [He|[-> Hm]].
    + assert (Hb : powerRZ 2 e <= powerRZ 2 (-44)) by (apply bpow_le; lia).
      assert (E44 : powerRZ 2 (-43) = 2 * powerRZ 2 (-44)).
      { change (-43)%Z with (1 + -44)%Z. rewrite bpow_add.
        change (powerRZ 2 1) with (2 * 1). ring. }
      pose proof (bpow_pos (-44)) as P44. rewrite E44. nra.
    + apply Rmult_le_compat_r; [lra|]. apply IZR_le. exact Hm.
Qed.

Lemma u_numeral : u = / 4503599627370496.
Proof. rewrite u_value. reflexivity. Qed.

Lemma fval_999_99 : fval 8796005061277778 (-43) <= 9999900001 / 10000000.
Proof.
  unfold fval. rewrite (@bpow_neg (-43)) by lia.
  change (2 ^ (- -43))%Z with 8796093022208%Z. lra.
Qed.

(** The error of the round trip, for a rate up to 999.99: the time [T] is
    within a half of the exact time (and the error of the division), and
    the frame computed from it within a half of [f]. *)
Lemma round_trip_error f phi vq T vp vr :
  1 <= f <= 2147483648 -> 0 < phi <= 9999900001 / 10000000 ->
  f * 1000 / phi - f * 1000 / phi * u <= vq
    <= f * 1000 / phi + f * 1000 / phi * u ->
  - / 2 <= T - vq <= / 2 ->
  T * phi - T * phi * u <= vp <= T * phi + T * phi * u ->
  vp / 1000 - vp / 1000 * u <= vr <= vp / 1000 + vp / 1000 * u ->
  - / 2 < vr - f < / 2.
Proof.
  intros Hf Hphi Hq HT Hp Hr. rewrite u_numeral in *.
  set (x := f * 1000 / phi) in *.
  assert (Hx : x * phi = f * 1000) by (unfold x; field; lra).
  assert (H1 : T * phi <= (x + x * / 4503599627370496 + / 2) * phi)
    by (apply Rmult_le_compat_r; lra).
  assert (H2 : (x - x * / 4503599627370496 - / 2) * phi <= T * phi)
    by (apply Rmult_le_compat_r; lra).
  replace ((x + x * / 4503599627370496 + / 2) * phi)
    with (x * phi + x * phi * / 4503599627370496 + phi / 2) in H1
    by (field; lra).
  replace ((x - x * / 4503599627370496 - / 2) * phi)
    with (x * phi - x * phi * / 4503599627370496 - phi / 2) in H2
    by (field; lra).
  rewrite Hx in H1, H2. clear Hq HT Hx. clearbody x.
  set (P := T * phi) in *. clearbody P. lra.
Qed.

(** At 1000 frames per second the time is the frame index itself. *)
Lemma round_trip_error_1000 f vp vr :
  1 <= f <= 2147483648 ->
  f * 1000 - f * 1000 * u <= vp <= f * 1000 + f * 1000 * u ->
  vp / 1000 - vp / 1000 * u <= vr <= vp / 1000 + vp / 1000 * u ->
  - / 2 < vr - f < / 2.
Proof. intros Hf Hp Hr. rewrite u_numeral in *. lra. Qed.

Lemma float_of_int_0 : float_of_int 0 = Some 0%float.
Proof. reflexivity. Qed.

Lemma round_trip_0 fps m e : normal fps m e -> round_trip 0 fps = Some 0%Z.
Proof.
  intros Nf. pose proof (eqb_zero_normal Nf) as Z1. destruct Nf as [Ef _].
  assert (H1 : frame_to_time 0 fps = Some 0%Z).
  { unfold frame_to_time. change (0 * 1000)%Z with 0%Z.
    rewrite float_of_int_0. unfold truediv. rewrite Z1.
    unfold py_round. rewrite div_spec, Ef. reflexivity. }
  unfold round_trip. rewrite H1. unfold time_to_frame.
  rewrite float_of_int_0. unfold py_round. rewrite div_spec, mul_spec, Ef. reflexivity.
Qed.

(** The round trip of a frame index from 1 on. *)
Lemma round_trip_pos fps m e f :
  normal fps m e -> (-62 <= e <= -43)%Z ->
  / 1024 <= fval m e ->
  fval m e <= 9999900001 / 10000000 \/ fval m e = 1000 ->
  (1 <= f < 2 ^ 31)%Z ->
  round_trip f fps = Some f.
Proof.
  intros Nf He Hlo Hhi Hf.
  set (phi := fval m e) in *.
  assert (HF : 1 <= IZR f <= 2147483648) by (split; apply IZR_le; lia).
  assert (Hphi : 0 < phi <= 1000) by (destruct Hhi; lra).
  destruct (@float_of_int_exact (f * 1000) ltac:(lia))
    as (a & ma & ea & Ha & Na & Va & Ea).
  rewrite mult_IZR in Va.
  destruct (@div_near a fps ma ea m e Na Nf ltac:(lia))
    as (mq & eq & Nq & Eq & Vq).
  cbv zeta in Vq. rewrite Va in Vq. fold phi in Vq.
  destruct (@py_round_near (a / fps)%float mq eq (proj1 Nq))
    as (t & Ht & Tn).
  pose proof u_numeral as Hu.
  set (x := IZR f * 1000 / phi) in *.
  assert (Hx : x * phi = IZR f * 1000) by (unfold x; field; lra).
  assert (Hx1 : IZR f <= x).
  { apply Rmult_le_reg_r with phi; [lra|]. rewrite Hx. nra. }
  assert (Hx2 : x <= 1024000 * IZR f).
  { apply Rmult_le_reg_r with phi; [lra|]. rewrite Hx. nra. }
  assert (Ht0 : (0 < t < 9007199254740992)%Z).
  { rewrite Hu in Vq. split; apply lt_IZR; lra. }
  destruct (@float_of_int_exact t ltac:(lia))
    as (b & mb & eb & Hb & Nb & Vb & Eb).
  destruct (@mul_near b fps mb eb m e Nb Nf ltac:(lia))
    as (mp & ep & Np & Ep & Vp).
  cbv zeta in Vp. rewrite Vb in Vp. fold phi in Vp.
  destruct (@div_near (b * fps)%float 1000%float mp ep _ _ Np normal_1000
              ltac:(lia)) as (mr & er & Nr & Er & Vr).
  cbv zeta in Vr. rewrite fval_1000 in Vr.
  unfold round_trip, frame_to_time. rewrite Ha. unfold truediv.
  rewrite (eqb_zero_normal Nf), Ht.
  unfold time_to_frame. rewrite Hb.
  apply (@py_round_unique _ mr er f (proj1 Nr)).
  destruct Hhi as [Hhi|Hhi].
  - apply (@round_trip_error (IZR f) phi (fval mq eq) (IZR t) (fval mp ep)
             (fval mr er)); try assumption. lra.
  - assert (Ex : x = IZR f) by (unfold x; rewrite Hhi; field).
    assert (Et : t = f).
    { rewrite Ex, Hu in Vq.
      assert (Hd : -1 < IZR t - IZR f < 1) by lra.
      rewrite <- minus_IZR in Hd. destruct Hd as [Hl Hr].
      apply lt_IZR in Hl. apply lt_IZR in Hr. lia. }
    rewrite Et, Hhi in Vp.
    apply (@round_trip_error_1000 (IZR f) (fval mp ep) (fval mr er));
      assumption.
Qed.

(** The rates that Python's [0.001 <= fps <= 999.99 or fps == 1000.0]
    lets through. *)
Lemma rate_in_range fps :
  (rate_0_001 <=? fps)%float = true ->
  (fps <=? rate_999_99)%float = true \/ fps = 1000%float ->
  exists m e,
    normal fps m e /\ (-62 <= e <= -43)%Z /\ / 1024 <= fval m e /\
    (fval m e <= 9999900001 / 10000000 \/ fval m e = 1000).
Proof.
  intros Hlo [Hhi| ->].
  - destruct (@rate_between fps _ _ _ _ Hlo Hhi normal_0_001 normal_999_99)
      as (m & e & N & E & V).
    pose proof fval_999_99 as V9.
    exists m, e. split; [exact N|]. split; [exact E|].
    split; [lra|]. left. lra.
  - exists 8796093022208000%positive, (-43)%Z.
    rewrite fval_1000. split; [exact normal_1000|]. split; [lia|].
    split; [lra|]. right. reflexivity.
Qed.

(** C4, as the definitions have it: for a [binary64] frame rate from
    0.001 to 999.99 frames per second, or of 1000 frames per second, and a
    frame index [f] with [0 <= f < 2^31], converting [f] to a time gives an
    int, and converting that time back gives [f]. (Every rate that the
    configuration dialog can hold, 1 to 1000 in steps of 0.01, is among
    these.) *)
Theorem frame_time_round_trip fps f :
  (rate_0_001 <=? fps)%float = true ->
  (fps <=? rate_999_99)%float = true \/ fps = 1000%float ->
  (0 <= f < 2 ^ 31)%Z ->
  exists t, frame_to_time f fps = Some t /\ time_to_frame t fps = Some f.
Proof.
  intros Hlo Hhi Hf.
  destruct (@rate_in_range fps Hlo Hhi) as (m & e & N & E & V1 & V2).
  assert (H : round_trip f fps = Some f).
  { destruct (Z.eq_dec f 0) as [->|Hn].
    - exact (@round_trip_0 fps m e N).
    - apply (@round_trip_pos fps m e f N E V1 V2). lia. }
  unfold round_trip in H.
  destruct (frame_to_time f fps) as [t|]; [|discriminate H].
  exists t. split; [reflexivity|exact H].
Qed.

Lemma frame_time_round_trip_witness :
  exists t, frame_to_time 119 30 = Some t /\ time_to_frame t 30 = Some 119%Z.
Proof.
  apply frame_time_round_trip; [reflexivity|left; reflexivity|lia].
Defined.

(** C4, counterexample: at 3000 frames per second frame 1 lies a third of
    a millisecond in, which rounds to 0 ms, the time of frame 0. *)
Lemma round_trip_fails_above_1000 :
  (0 <? 3000)%float = true /\ (0 <= 1)%Z /\
  frame_to_time 1 3000 = Some 0%Z /\
  time_to_frame 0 3000 = Some 0%Z /\
  round_trip 1 3000 <> Some 1%Z.
Proof. vm_compute. repeat split; discriminate. Qed.

(** Between 999.99 and 1000 frames per second the errors of the float
    operations can add up to more than the half that [round] forgives:
    frame 149999999 comes back as 149999998. *)
Lemma round_trip_fails_below_1000 :
  (rate_999_99 <? 0x1.f3ffffac1d29ep+9)%float = true /\
  (0x1.f3ffffac1d29ep+9 <? 1000)%float = true /\
  frame_to_time 149999999 0x1.f3ffffac1d29ep+9 = Some 150000000%Z /\
  time_to_frame 150000000 0x1.f3ffffac1d29ep+9 = Some 149999998%Z.
Proof. vm_compute. repeat split; reflexivity. Qed.

(** A frame index above [2^53] is not a float: at 30 frames per second
    frame [2^53 + 1] comes back as [2^53 + 2]. *)
Lemma round_trip_fails_large_index :
  round_trip (2 ^ 53 + 1) 30 = Some (2 ^ 53 + 2)%Z.
Proof. vm_compute. reflexivity. Qed.

(** At a rate close to zero the time is too large for a float, and [round]
    raises. *)
Lemma round_trip_fails_tiny_rate :
  (0 <? 0x1p-1074)%float = true /\ frame_to_time 1 0x1p-1074 = None.
Proof. vm_compute. split; reflexivity. Qed.

End FrameClockFacts.

(** ** Saving again, saving elsewhere, and the frame box *)
Module SavingFacts.

Import Digits DigitsFacts PyLit PyLitFacts EventManager Gui GuiFacts.

(** [int] reads back what [str] wrote. *)
Lemma int_body_digits ds : forall prev acc,
  forallb is_digit ds = true ->
  PyInt.int_body prev acc ds =
  match ds with
  | [] => if prev then Some acc else None
  | _ :: _ => Some (horner acc ds)
  end.
Proof.
  induction ds as [|c ds IH]; intros prev acc H; [reflexivity|].
  cbn [forallb] in H. apply andb_true_iff in H as [Hc Hd].
  cbn [PyInt.int_body]. rewrite Hc, (IH true _ Hd).
  destruct ds; reflexivity.
Qed.

Lemma is_digit_not_space c : is_digit c = true -> PyInt.is_py_space c = false.
Proof. ascii_cases c; intros H; try discriminate H; reflexivity. Qed.

Lemma lstrip_head c s :
  PyInt.is_py_space c = false -> PyInt.lstrip (c :: s) = c :: s.
Proof. intros H. cbn [PyInt.lstrip]. now rewrite H. Qed.

Lemma strip_digits pre ds :
  forallb is_digit ds = true -> ds <> [] ->
  (pre = [] \/ pre = ["-"%char]) ->
  PyInt.strip (pre ++ ds) = pre ++ ds.
Proof.
  intros Hd Hn Hp. unfold PyInt.strip.
  assert (H1 : PyInt.lstrip (pre ++ ds) = pre ++ ds).
  { destruct Hp as [-> | ->]; cbn [app].
    - destruct ds as [|c ds]; [congruence|]. cbn [forallb] in Hd.
      apply andb_true_iff in Hd as [Hc _].
      apply lstrip_head, is_digit_not_space, Hc.
    - reflexivity. }
  rewrite H1.
  destruct (exists_last Hn) as (ds' & c & ->).
  rewrite forallb_app in Hd. apply andb_true_iff in Hd as [_ Hc].
  cbn [forallb] in Hc. rewrite andb_true_r in Hc.
  rewrite app_assoc, rev_app_distr. cbn [rev app].
  rewrite (@lstrip_head c _ (@is_digit_not_space c Hc)).
  change (c :: rev (pre ++ ds')) with (rev [c] ++ rev (pre ++ ds')).
  now rewrite <- rev_app_distr, rev_involutive.
Qed.

Lemma py_int_repr_int z : PyInt.py_int (repr_int z) = Some z.
Proof.
  pose proof (N_digits_spec (Z.abs_N z)) as [Hd Hv Hn _].
  assert (Hh : horner 0 (N_digits (Z.abs_N z)) = Z.abs_N z)
    by (rewrite Hv; lia).
  unfold PyInt.py_int, repr_int. destruct (z <? 0)%Z eqn:Ez.
  - change ("-"%char :: N_digits (Z.abs_N z))
      with (["-"%char] ++ N_digits (Z.abs_N z)).
    rewrite (@strip_digits ["-"%char] _ Hd Hn (or_intror eq_refl)).
    cbn [app]. change (Ascii.eqb "-" "-") with true. cbv iota.
    rewrite (@int_body_digits _ false 0%N Hd).
    destruct (N_digits (Z.abs_N z)) as [|c ds] eqn:E; [congruence|].
    rewrite Hh. cbn [option_map]. f_equal. apply Z.ltb_lt in Ez. lia.
  - change (N_digits (Z.abs_N z)) with ([] ++ N_digits (Z.abs_N z)) at 1.
    rewrite (@strip_digits [] _ Hd Hn (or_introl eq_refl)). cbn [app].
    destruct (N_digits (Z.abs_N z)) as [|c ds] eqn:E; [congruence|].
    assert (Hc : is_digit c = true)
      by (cbn [forallb] in Hd; now apply andb_true_iff in Hd as [Hc _]).
    replace (Ascii.eqb c "-") with false
      by (ascii_cases c; try discriminate Hc; reflexivity).
    replace (Ascii.eqb c "+") with false
      by (ascii_cases c; try discriminate Hc; reflexivity).
    rewrite (@int_body_digits _ false 0%N Hd), Hh. cbn [option_map].
    f_equal. apply Z.ltb_ge in Ez. lia.
Qed.

(** X1: the frame box opened with a double click holds the current frame;
    pressing Enter without typing jumps to that very frame, and the window
    is out of editing mode again, whatever the jump does ([int] reads back
    what [str] wrote). *)
Theorem edit_then_enter_jumps_to_current jump_raises current_frame w :
  let w' := state_of (jump_to_frame_from_input jump_raises
                        (enable_frame_edit current_frame w)) in
  calls w' = calls w ++ [FocusFrameInput; MediaPause;
                         JumpToFrame current_frame; FocusWindow] /\
  frame_editing w' = false /\
  frame_label_visible w' = true /\
  frame_input_visible w' = false /\
  event_manager w' = event_manager w /\
  console w' = console w ++ match jump_raises current_frame with
                            | ValueOrTypeError => [InvalidFrameNumber]
                            | _ => []
                            end.
Proof.
  unfold jump_to_frame_from_input, enable_frame_edit.
  cbn [frame_input_text call set_frame_input_text set_frame_input_visible
       set_frame_label_visible set_frame_editing].
  destruct (repr_int current_frame) as [|c r] eqn:E.
  - pose proof (py_int_repr_int current_frame) as H. rewrite E in H.
    discriminate H.
  - rewrite <- E, py_int_repr_int.
    destruct (jump_raises current_frame); cbn;
      rewrite <- !app_assoc, ?app_nil_r; repeat split; reflexivity.
Qed.

Section Saving.

Variable same_foreign : pystr -> FS -> list (PyValue * list PyValue) -> bool.

(** With everything saved and no history, [save_event] returns at its third
    guard. *)
Lemma save_event_nothing_new ft w fs :
  any_marker (markers (event_manager w)) = true ->
  (exists fn, fname w = Some fn /\ fn <> []) ->
  save_status w = true ->
  undo_stack (event_manager w) = [] ->
  redo_stack (event_manager w) = [] ->
  save_event same_foreign ft w fs = (print NothingNewToSave w, fs).
Proof.
  intros Ha (fn & Hf & Hn) Hs Hu Hr. unfold save_event.
  rewrite Ha, Hf, Hs, Hu, Hr. destruct fn; [congruence|]. reflexivity.
Qed.

(** X2: a [save_event] that got its text on disk, or found it there, is
    not repeated: the next [save_event] prints that there is nothing new
    and leaves the disk and the window as they are (the viewer is not
    opened again either), also when the viewer failed the first time. *)
Theorem save_event_again_is_idle ft ft' w fs fn :
  guards_pass w fn ->
  makedirs_fails ft = false ->
  existing_same same_foreign ft (event_file_path (evt_save_path w) fn)
    (markers (event_manager w)) fs = true \/
  (open_write_fails ft = false /\ write_fails ft = false) ->
  let saved := save_event same_foreign ft w fs in
  save_event same_foreign ft' (fst saved) (snd saved) =
    (print NothingNewToSave (fst saved), snd saved).
Proof.
  intros Hg Hmk Hok saved. subst saved.
  rewrite (@save_event_past_guards same_foreign ft w fs fn Hg), Hmk.
  destruct Hg as (Ha & Hf & Hn & _). cbv zeta.
  destruct (existing_same _ _ _ _ _) eqn:Ex.
  - cbn [fst snd]. apply save_event_nothing_new; cbn; eauto.
  - destruct Hok as [Hok|[Ho Hw]]; [discriminate|]. rewrite Ho, Hw.
    destruct (viewer_fails ft); cbn [fst snd];
      apply save_event_nothing_new; cbn; eauto.
Qed.

(** X3: [save_event_as] never touches the log or the name of the video,
    whatever the dialog and the disk do, and it changes no file but the
    chosen one. A cancelled dialog changes nothing at all, and a write that
    fails leaves the save status and the save directory as they were. *)
Theorem save_event_as_keeps_log ft chosen w fs :
  let saved := save_event_as ft chosen w fs in
  event_manager (fst saved) = event_manager w /\
  fname (fst saved) = fname w /\
  (forall p, p <> chosen -> fs_get p (snd saved) = fs_get p fs) /\
  (chosen = [] ->
   snd saved = fs /\ save_status (fst saved) = save_status w /\
   evt_save_path (fst saved) = evt_save_path w /\ calls (fst saved) = calls w) /\
  (open_write_fails ft = true \/ write_fails ft = true ->
   save_status (fst saved) = save_status w /\
   evt_save_path (fst saved) = evt_save_path w).
Proof.
  assert (Hother : forall p b, p <> chosen ->
            fs_get p (fs_set chosen b fs) = fs_get p fs).
  { intros p b Hp. unfold fs_set. cbn [fs_get].
    destruct (pystr_eqb chosen p) eqn:E; [|reflexivity].
    apply pystr_eqb_eq in E. congruence. }
  unfold save_event_as.
  destruct (negb _); [cbn; repeat split; congruence|].
  destruct (fname w) as [[|c fn]|] eqn:Ef;
    try (cbn; rewrite ?Ef; repeat split; congruence).
  destruct chosen as [|c0 chosen]; [cbn; rewrite ?Ef; repeat split; congruence|].
  destruct (open_write_fails ft) eqn:Eo;
    [cbn; rewrite ?Ef; repeat split; congruence|].
  destruct (write_fails ft) eqn:Ew; cbn [fst snd]; cbn; rewrite ?Ef;
    repeat split; try congruence;
    try (intros p Hp; now apply Hother);
    try (intros [E|E]; discriminate E);
    match goal with H : _ \/ _ |- _ => destruct H; discriminate end.
Qed.

(** X4: a successful [save_event_as] turns the save directory into the
    directory of the chosen file, so that the next [save_event], which
    still has the history to save, can only write the video's event file
    there; with no history left it has nothing new to save. *)
Theorem save_as_moves_later_saves ft chosen w fs fn :
  any_marker (markers (event_manager w)) = true ->
  fname w = Some fn -> fn <> [] -> chosen <> [] ->
  let saved := save_event_as no_faults chosen w fs in
  evt_save_path (fst saved) = OsPath.dirname chosen /\
  save_status (fst saved) = true /\
  (forall p,
     fs_get p (snd (save_event same_foreign ft (fst saved) (snd saved)))
       <> fs_get p (snd saved) ->
     p = event_file_path (OsPath.dirname chosen) fn) /\
  (undo_stack (event_manager w) = [] -> redo_stack (event_manager w) = [] ->
   save_event same_foreign ft (fst saved) (snd saved) =
     (print NothingNewToSave (fst saved), snd saved)).
Proof.
  intros Ha Hf Hn Hc saved. subst saved.
  rewrite save_event_as_writes by eauto. cbn [fst snd].
  set (w1 := set_save_status true _).
  set (fs1 := write_file chosen _ fs).
  assert (He : event_manager w1 = event_manager w) by reflexivity.
  assert (Hf1 : fname w1 = Some fn) by exact Hf.
  assert (Hs1 : save_status w1 = true) by reflexivity.
  assert (Hp1 : evt_save_path w1 = OsPath.dirname chosen) by reflexivity.
  split; [exact Hp1|]. split; [exact Hs1|]. clearbody w1 fs1. split.
  - intros p. unfold save_event. rewrite He, Ha, Hf1, Hs1, Hp1.
    destruct fn as [|c fn]; [congruence|]. cbn [negb andb].
    destruct (_ =? 0)%nat; [cbn [snd]; congruence|].
    destruct (makedirs_fails ft); [cbn [snd]; congruence|].
    cbv zeta. destruct (existing_same _ _ _ _ _); [cbn [snd]; congruence|].
    destruct (open_write_fails ft); [cbn [snd]; congruence|].
    destruct (write_fails ft); [|destruct (viewer_fails ft)];
      cbn [snd]; intros H; apply fs_get_set_other in H; exact H.
  - intros Hu Hr. apply save_event_nothing_new; rewrite ?He; eauto.
Qed.

End Saving.

Lemma save_event_again_is_idle_witness :
  let saved := save_event foreign_differs no_faults example_window [] in
  save_event foreign_differs no_faults (fst saved) (snd saved) =
  (print NothingNewToSave (fst saved), snd saved).
Proof.
  apply (@save_event_again_is_idle foreign_differs no_faults no_faults
           example_window [] video_path example_guards).
  - reflexivity.
  - right. split; reflexivity.
Defined.

Lemma save_as_moves_later_saves_witness :
  let saved :=
    save_event_as no_faults py:"/backup/marks.txt" example_window [] in
  evt_save_path (fst saved) = py:"/backup" /\ save_status (fst saved) = true.
Proof.
  assert (H := @save_as_moves_later_saves foreign_differs no_faults
                 py:"/backup/marks.txt" example_window [] video_path).
  cbv zeta in *. split; apply H; try reflexivity; discriminate.
Defined.

End SavingFacts.

(** ** More on paths and on substrings *)
Module PathFacts.

Import OsPath OsPathFacts Session.

Lemma last_occurrence_unique (c : ascii) a b a' b' :
  a ++ c :: b = a' ++ c :: b' -> ~ In c b -> ~ In c b' -> a = a' /\ b = b'.
Proof.
  revert a'. induction a as [|x a IH]; intros a' H Hb Hb'.
  - destruct a' as [|y a']; cbn [app] in H.
    + injection H as ->. auto.
    + injection H as <- ->. destruct Hb. apply in_or_app. right. now left.
  - destruct a' as [|y a']; cbn [app] in H.
    + injection H as -> <-. destruct Hb'. apply in_or_app. right. now left.
    + injection H as -> H. destruct (IH a' H Hb Hb') as [-> ->]. auto.
Qed.

Lemma rfind_last c a b :
  ~ In c b -> rfind c (a ++ c :: b) = Z.of_nat (length a).
Proof.
  intros Hb.
  destruct (rfind_spec c (a ++ c :: b)) as [[_ Hn]|(a' & b' & E & Hb' & ->)].
  - destruct Hn. apply in_or_app. right. now left.
  - destruct (@last_occurrence_unique c a b a' b' E Hb Hb') as [-> _].
    reflexivity.
Qed.

(** [os.path.join] puts one slash after a directory that does not end
    with one. *)
Lemma join_plain d b :
  d <> [] -> OsPath.endswith "/"%char d = false -> ~ In "/"%char b ->
  join d b = d ++ "/"%char :: b.
Proof.
  intros Hd He Hb. unfold join.
  replace (OsPath.startswith "/"%char b) with false.
  - destruct d; [congruence|]. now rewrite He.
  - destruct b as [|x b]; [reflexivity|]. cbn [OsPath.startswith]. symmetry.
    apply Ascii.eqb_neq. intros ->. apply Hb. now left.
Qed.

Lemma basename_join d b :
  ~ In "/"%char b -> basename (d ++ "/"%char :: b) = b.
Proof.
  intros Hb. unfold basename, slice_from. rewrite (@rfind_last _ d b Hb).
  replace (Z.to_nat (Z.of_nat (length d) + 1)) with (length (d ++ ["/"%char]))
    by (rewrite length_app; cbn [length]; lia).
  replace (d ++ "/"%char :: b) with ((d ++ ["/"%char]) ++ b)
    by now rewrite <- app_assoc.
  now rewrite skipn_app, skipn_all, Nat.sub_diag.
Qed.

Lemma rstrip_sep_one d :
  OsPath.endswith "/"%char d = false -> rstrip_sep (d ++ ["/"%char]) = d.
Proof.
  intros He. unfold rstrip_sep. rewrite rev_app_distr. cbn [rev app].
  change (Ascii.eqb "/" "/") with true. cbv iota.
  unfold OsPath.endswith, OsPath.startswith in He. destruct (rev d) as [|x r] eqn:E.
  - apply (f_equal (@rev ascii)) in E. rewrite rev_involutive in E. now subst d.
  - rewrite He, <- E. apply rev_involutive.
Qed.

Lemma dirname_join d b :
  d <> [] -> OsPath.endswith "/"%char d = false -> ~ In "/"%char b ->
  dirname (d ++ "/"%char :: b) = d.
Proof.
  intros Hd He Hb. unfold dirname, slice_to. rewrite (@rfind_last _ d b Hb).
  replace (Z.to_nat (Z.of_nat (length d) + 1)) with (length (d ++ ["/"%char]))
    by (rewrite length_app; cbn [length]; lia).
  replace (d ++ "/"%char :: b) with ((d ++ ["/"%char]) ++ b)
    by now rewrite <- app_assoc.
  rewrite firstn_app, firstn_all, Nat.sub_diag. cbn [firstn]. rewrite app_nil_r.
  replace (forallb (Ascii.eqb "/"%char) (d ++ ["/"%char])) with false.
  - now apply rstrip_sep_one.
  - symmetry. rewrite forallb_app. apply andb_false_iff. left.
    unfold OsPath.endswith, OsPath.startswith in He.
    destruct (rev d) as [|x r] eqn:E.
    + apply (f_equal (@rev ascii)) in E. rewrite rev_involutive in E.
      now subst d.
    + apply (f_equal (@rev ascii)) in E. rewrite rev_involutive in E.
      subst d. cbn [rev]. rewrite forallb_app. apply andb_false_iff. right.
      cbn [forallb]. rewrite Ascii.eqb_sym, He. reflexivity.
Qed.

(** Substrings. *)
Lemma startswith_app a b : Session.startswith a (a ++ b) = true.
Proof.
  induction a as [|x a IH]; [reflexivity|]. cbn [app Session.startswith].
  now rewrite Ascii.eqb_refl.
Qed.

Lemma py_in_app a p q : py_in a (p ++ a ++ q) = true.
Proof.
  induction p as [|x p IH]; cbn [app].
  - pose proof (startswith_app a q) as H.
    destruct (a ++ q) as [|z t]; cbn [py_in]; now rewrite H.
  - cbn [py_in]. rewrite IH. apply orb_true_r.
Qed.

Lemma startswith_spec a b :
  Session.startswith a b = true <-> exists r, b = a ++ r.
Proof.
  revert b. induction a as [|x a IH]; intros b; cbn [Session.startswith].
  - split; [intros _; now exists b|reflexivity].
  - destruct b as [|y b].
    + split; [discriminate|]. intros (r & H). discriminate H.
    + rewrite andb_true_iff, IH. split.
      * intros [E (r & ->)]. apply Ascii.eqb_eq in E. subst y. now exists r.
      * intros (r & [= -> ->]). split; [apply Ascii.eqb_refl|now exists r].
Qed.

Lemma py_in_spec a b :
  py_in a b = true <-> exists p q, b = p ++ a ++ q.
Proof.
  split.
  - induction b as [|y b IH]; cbn [py_in]; intros H.
    + rewrite orb_false_r in H. apply startswith_spec in H as (r & ->).
      now exists [], r.
    + apply orb_true_iff in H as [H|H].
      * apply startswith_spec in H as (r & ->). now exists [], r.
      * destruct (IH H) as (p & q & ->). now exists (y :: p), q.
  - intros (p & q & ->). apply py_in_app.
Qed.

Lemma event_name_spec name :
  event_name name = true <->
  exists mid, name = py:"event-" ++ mid ++ py:".txt".
Proof.
  unfold event_name. rewrite andb_true_iff, startswith_spec. split.
  - intros [(r & ->) H].
    change (skipn 6 (py:"event-" ++ r)) with r in H.
    unfold Session.endswith in H. apply startswith_spec in H as (t & H).
    apply (f_equal (@rev ascii)) in H.
    rewrite rev_involutive, rev_app_distr, rev_involutive in H.
    exists (rev t). now subst r.
  - intros (mid & ->). split; [now exists (mid ++ py:".txt")|].
    change (skipn 6 (py:"event-" ++ mid ++ py:".txt")) with (mid ++ py:".txt").
    unfold Session.endswith. rewrite rev_app_distr. apply startswith_app.
Qed.

End PathFacts.

(** ** Videos, auto-loading, labels and child windows *)
Module SessionFacts.

Import Digits DigitsFacts PyLit PyLitFacts EventManager Gui GuiFacts Session.
Import PathFacts.

Section Loading.

Variable sorted_other : PyValue -> option (list PyValue).
Variable load_foreign : pystr -> FS -> VideoPlayer -> VideoPlayer.
Variable same_foreign : pystr -> FS -> list (PyValue * list PyValue) -> bool.

Lemma auto_load_cases ft vid_base txts s fs :
  (auto_load sorted_other load_foreign ft vid_base txts s fs = s /\
   forall f, In f txts -> py_in vid_base (OsPath.basename f) = false) \/
  (exists before f after,
     txts = before ++ f :: after /\
     py_in vid_base (OsPath.basename f) = true /\
     (forall g, In g before -> py_in vid_base (OsPath.basename g) = false) /\
     auto_load sorted_other load_foreign ft vid_base txts s fs =
     set_window
       (_read_event_file sorted_other load_foreign ft f (window s) fs)
       (act (Said (AutoLoadEvent f)) s)).
Proof.
  induction txts as [|f txts IH]; cbn [auto_load].
  - left. split; [reflexivity|]. intros f [].
  - destruct (py_in vid_base (OsPath.basename f)) eqn:E.
    + right. exists [], f, txts. repeat split; [exact E|]. intros g [].
    + destruct IH as [[H1 H2]|(before & g & after & -> & Hg & Hb & H)].
      * left. split; [exact H1|]. intros g [<-|Hg]; [exact E|now apply H2].
      * right. exists (f :: before), g, after. repeat split; [exact Hg| |exact H].
        intros h [<-|Hh]; [exact E|now apply Hb].
Qed.

Lemma auto_load_none ft vid_base txts s fs :
  (forall f, In f txts -> py_in vid_base (OsPath.basename f) = false) ->
  auto_load sorted_other load_foreign ft vid_base txts s fs = s.
Proof.
  induction txts as [|f txts IH]; intros H; cbn [auto_load]; [reflexivity|].
  rewrite (H f (or_introl eq_refl)). apply IH. intros g Hg. apply H.
  now right.
Qed.

Lemma auto_load_first ft vid_base before f after s fs :
  py_in vid_base (OsPath.basename f) = true ->
  (forall g, In g before -> py_in vid_base (OsPath.basename g) = false) ->
  auto_load sorted_other load_foreign ft vid_base (before ++ f :: after) s fs =
  set_window
    (_read_event_file sorted_other load_foreign ft f (window s) fs)
    (act (Said (AutoLoadEvent f)) s).
Proof.
  intros Hf. induction before as [|g before IH]; intros Hb;
    cbn [app auto_load].
  - now rewrite Hf.
  - rewrite (Hb g (or_introl eq_refl)). apply IH. intros h Hh. apply Hb.
    now right.
Qed.

(** X5: [load_events_silent] reads at most one file, and only for a video
    whose name holds a task id. Without a video name, without a stored
    search directory that exists, or without an id in the video's name, it
    returns the session as it is. With all of them it prints the match;
    then, when no path that [glob] lists has a base name containing the id,
    nothing else happens, and otherwise it prints and reads the first such
    path, and no other. *)
Theorem load_events_silent_reads_first_match os ft s fs :
  let r := load_events_silent sorted_other load_foreign os ft s fs in
  (fname (window s) = None \/ fname (window s) = Some [] \/
   evt_dir s = None \/ evt_dir s = Some [] \/
   (exists last_path, evt_dir s = Some last_path /\
                      path_exists os last_path = false) \/
   (exists fn, fname (window s) = Some fn /\
               TaskPattern.task_search fn = None) ->
   r = s) /\
  (forall fn last_path vid_base,
     fname (window s) = Some fn -> fn <> [] ->
     evt_dir s = Some last_path -> last_path <> [] ->
     path_exists os last_path = true ->
     TaskPattern.task_search fn = Some vid_base ->
     let s1 := act (Said (MatchedTaskFormat vid_base)) s in
     let txts := glob_event_files os last_path in
     ((forall f, In f txts -> py_in vid_base (OsPath.basename f) = false) ->
      r = s1) /\
     (forall before f after,
        txts = before ++ f :: after ->
        py_in vid_base (OsPath.basename f) = true ->
        (forall g, In g before ->
                   py_in vid_base (OsPath.basename g) = false) ->
        r = set_window
              (_read_event_file sorted_other load_foreign ft f (window s) fs)
              (act (Said (AutoLoadEvent f)) s1))).
Proof.
  cbv zeta. unfold load_events_silent. split.
  - intros H.
    destruct (fname (window s)) as [[|c fn]|] eqn:Ef; try reflexivity.
    destruct (evt_dir s) as [[|d last_path]|] eqn:Ed; try reflexivity.
    destruct (path_exists os (d :: last_path)) eqn:Ep; [|reflexivity].
    cbn [negb]. cbv zeta.
    destruct (TaskPattern.task_search (c :: fn)) as [vid_base|] eqn:Et;
      [|reflexivity].
    exfalso.
    destruct H as [H|[H|[H|[H|[(p & H & Hp)|(fn' & H & Hn)]]]]];
      try discriminate H.
    + injection H as <-. congruence.
    + injection H as <-. congruence.
  - intros fn last_path vid_base Ef Hfn Ed Hl Ep Et. rewrite Ef, Ed.
    destruct fn as [|c fn]; [congruence|].
    destruct last_path as [|d last_path]; [congruence|].
    rewrite Ep, Et. cbn [negb]. cbv zeta. split.
    + apply auto_load_none.
    + intros before f after -> Hf Hb.
      exact (@auto_load_first ft vid_base before f after
               (act (Said (MatchedTaskFormat vid_base)) s) fs Hf Hb).
Qed.

Lemma auto_load_unique ft vid_base txts target s fs :
  In target txts ->
  py_in vid_base (OsPath.basename target) = true ->
  (forall f, In f txts -> py_in vid_base (OsPath.basename f) = true ->
             f = target) ->
  auto_load sorted_other load_foreign ft vid_base txts s fs =
  set_window
    (_read_event_file sorted_other load_foreign ft target (window s) fs)
    (act (Said (AutoLoadEvent target)) s).
Proof.
  intros Hin Ht Hu.
  destruct (auto_load_cases ft vid_base txts s fs)
    as [[_ H]|(before & f & after & -> & Hf & _ & ->)].
  - rewrite (H _ Hin) in Ht. discriminate Ht.
  - assert (f = target) as ->; [|reflexivity].
    apply Hu; [|exact Hf]. apply in_or_app. right. now left.
Qed.

(** Where [glob] looks, for a directory written without a wildcard and
    without a trailing slash. *)
Lemma glob_event_files_plain os d :
  d <> [] -> OsPath.endswith "/"%char d = false -> has_magic d = false ->
  glob_event_files os d =
  map (fun name => OsPath.join d name) (filter event_name (scandir os d)).
Proof.
  intros Hd He Hm. unfold glob_event_files.
  assert (Hp : ~ In "/"%char py:"event-*.txt")
    by (cbn; intuition discriminate).
  rewrite (@join_plain d _ Hd He Hp), (@dirname_join d _ Hd He Hp), Hm.
  reflexivity.
Qed.

(** X6: marks that [save_event] wrote for a video are found again by
    [load_events_silent]. For a well-formed log whose text is ASCII, a save
    that passes its guards and has to write, a video name that holds a task
    id with no slash in it, and a save directory that is not empty, has no
    trailing slash and none of the wildcards of [glob] (a star, a question
    mark, an opening square bracket), that exists, that is the stored
    search directory, and that lists the saved file as its only event file
    whose name contains the id (no listed name having a slash): the file
    holds the saved text, and the log that is loaded is the log that was
    saved, with an empty history. *)
Theorem saved_marks_are_auto_loaded os w fs fn vid_base s :
  log_wf (markers (event_manager w)) ->
  forallb is_ascii (event_text (markers (event_manager w))) = true ->
  guards_pass w fn ->
  existing_same same_foreign no_faults
    (event_file_path (evt_save_path w) fn) (markers (event_manager w)) fs
    = false ->
  TaskPattern.task_search fn = Some vid_base ->
  ~ In "/"%char vid_base ->
  evt_save_path w <> [] ->
  OsPath.endswith "/"%char (evt_save_path w) = false ->
  has_magic (evt_save_path w) = false ->
  path_exists os (evt_save_path w) = true ->
  In (py:"event-" ++ vid_base ++ py:".txt") (scandir os (evt_save_path w)) ->
  (forall n, In n (scandir os (evt_save_path w)) ->
     ~ In "/"%char n /\
     (event_name n = true -> py_in vid_base n = true ->
      n = py:"event-" ++ vid_base ++ py:".txt")) ->
  fname (window s) = Some fn ->
  evt_dir s = Some (evt_save_path w) ->
  let saved := save_event same_foreign no_faults w fs in
  fs_get (OsPath.join (evt_save_path w) (py:"event-" ++ vid_base ++ py:".txt"))
    (snd saved)
  = Some (utf8_encode (event_text (markers (event_manager w)))) /\
  event_manager
    (window (load_events_silent sorted_other load_foreign os no_faults s
               (snd saved)))
  = fresh_log (markers (event_manager w)).
Proof.
  intros Hwf Hascii Hg Hx Ht Hv Hd He Hm Hp Hin Hnames Hf Hdir saved.
  set (d := evt_save_path w) in *.
  set (m := markers (event_manager w)) in *.
  set (name0 := py:"event-" ++ vid_base ++ py:".txt") in *.
  assert (Hpath : event_file_path d fn = OsPath.join d name0).
  { unfold event_file_path, derived_id. now rewrite Ht. }
  assert (Hn0 : ~ In "/"%char name0).
  { unfold name0. intros H. apply in_app_or in H as [H|H];
      [cbn in H; intuition discriminate|].
    apply in_app_or in H as [H|H]; [now apply Hv|].
    cbn in H; intuition discriminate. }
  assert (Hsaved : snd saved = write_file (OsPath.join d name0) (event_text m) fs).
  { subst saved. rewrite (@save_event_past_guards same_foreign no_faults w fs fn Hg).
    cbn [makedirs_fails open_write_fails write_fails viewer_fails no_faults].
    cbv zeta. fold d m. rewrite Hx, Hpath. reflexivity. }
  rewrite Hsaved. split; [apply fs_get_write|].
  assert (Hfn : fn <> []) by (destruct Hg as (_ & _ & H & _); exact H).
  unfold load_events_silent. rewrite Hf, Hdir.
  destruct fn as [|c fn]; [congruence|].
  destruct d as [|c0 d0] eqn:Ed; [congruence|]. rewrite <- Ed in *.
  rewrite Hp. cbn [negb]. cbv zeta. rewrite Ht.
  rewrite (@glob_event_files_plain os d Hd He Hm).
  rewrite (@auto_load_unique no_faults vid_base _ (OsPath.join d name0)).
  - cbn [window set_window act set_actions].
    rewrite (@read_event_text sorted_other load_foreign no_faults _ _ _ m Hwf)
      by now apply read_written.
    reflexivity.
  - apply in_map_iff. exists name0. split; [reflexivity|].
    apply filter_In. split; [exact Hin|].
    apply event_name_spec. now exists vid_base.
  - rewrite (@join_plain d name0 Hd He Hn0), (@basename_join d name0 Hn0).
    apply (py_in_app vid_base py:"event-" py:".txt").
  - intros f Hf' Hc. apply in_map_iff in Hf' as (n & <- & Hn).
    apply filter_In in Hn as [Hn Hev].
    destruct (Hnames n Hn) as [Hslash Hun].
    rewrite (@join_plain d n Hd He Hslash), (@basename_join d n Hslash) in Hc.
    now rewrite (Hun Hev Hc).
Qed.

(** What [save_event] can change on disk, and what it never changes. *)
Lemma save_event_changes_only ft w fs p :
  fs_get p (snd (save_event same_foreign ft w fs)) <> fs_get p fs ->
  exists fn, fname w = Some fn /\ fn <> [] /\
             p = event_file_path (evt_save_path w) fn.
Proof.
  unfold save_event.
  destruct (negb _); [cbn [snd]; congruence|].
  destruct (fname w) as [[|c fn]|]; try (cbn [snd]; congruence).
  destruct (_ && _); [cbn [snd]; congruence|].
  destruct (makedirs_fails ft); [cbn [snd]; congruence|].
  cbv zeta. intros H. exists (c :: fn). repeat split; [discriminate|].
  destruct (existing_same _ _ _ _ _); [cbn [snd] in H; congruence|].
  destruct (open_write_fails ft); [cbn [snd] in H; congruence|].
  destruct (write_fails ft); [|destruct (viewer_fails ft)];
    cbn [snd] in H; apply fs_get_set_other in H; exact H.
Qed.

Lemma save_event_keeps ft w fs :
  markers (event_manager (fst (save_event same_foreign ft w fs))) =
  markers (event_manager w) /\
  fname (fst (save_event same_foreign ft w fs)) = fname w /\
  evt_save_path (fst (save_event same_foreign ft w fs)) = evt_save_path w.
Proof.
  unfold save_event.
  destruct (negb _); [repeat split|].
  destruct (fname w) as [[|c fn]|] eqn:Ef; try (repeat split; assumption).
  destruct (_ && _); [repeat split; assumption|].
  destruct (makedirs_fails ft); [repeat split; assumption|].
  cbv zeta.
  destruct (existing_same _ _ _ _ _); [repeat split; assumption|].
  destruct (open_write_fails ft); [repeat split; assumption|].
  destruct (write_fails ft); [repeat split; assumption|].
  destruct (viewer_fails ft); repeat split; assumption.
Qed.

(** X7: with the search for events switched off, [load_video] always ends
    with the new video as the current one and an empty log with no history,
    whatever the save of the previous work did, also when it failed; the
    title names the new file, and for the first video nothing is written. *)
Theorem load_video_starts_clean cfg os ft_save ft_load file_path s fs :
  AUTO_SEARCH_EVENTS cfg = false ->
  let r := load_video sorted_other load_foreign same_foreign cfg os
             ft_save ft_load file_path s fs in
  event_manager (window (fst r)) = EventManager.empty /\
  fname (window (fst r)) = Some file_path /\
  window_title (fst r) =
    WINDOW_TITLE cfg ++ py:" - " ++ OsPath.basename file_path /\
  last_vid_path (fst r) = Some (OsPath.dirname file_path) /\
  evt_dir (fst r) = evt_dir s /\
  actions (fst r) = actions s ++ [SetSource file_path; EnablePlayButton] /\
  (fname (window s) = None -> snd r = fs).
Proof.
  intros Hauto r. subst r. unfold load_video. rewrite Hauto. cbv zeta.
  cbn [fst snd window set_last_vid_path act set_actions set_window_title
       set_window window_title last_vid_path evt_dir actions].
  repeat split.
  - now rewrite <- app_assoc.
  - intros ->. reflexivity.
Qed.

(** X8: the only file that [load_video] can change is the event file of
    the video that was loaded before, in the save directory; and when that
    save gets to write, the file holds the marks of the previous video,
    which are then gone from the window's log unless they are loaded
    again. *)
Theorem load_video_saves_previous cfg os ft_save ft_load file_path s fs :
  let r := load_video sorted_other load_foreign same_foreign cfg os
             ft_save ft_load file_path s fs in
  (forall p,
     fs_get p (snd r) <> fs_get p fs ->
     exists fn, fname (window s) = Some fn /\ fn <> [] /\
                p = event_file_path (evt_save_path (window s)) fn) /\
  (forall fn,
     guards_pass (window s) fn ->
     makedirs_fails ft_save = false ->
     open_write_fails ft_save = false ->
     write_fails ft_save = false ->
     existing_same same_foreign ft_save
       (event_file_path (evt_save_path (window s)) fn)
       (markers (event_manager (window s))) fs = false ->
     fs_get (event_file_path (evt_save_path (window s)) fn) (snd r)
     = Some (utf8_encode (event_text (markers (event_manager (window s)))))).
Proof.
  intros r.
  assert (Hsnd : snd r =
                 snd (match fname (window s) with
                      | None | Some [] => (window s, fs)
                      | Some _ => save_event same_foreign ft_save (window s) fs
                      end)).
  { subst r. unfold load_video. cbv zeta.
    destruct (AUTO_SEARCH_EVENTS cfg); reflexivity. }
  rewrite Hsnd. clear Hsnd r. split.
  - intros p H. destruct (fname (window s)) as [[|c fn]|] eqn:Ef;
      try (cbn [snd] in H; congruence).
    apply save_event_changes_only in H. now rewrite Ef in H.
  - intros fn Hg Hm Ho Hw Hx.
    assert (Hf : fname (window s) = Some fn) by apply Hg.
    assert (Hn : fn <> []) by apply Hg.
    rewrite Hf. destruct fn as [|c fn]; [congruence|].
    rewrite (@save_event_past_guards same_foreign ft_save _ fs _ Hg), Hm.
    cbv zeta. rewrite Hx, Ho, Hw.
    destruct (viewer_fails ft_save); cbn [snd]; apply fs_get_write.
Qed.

(** X9: closing the window stops the player and saves: the marks are
    never changed by it, the only file that can change is the event file of
    the current video, which holds the marks when the save gets to write;
    both child windows, if they exist, are closed, and the base class sees
    the event last. *)
Theorem close_saves_marks ft s fs :
  let r := closeEvent same_foreign ft s fs in
  markers (event_manager (window (fst r))) =
    markers (event_manager (window s)) /\
  (forall p,
     fs_get p (snd r) <> fs_get p fs ->
     exists fn, fname (window s) = Some fn /\ fn <> [] /\
                p = event_file_path (evt_save_path (window s)) fn) /\
  (forall fn,
     guards_pass (window s) fn ->
     makedirs_fails ft = false ->
     open_write_fails ft = false ->
     write_fails ft = false ->
     existing_same same_foreign ft
       (event_file_path (evt_save_path (window s)) fn)
       (markers (event_manager (window s))) fs = false ->
     fs_get (event_file_path (evt_save_path (window s)) fn) (snd r)
     = Some (utf8_encode (event_text (markers (event_manager (window s)))))) /\
  marker_float (fst r) <> Some true /\
  (forall at_, csv_plot_win (fst r) <> Some (true, at_)) /\
  actions (fst r) =
    actions s ++ [MediaStop; SettingsSync] ++
    match csv_plot_win s with Some _ => [CloseCsvPlot] | None => [] end ++
    match marker_float s with Some _ => [CloseMarkerFloat] | None => [] end ++
    [BaseCloseEvent].
Proof.
  intros r. subst r. unfold closeEvent. cbv zeta.
  set (w1 := print _ (window (act MediaStop s))).
  assert (H1 : markers (event_manager w1) = markers (event_manager (window s)))
    by reflexivity.
  assert (H2 : fname w1 = fname (window s)) by reflexivity.
  assert (H3 : evt_save_path w1 = evt_save_path (window s)) by reflexivity.
  assert (H4 : event_manager w1 = event_manager (window s)) by reflexivity.
  assert (H5 : save_status w1 = save_status (window s)) by reflexivity.
  clearbody w1. cbn [fst snd].
  set (saved := save_event same_foreign ft w1 fs).
  split; [|split; [|split; [|split; [|split]]]].
  - rewrite <- H1. cbn. destruct (csv_plot_win s) as [[v at_]|]; cbn;
      destruct (marker_float s); cbn; apply save_event_keeps.
  - intros p H. subst saved. apply save_event_changes_only in H.
    now rewrite H2, H3 in H.
  - intros fn (Ha & Hf & Hn & Hs) Hm Ho Hw Hx. subst saved.
    assert (Hg : guards_pass w1 fn).
    { unfold guards_pass. now rewrite H4, H2, H5. }
    rewrite (@save_event_past_guards same_foreign ft w1 fs _ Hg), Hm.
    cbv zeta. rewrite H3, H1, Hx, Ho, Hw.
    destruct (viewer_fails ft); cbn [snd]; apply fs_get_write.
  - cbn. destruct (csv_plot_win s) as [[v at_]|]; cbn;
      destruct (marker_float s) eqn:Em; cbn; congruence.
  - intros at_. cbn. destruct (csv_plot_win s) as [[v p]|] eqn:Ec; cbn;
      destruct (marker_float s); cbn; congruence.
  - cbn. destruct (csv_plot_win s) as [[v p]|]; cbn;
      destruct (marker_float s); cbn; rewrite <- ?app_assoc; reflexivity.
Qed.

End Loading.

Lemma saved_marks_are_auto_loaded_witness :
  event_manager
    (window
       (load_events_silent sorted_raises foreign_kept example_dirs no_faults
          example_session
          (snd (save_event foreign_differs no_faults example_window [])))) =
  fresh_log example_markers.
Proof.
  apply (@saved_marks_are_auto_loaded sorted_raises foreign_kept
           foreign_differs example_dirs example_window [] video_path
           py:"20250101-Pici-TS-3" example_session).
  - exact example_markers_wf.
  - vm_compute. reflexivity.
  - exact example_guards.
  - reflexivity.
  - vm_compute. reflexivity.
  - vm_compute. intuition discriminate.
  - discriminate.
  - reflexivity.
  - reflexivity.
  - reflexivity.
  - vm_compute. right. left. reflexivity.
  - intros n Hn. vm_compute in Hn.
    destruct Hn as [<-|[<-|[<-|[]]]];
      (split; [vm_compute; intuition discriminate|]);
      vm_compute; intros; try reflexivity; discriminate.
  - reflexivity.
  - reflexivity.
Defined.

Lemma load_video_starts_clean_witness :
  event_manager
    (window
       (fst (load_video sorted_raises foreign_kept foreign_differs
               example_config example_dirs no_faults no_faults
               py:"/data/20250102-Fusillo-BBT-1.mp4" example_session []))) =
  EventManager.empty.
Proof.
  apply (@load_video_starts_clean sorted_raises foreign_kept foreign_differs
           example_config example_dirs no_faults no_faults
           py:"/data/20250102-Fusillo-BBT-1.mp4" example_session []).
  reflexivity.
Defined.

(** *** Labels *)

Lemma frame_in_spec frame frames :
  frame_in frame frames = true <-> In (VInt frame) frames.
Proof.
  unfold frame_in. rewrite existsb_exists. split.
  - intros (x & Hin & E). destruct x; try discriminate E.
    cbn [py_eqb] in E. apply Z.eqb_eq in E. now subst.
  - intros Hin. exists (VInt frame). split; [exact Hin|].
    cbn [py_eqb]. apply Z.eqb_refl.
Qed.

Lemma first_marker_spec frame m :
  match first_marker frame m with
  | Some key =>
      exists before frames after,
        m = before ++ (key, frames) :: after /\
        In (VInt frame) frames /\
        forall k fr, In (k, fr) before -> ~ In (VInt frame) fr
  | None => forall k fr, In (k, fr) m -> ~ In (VInt frame) fr
  end.
Proof.
  induction m as [|[key frames] m IH]; cbn [first_marker].
  - intros k fr [].
  - destruct (frame_in frame frames) eqn:E.
    + exists [], frames, m. repeat split; [now apply frame_in_spec|].
      intros k fr [].
    + assert (Hn : ~ In (VInt frame) frames).
      { intros H. apply frame_in_spec in H. congruence. }
      destruct (first_marker frame m) as [key'|].
      * destruct IH as (before & frames' & after & -> & Hin & Hb).
        exists ((key, frames) :: before), frames', after.
        repeat split; [exact Hin|].
        intros k fr [[= <- <-]|H]; [exact Hn|now apply (Hb k)].
      * intros k fr [[= <- <-]|H]; [exact Hn|now apply (IH k)].
Qed.

(** X10: the marker label names a key only when that key's list holds the
    frame and no key before it in the mapping does, and the name goes to
    the floating window, once, only when that window exists; when no list
    holds the frame the label shows the dash and nothing is sent. A first
    key that counts as false (the empty name, the number 0) shows the dash
    as well. The window itself is never changed. *)
Theorem marker_label_names_first_key frame s :
  let s' := update_current_marker_label frame s in
  let m := markers (event_manager (window s)) in
  window s' = window s /\
  ((forall k fr, In (k, fr) m -> ~ In (VInt frame) fr) ->
   marker_label s' = None /\ actions s' = actions s) /\
  (forall before key frames after,
     m = before ++ (key, frames) :: after ->
     In (VInt frame) frames ->
     (forall k fr, In (k, fr) before -> ~ In (VInt frame) fr) ->
     marker_label s' = (if truthy key then Some (py_str key) else None) /\
     actions s' =
       actions s ++
       (if truthy key
        then match marker_float s with
             | Some _ => [EmitMarker (py_str key)]
             | None => []
             end
        else [])).
Proof.
  intros s' m. subst s' m. unfold update_current_marker_label.
  pose proof (first_marker_spec frame (markers (event_manager (window s))))
    as Hspec.
  destruct (first_marker frame _) as [name|] eqn:Ef.
  - destruct Hspec as (before0 & frames0 & after0 & Hm & Hin0 & Hb0).
    split; [|split].
    + destruct (truthy name); [|reflexivity]. cbn.
      destruct (marker_float s); reflexivity.
    + intros Hnone. exfalso. apply (Hnone name frames0); [|exact Hin0].
      rewrite Hm. apply in_or_app. right. now left.
    + intros before key frames after Hm' Hin Hb.
      assert (key = name) as ->.
      { rewrite Hm' in Ef. clear - Ef Hin Hb.
        induction before as [|[k fr] before IH]; cbn [app first_marker] in Ef.
        - apply frame_in_spec in Hin. rewrite Hin in Ef. congruence.
        - replace (frame_in frame fr) with false in Ef.
          + apply IH; [exact Ef|]. intros k' fr' H. apply (Hb k'). now right.
          + symmetry. apply not_true_is_false. intros H.
            apply frame_in_spec in H. apply (Hb k fr); [now left|exact H]. }
      destruct (truthy name).
      * cbn. destruct (marker_float s); cbn; now rewrite ?app_nil_r.
      * cbn. now rewrite app_nil_r.
  - split; [reflexivity|]. split; [now intros _|].
    intros before key frames after Hm' Hin _. exfalso.
    apply (Hspec key frames); [|exact Hin].
    rewrite Hm'. apply in_or_app. right. now left.
Qed.

(** X11: [update_position] never moves the slider while it is pressed;
    otherwise it puts it at the player's position, held within the slider's
    range. It never changes the log or the pressed flag, and when a value
    does not fit a C [int] it raises with the labels left as they were. *)
Theorem update_position_respects_the_drag position pos_ms dur_ms frame s :
  let e := update_position position pos_ms dur_ms frame s in
  (is_slider_pressed (window s) = true ->
   time_slider_value (window (session_of e)) = time_slider_value (window s)) /\
  (is_slider_pressed (window s) = false -> fits_c_int position = true ->
   time_slider_value (window (session_of e)) =
     Z.max 0 (Z.min position (slider_max s))) /\
  event_manager (window (session_of e)) = event_manager (window s) /\
  is_slider_pressed (window (session_of e)) = is_slider_pressed (window s) /\
  (forall s', e = Failed s' ->
     time_label s' = time_label s /\ frame_label s' = frame_label s /\
     marker_label s' = marker_label s /\ actions s' = actions s) /\
  (forall s', e = Done s' ->
     time_label s' = clock pos_ms ++ py:" / " ++ clock dur_ms /\
     frame_label s' = py:"Frame: " ++ repr_int frame).
Proof.
  intros e. subst e. unfold update_position.
  assert (Hw : forall s0, window (update_current_marker_label frame s0)
                          = window s0).
  { intros s0. unfold update_current_marker_label.
    destruct (first_marker _ _) as [name|]; [|reflexivity].
    destruct (truthy name); [|reflexivity]. cbn.
    destruct (marker_float s0); reflexivity. }
  assert (Hl : forall s0,
            time_label (update_current_marker_label frame s0) = time_label s0
            /\ frame_label (update_current_marker_label frame s0)
               = frame_label s0).
  { intros s0. unfold update_current_marker_label.
    destruct (first_marker _ _) as [name|]; [|split; reflexivity].
    destruct (truthy name); [|split; reflexivity]. cbn.
    destruct (marker_float s0); split; reflexivity. }
  assert (Hd : forall s0 s',
            Done (update_current_marker_label frame
                    (set_frame_label (py:"Frame: " ++ repr_int frame)
                       (set_time_label
                          (clock pos_ms ++ py:" / " ++ clock dur_ms) s0)))
            = Done s' ->
            time_label s' = clock pos_ms ++ py:" / " ++ clock dur_ms /\
            frame_label s' = py:"Frame: " ++ repr_int frame).
  { intros s0 s' H. injection H as <-.
    split; [exact (proj1 (Hl _))|exact (proj2 (Hl _))]. }
  destruct (is_slider_pressed (window s)) eqn:Ep.
  - destruct (fits_c_int pos_ms && fits_c_int dur_ms); cbn [session_of];
      rewrite ?Hw; (split; [|split; [|split; [|split; [|split]]]]);
      try reflexivity; try discriminate; try (intros; exact Ep);
      try (intros s' [= <-]; repeat split; reflexivity);
      try apply Hd.
  - destruct (fits_c_int position) eqn:Ef.
    + destruct (fits_c_int pos_ms && fits_c_int dur_ms); cbn [session_of];
        rewrite ?Hw; (split; [|split; [|split; [|split; [|split]]]]);
        try reflexivity; try discriminate; try (intros; exact Ep);
        try (intros s' [= <-]; repeat split; reflexivity);
        try apply Hd.
    + cbn [session_of]; (split; [|split; [|split; [|split; [|split]]]]);
        try reflexivity; try discriminate; try (intros; exact Ep);
        try (intros s' [= <-]; repeat split; reflexivity).
Qed.

(** *** Child windows *)

Lemma toggle_marker_float_connections b s :
  length (filter is_connect (actions s)) =
    match marker_float s with Some _ => 1 | None => 0 end ->
  length (filter is_connect (actions (toggle_marker_float b s))) =
    match marker_float (toggle_marker_float b s) with
    | Some _ => 1
    | None => 0
    end.
Proof.
  intros H. unfold toggle_marker_float.
  destruct b; destruct (marker_float s) eqn:E; cbn; rewrite ?E; try exact H.
  rewrite filter_app, length_app, H. reflexivity.
Qed.

(** X12: however the menu entry is ticked and unticked, from the start of
    the program on, the marker signal is connected to the floating window
    exactly once when that window exists and never before, so a marker name
    reaches it once; and after a toggle the window is visible exactly when
    the entry was ticked. *)
Theorem marker_float_connected_once cfg g stored_evt_dir stored_vid_path
  save_path toggles :
  let s := fold_left (fun s b => toggle_marker_float b s) toggles
             (init_session cfg g stored_evt_dir stored_vid_path save_path) in
  length (filter is_connect (actions s)) =
    match marker_float s with Some _ => 1 | None => 0 end /\
  (forall before b, toggles = before ++ [b] ->
     (b = true -> marker_float s = Some true) /\
     (b = false -> marker_float s <> Some true)).
Proof.
  intros s. subst s.
  set (s0 := init_session cfg g stored_evt_dir stored_vid_path save_path).
  split.
  - assert (H0 : length (filter is_connect (actions s0)) =
                 match marker_float s0 with Some _ => 1 | None => 0 end)
      by (cbn; destruct (MARKER_FLOAT_ENABLED cfg); reflexivity).
    revert H0. generalize s0.
    induction toggles as [|b toggles IH]; intros s H; cbn [fold_left];
      [exact H|].
    apply IH. now apply toggle_marker_float_connections.
  - intros before b ->. rewrite fold_left_app. cbn [fold_left].
    generalize (fold_left (fun s b0 => toggle_marker_float b0 s) before s0).
    intros s. unfold toggle_marker_float. split; intros ->.
    + destruct (marker_float s); reflexivity.
    + destruct (marker_float s) eqn:E; cbn; rewrite ?E; congruence.
Qed.

(** X13: the plot window is made once, where the main window was when it
    was made, and stays there: later toggles, wherever the main window has
    moved, only show and hide it; after a toggle it is visible exactly when
    the entry was ticked. *)
Theorem csv_plot_made_once toggles s :
  let s' := fold_left (fun s gb => toggle_csv_plot (fst gb) (snd gb) s)
              toggles s in
  (forall v at_, csv_plot_win s = Some (v, at_) ->
     exists v', csv_plot_win s' = Some (v', at_)) /\
  (csv_plot_win s = None ->
   csv_plot_win s' = None /\ Forall (fun gb => snd gb = false) toggles \/
   exists before g after v',
     toggles = before ++ (g, true) :: after /\
     Forall (fun gb => snd gb = false) before /\
     csv_plot_win s' = Some (v', csv_position g)) /\
  (forall before g b, toggles = before ++ [(g, b)] ->
     (b = true -> exists at_, csv_plot_win s' = Some (true, at_)) /\
     (b = false -> forall at_, csv_plot_win s' <> Some (true, at_))).
Proof.
  intros s'. subst s'.
  assert (Hkeep : forall l s0 v at_,
            csv_plot_win s0 = Some (v, at_) ->
            exists v', csv_plot_win
                         (fold_left (fun s gb =>
                            toggle_csv_plot (fst gb) (snd gb) s) l s0)
                       = Some (v', at_)).
  { induction l as [|[g b] l IH]; intros s0 v at_ H; cbn [fold_left];
      [eauto|].
    apply (IH _ (if b then true else false) at_).
    unfold toggle_csv_plot. cbn [fst snd]. rewrite H.
    destruct b; reflexivity. }
  split; [apply Hkeep|]. split.
  - revert s. induction toggles as [|[g b] l IH]; intros s H; cbn [fold_left].
    + left. split; [exact H|constructor].
    + destruct b.
      * right. exists [], g, l.
        destruct (Hkeep l (toggle_csv_plot g true s) true (csv_position g))
          as (v' & Hv).
        { unfold toggle_csv_plot. now rewrite H. }
        exists v'. repeat split; [constructor|exact Hv].
      * assert (Hs : toggle_csv_plot g false s = s)
          by (unfold toggle_csv_plot; now rewrite H).
        cbn [fst snd]. rewrite Hs.
        destruct (IH s H) as [[H1 H2]|(before & g' & after & v' & -> & Hb & Hv)].
        -- left. split; [exact H1|]. constructor; [reflexivity|exact H2].
        -- right. exists ((g, false) :: before), g', after, v'.
           repeat split; [constructor; [reflexivity|exact Hb]|exact Hv].
  - intros before g b ->. rewrite fold_left_app. cbn [fold_left fst snd].
    generalize (fold_left (fun s0 gb => toggle_csv_plot (fst gb) (snd gb) s0)
                  before s).
    intros s0. unfold toggle_csv_plot. split; intros ->.
    + destruct (csv_plot_win s0) as [[v p]|]; eexists; reflexivity.
    + intros at_. destruct (csv_plot_win s0) as [[v p]|] eqn:E; cbn;
        rewrite ?E; congruence.
Qed.

End SessionFacts.

(** ** The configuration dialog *)
Module ConfigWindowFacts.

Import PyLit PyLitFacts ConfigWindow.

(** *** Positions *)

Lemma enumerate_from_nth {A} (l : list A) s j :
  nth_error (combine (seq s (length l)) l) j =
  option_map (fun x => (s + j, x)) (nth_error l j).
Proof.
  revert s j. induction l as [|x l IH]; intros s j; cbn [length seq combine].
  - now destruct j.
  - destruct j as [|j]; cbn [nth_error option_map].
    + now rewrite Nat.add_0_r.
    + rewrite IH. now replace (S s + j) with (s + S j) by lia.
Qed.

Lemma enumerate_nth {A} (l : list A) j :
  nth_error (enumerate l) j = option_map (fun x => (j, x)) (nth_error l j).
Proof. apply (enumerate_from_nth l 0 j). Qed.

Lemma enumerate_in {A} (l : list A) i x :
  In (i, x) (enumerate l) <-> nth_error l i = Some x.
Proof.
  split.
  - intros H. apply In_nth_error in H as (j & H).
    rewrite enumerate_nth in H. destruct (nth_error l j) eqn:E; [|discriminate].
    cbn in H. now injection H as <- <-.
  - intros H. apply (@nth_error_In _ _ i). now rewrite enumerate_nth, H.
Qed.

Lemma enumerate_length {A} (l : list A) : length (enumerate l) = length l.
Proof.
  unfold enumerate. rewrite length_combine, length_seq. apply Nat.min_id.
Qed.

Lemma map_enumerate_nth {A B} (f : nat * A -> B) (l : list A) j :
  nth_error (map f (enumerate l)) j =
  option_map (fun x => f (j, x)) (nth_error l j).
Proof.
  rewrite nth_error_map, enumerate_nth. now destruct (nth_error l j).
Qed.

Lemma index_str_inj i j : index_str i = index_str j -> i = j.
Proof.
  unfold index_str. intros H.
  apply (f_equal PyInt.py_int) in H.
  rewrite !SavingFacts.py_int_repr_int in H. injection H as H. lia.
Qed.

(** *** Dictionaries filled in a loop *)

Lemma key_eqb_hashable a b : key_eqb a b = true -> hashable a = true.
Proof. destruct a, b; cbn; congruence. Qed.

Lemma dict_get_set {V} k' (v : V) d k :
  dict_get k (dict_set k' v d) =
  if key_eqb k' k then Some v else dict_get k d.
Proof.
  induction d as [|[k0 v0] d IH]; cbn [dict_set dict_get].
  - reflexivity.
  - destruct (key_eqb k0 k') eqn:E; cbn [dict_get].
    + pose proof (key_eqb_eq _ _ (key_eqb_hashable _ _ E) E) as ->.
      now destruct (key_eqb k' k).
    + rewrite IH. destruct (key_eqb k0 k) eqn:E0; [|reflexivity].
      pose proof (key_eqb_eq _ _ (key_eqb_hashable _ _ E0) E0) as ->.
      destruct (key_eqb k' k) eqn:E1; [|reflexivity].
      pose proof (key_eqb_eq _ _ (key_eqb_hashable _ _ E1) E1) as ->.
      congruence.
Qed.

(** A loop that assigns at most once per element, under keys that are all
    different: a key holds what its element assigned. *)
Lemma fold_set_get {A V} (key : A -> PyValue) (val : A -> option V) l acc k :
  NoDup (map key l) ->
  dict_get k
    (fold_left (fun acc a => match val a with
                             | Some v => dict_set (key a) v acc
                             | None => acc
                             end) l acc) =
  match find (fun a => key_eqb (key a) k) l with
  | Some a => match val a with Some v => Some v | None => dict_get k acc end
  | None => dict_get k acc
  end.
Proof.
  revert acc. induction l as [|a l IH]; intros acc Hn; [reflexivity|].
  cbn [map] in Hn. apply NoDup_cons_iff in Hn as [Ha Hn].
  cbn [fold_left find]. rewrite (IH _ Hn).
  destruct (key_eqb (key a) k) eqn:E.
  - pose proof (key_eqb_eq _ _ (key_eqb_hashable _ _ E) E) as Hk.
    destruct (find (fun a0 => key_eqb (key a0) k) l) as [b|] eqn:F.
    + apply find_some in F as [Hb Fb]. exfalso. apply Ha.
      pose proof (key_eqb_eq _ _ (key_eqb_hashable _ _ Fb) Fb) as Hkb.
      rewrite Hk, <- Hkb. now apply in_map.
    + destruct (val a); [|reflexivity]. now rewrite dict_get_set, E.
  - assert (Hsame : dict_get k match val a with
                               | Some v => dict_set (key a) v acc
                               | None => acc
                               end = dict_get k acc).
    { destruct (val a); [|reflexivity]. now rewrite dict_get_set, E. }
    rewrite Hsame. reflexivity.
Qed.

Lemma fold_left_ext {A B} (f g : A -> B -> A) l acc :
  (forall a b, f a b = g a b) -> fold_left f l acc = fold_left g l acc.
Proof.
  intros H. revert acc. induction l as [|b l IH]; intros acc; cbn; [easy|].
  now rewrite H, IH.
Qed.

Lemma NoDup_index_keys {B} (l : list B) :
  NoDup (map (fun ib : nat * B => VStr (index_str (fst ib))) (enumerate l)).
Proof.
  apply NoDup_nth_error. intros i j Hi H.
  rewrite length_map, enumerate_length in Hi.
  rewrite !map_enumerate_nth in H. cbn [fst] in H.
  destruct (nth_error l i) eqn:Ei; [|apply nth_error_None in Ei; lia].
  destruct (nth_error l j) eqn:Ej; [|discriminate H].
  cbn in H. injection H as H. now apply index_str_inj.
Qed.

Lemma find_index_key {B} (l : list B) i :
  find (fun ib : nat * B => key_eqb (VStr (index_str (fst ib)))
                              (VStr (index_str i))) (enumerate l) =
  option_map (fun x => (i, x)) (nth_error l i).
Proof.
  destruct (find _ (enumerate l)) as [[j y]|] eqn:F.
  - apply find_some in F as [Hin Hk]. cbn [fst key_eqb] in Hk.
    apply pystr_eqb_eq, index_str_inj in Hk. subst j.
    apply enumerate_in in Hin. now rewrite Hin.
  - destruct (nth_error l i) as [x|] eqn:E; [|reflexivity].
    pose proof (find_none _ _ F (i, x) (proj2 (enumerate_in l i x) E)) as H.
    cbn [fst key_eqb] in H. now rewrite pystr_eqb_refl in H.
Qed.

Lemma find_index_other {B} (l : list B) k :
  (forall i, i < length l -> k <> VStr (index_str i)) ->
  find (fun ib : nat * B => key_eqb (VStr (index_str (fst ib))) k)
    (enumerate l) = None.
Proof.
  intros H. destruct (find _ (enumerate l)) as [[j y]|] eqn:F; [|reflexivity].
  apply find_some in F as [Hin Hk]. cbn [fst] in Hk.
  apply key_eqb_eq in Hk; [|reflexivity]. apply enumerate_in in Hin.
  destruct (H j); [|now symmetry].
  apply nth_error_Some. congruence.
Qed.

(** *** Combo boxes *)

Lemma findText_some t l i :
  findText t l = Some i -> nth_error l i = Some t.
Proof.
  revert i. induction l as [|x l IH]; intros i; cbn [findText]; [discriminate|].
  destruct (pystr_eqb x t) eqn:E.
  - intros [= <-]. apply pystr_eqb_eq in E. now subst.
  - destruct (findText t l) as [j|]; [|discriminate].
    intros [= <-]. now apply IH.
Qed.

Lemma findText_none t l : findText t l = None <-> ~ In t l.
Proof.
  induction l as [|x l IH]; cbn [findText In]; [tauto|].
  destruct (pystr_eqb x t) eqn:E.
  - apply pystr_eqb_eq in E. split; [discriminate|]. intros H. destruct H. auto.
  - assert (x <> t) by (intros ->; now rewrite pystr_eqb_refl in E).
    destruct (findText t l) as [j|] eqn:F; cbn [option_map].
    + split; [discriminate|]. intros H'. exfalso. apply H'. right.
      apply findText_some in F. now apply nth_error_In in F.
    + split; [|reflexivity]. intros _ [Hx|Hin]; [congruence|].
      now apply (proj1 IH).
Qed.

Lemma existsb_pystr t l : existsb (pystr_eqb t) l = true <-> In t l.
Proof.
  rewrite existsb_exists. split.
  - intros (x & Hin & E). apply pystr_eqb_eq in E. now subst.
  - intros H. exists t. split; [exact H|apply pystr_eqb_refl].
Qed.

(** A text of the box becomes its current text. *)
Lemma setCurrentText_in t c :
  In t (items c) ->
  exists i, setCurrentText t c = {| items := items c; current := Some i |} /\
            findText t (items c) = Some i /\
            currentText (setCurrentText t c) = t.
Proof.
  intros Hin. unfold setCurrentText.
  destruct (findText t (items c)) as [i|] eqn:F.
  - exists i. repeat split. unfold currentText. cbn [current items].
    apply findText_some in F. now apply nth_error_nth.
  - apply findText_none in F. contradiction.
Qed.

Lemma setCurrentText_out t c : ~ In t (items c) -> setCurrentText t c = c.
Proof.
  intros Hn. unfold setCurrentText.
  now rewrite (proj2 (findText_none t (items c)) Hn).
Qed.

Lemma setCurrentText_items t c : items (setCurrentText t c) = items c.
Proof. unfold setCurrentText. now destruct (findText t (items c)). Qed.

(** *** The pairing boxes *)

(** What a pairing box offers, and what it shows: something it offers. *)
Lemma pairing_box_spec names old i key :
  let box := pairing_box names old i key in
  let options :=
    py:"None" :: filter (fun k => negb (pystr_eqb k key)) names in
  fst box = py:"Pair '" ++ key ++ py:"' with:" /\
  items (snd box) = options /\
  findText (currentText (snd box)) options = current (snd box) /\
  In (currentText (snd box)) options /\
  currentText (snd box) =
    match nth_error old i with
    | Some t => if existsb (pystr_eqb t) options then t else py:"None"
    | None => py:"None"
    end.
Proof.
  cbv zeta. unfold pairing_box. cbn [fst snd].
  set (options := py:"None" :: filter (fun k => negb (pystr_eqb k key)) names).
  assert (Hbase : addItems options new_combo =
                  {| items := options; current := Some 0 |}) by reflexivity.
  assert (Hnone : let c := addItems options new_combo in
            items c = options /\
            findText (currentText c) options = current c /\
            In (currentText c) options /\ currentText c = py:"None").
  { rewrite Hbase. repeat split. now left. }
  split; [reflexivity|].
  destruct (nth_error old i) as [t|]; [|exact Hnone].
  destruct (existsb (pystr_eqb t) options) eqn:E; [|exact Hnone].
  apply existsb_pystr in E. rewrite Hbase.
  destruct (@setCurrentText_in t {| items := options; current := Some 0 |} E)
    as (j & -> & F & Ht).
  cbn [items] in F. unfold currentText. cbn [items current].
  apply findText_some in F as F'. rewrite (nth_error_nth _ _ _ F').
  repeat split; [exact F|exact E].
Qed.

(** A box is determined by what it offers and what it shows. *)
Lemma pairing_box_again names old old' i key :
  nth_error old' i = Some (currentText (snd (pairing_box names old i key))) ->
  pairing_box names old' i key = pairing_box names old i key.
Proof.
  intros H.
  destruct (pairing_box_spec names old i key) as (Hl & Hi & Hf & Hin & _).
  destruct (pairing_box_spec names old' i key) as (Hl' & Hi' & Hf' & _ & Hc').
  rewrite H in Hc'. rewrite (proj2 (existsb_pystr _ _) Hin) in Hc'.
  rewrite Hc', Hf in Hf'.
  destruct (pairing_box names old i key) as [l [it cu]].
  destruct (pairing_box names old' i key) as [l' [it' cu']].
  cbn [fst snd items current] in *. congruence.
Qed.

Lemma key_names_refresh d : key_names (refresh_marker_ui d) = key_names d.
Proof.
  unfold key_names, refresh_marker_ui. cbn [rows]. rewrite map_map.
  reflexivity.
Qed.

Lemma refresh_pairing_nth d i :
  nth_error (pairing (refresh_marker_ui d)) i =
  option_map
    (pairing_box (key_names d)
       (map (fun p => currentText (snd p)) (pairing d)) i)
    (nth_error (key_names d) i).
Proof.
  unfold refresh_marker_ui. cbn [pairing].
  destruct (key_names d) as [|k l] eqn:E.
  - now destruct i.
  - rewrite map_enumerate_nth. cbn [fst snd]. reflexivity.
Qed.

Lemma refresh_pairing_length d :
  length (pairing (refresh_marker_ui d)) = length (rows d).
Proof.
  unfold refresh_marker_ui. cbn [pairing].
  assert (H : length (key_names d) = length (rows d))
    by apply length_map.
  destruct (key_names d) as [|k l] eqn:E; [exact H|].
  now rewrite length_map, enumerate_length.
Qed.

Lemma nth_error_ext {A} (l l' : list A) :
  (forall i, nth_error l i = nth_error l' i) -> l = l'.
Proof.
  revert l'. induction l as [|x l IH]; intros [|y l'] H.
  - reflexivity.
  - discriminate (H 0).
  - discriminate (H 0).
  - pose proof (H 0) as H0. cbn in H0. injection H0 as ->.
    f_equal. apply IH. intros i. exact (H (S i)).
Qed.

(** X14: [refresh_marker_ui] rebuilds the marker tab to a fixed point: a
    second refresh changes nothing, neither a label nor what a pairing box
    offers nor what it shows, so the selections survive every refresh that
    follows no change of the keys. *)
Theorem refresh_marker_ui_idempotent d :
  refresh_marker_ui (refresh_marker_ui d) = refresh_marker_ui d.
Proof.
  assert (Hp : pairing (refresh_marker_ui (refresh_marker_ui d)) =
               pairing (refresh_marker_ui d)).
  { apply nth_error_ext. intros i.
    rewrite (refresh_pairing_nth (refresh_marker_ui d)), key_names_refresh.
    rewrite (refresh_pairing_nth d).
    destruct (nth_error (key_names d) i) as [key|] eqn:E; [|reflexivity].
    cbn [option_map]. f_equal. apply pairing_box_again.
    rewrite nth_error_map, (refresh_pairing_nth d), E. reflexivity. }
  assert (Hr : rows (refresh_marker_ui (refresh_marker_ui d)) =
               rows (refresh_marker_ui d)).
  { unfold refresh_marker_ui. cbn [rows]. rewrite map_map. reflexivity. }
  destruct (refresh_marker_ui (refresh_marker_ui d)) as [r p e] eqn:E2.
  destruct (refresh_marker_ui d) as [r1 p1 e1] eqn:E1.
  cbn [rows pairing] in Hp, Hr. subst r p. f_equal.
  apply (f_equal marker_pairing_enabled) in E2.
  rewrite <- E1 in E2. cbn in E2. rewrite <- E2.
  apply (f_equal marker_pairing_enabled) in E1. cbn in E1. now rewrite <- E1.
Qed.

(** X15: after [refresh_marker_ui] the row at a position has its own
    pairing box, labelled with its key, which offers ["None"] and then the
    keys of the other rows in their order; its own key is never offered and
    never shown, and what it shows is ["None"] or the key of a row. (For a
    key other than the name ["None"], which no key box holds.) *)
Theorem no_marker_is_paired_with_itself d i key :
  nth_error (key_names d) i = Some key -> key <> py:"None" ->
  exists box,
    nth_error (pairing (refresh_marker_ui d)) i = Some box /\
    fst box = py:"Pair '" ++ key ++ py:"' with:" /\
    items (snd box) =
      py:"None" :: filter (fun k => negb (pystr_eqb k key)) (key_names d) /\
    ~ In key (items (snd box)) /\
    currentText (snd box) <> key /\
    (currentText (snd box) = py:"None" \/
     In (currentText (snd box)) (key_names d)).
Proof.
  intros E Hk. rewrite refresh_pairing_nth, E. cbn [option_map].
  eexists. split; [reflexivity|].
  destruct (pairing_box_spec (key_names d)
              (map (fun p => currentText (snd p)) (pairing d)) i key)
    as (Hl & Hi & _ & Hin & _).
  assert (Hno : ~ In key (py:"None" ::
                  filter (fun k => negb (pystr_eqb k key)) (key_names d))).
  { intros [H|H]; [now apply Hk|]. apply filter_In in H as [_ H].
    now rewrite pystr_eqb_refl in H. }
  split; [exact Hl|]. split; [exact Hi|]. rewrite Hi.
  split; [exact Hno|]. split.
  - intros H. apply Hno. rewrite H in Hin. exact Hin.
  - destruct Hin as [H|H]; [now left|]. right.
    now apply filter_In in H as [H _].
Qed.

Lemma no_marker_is_paired_with_itself_witness :
  exists box,
    nth_error
      (pairing (refresh_marker_ui
                  (load_settings example_marker_config new_dialog))) 0 =
      Some box /\
    currentText (snd box) <> py:"Key_A".
Proof.
  destruct (@no_marker_is_paired_with_itself
              (load_settings example_marker_config new_dialog) 0 py:"Key_A")
    as (box & Hb & _ & _ & _ & Hc & _).
  - vm_compute. reflexivity.
  - discriminate.
  - exists box. split; assumption.
Defined.

(** *** Loading *)

Lemma rows_refresh_length d :
  length (rows (refresh_marker_ui d)) = length (rows d).
Proof. unfold refresh_marker_ui. cbn [rows]. apply length_map. Qed.

Lemma drop_nth_0_length {A} (l : list A) :
  length (drop_nth 0 l) = length l - 1.
Proof. destruct l; cbn; lia. Qed.

Lemma iter_remove_length n d :
  length (rows (Nat.iter n (remove_marker_row 0) d)) = length (rows d) - n.
Proof.
  induction n as [|n IH]; cbn [Nat.iter nat_rect]; [lia|].
  unfold remove_marker_row at 1. rewrite rows_refresh_length. cbn [rows].
  rewrite drop_nth_0_length. change (nat_rect _ d _ n) with
    (Nat.iter n (remove_marker_row 0) d). lia.
Qed.

(** The loop at the head of [load_settings] leaves no row and no pairing
    box. *)
Lemma rows_cleared d :
  let d0 := Nat.iter (length (rows d)) (remove_marker_row 0) d in
  rows d0 = [] /\
  (length (pairing d) = length (rows d) -> pairing d0 = []).
Proof.
  cbv zeta. split.
  - apply length_zero_iff_nil. rewrite iter_remove_length. lia.
  - intros Hwf. apply length_zero_iff_nil.
    destruct (length (rows d)) as [|n] eqn:E; [exact Hwf|].
    cbn [Nat.iter nat_rect]. unfold remove_marker_row at 1.
    rewrite refresh_pairing_length. cbn [rows]. rewrite drop_nth_0_length.
    change (nat_rect _ d _ n) with (Nat.iter n (remove_marker_row 0) d).
    rewrite iter_remove_length. lia.
Qed.

Lemma populated :
  populate_key_combo new_combo = {| items := qt_keys; current := Some 0 |}.
Proof. reflexivity. Qed.

Lemma qt_keys_plain k :
  In k qt_keys -> k <> [] /\ k <> py:"None".
Proof.
  intros H.
  assert (F : forallb (fun k => negb (pystr_eqb k []) &&
                                negb (pystr_eqb k py:"None")) qt_keys = true)
    by (vm_compute; reflexivity).
  rewrite forallb_forall in F. specialize (F k H).
  apply andb_true_iff in F as [F1 F2]. split; intros ->.
  - discriminate F1.
  - rewrite pystr_eqb_refl in F2. discriminate F2.
Qed.

(** The key that a new row shows for a name of the configuration. *)
Lemma shown_key k :
  currentText match k with
              | _ :: _ => setCurrentText k (populate_key_combo new_combo)
              | [] => populate_key_combo new_combo
              end =
  if existsb (pystr_eqb k) qt_keys then k else py:"Key_F1".
Proof.
  rewrite populated.
  destruct (existsb (pystr_eqb k) qt_keys) eqn:E.
  - apply existsb_pystr in E.
    destruct (qt_keys_plain E) as [Hne _].
    destruct k as [|x r]; [congruence|].
    now destruct (@setCurrentText_in (x :: r)
                    {| items := qt_keys; current := Some 0 |} E)
      as (j & _ & _ & ->).
  - assert (Hn : ~ In k qt_keys).
    { intros H. apply existsb_pystr in H. congruence. }
    destruct k as [|x r]; [reflexivity|].
    now rewrite (@setCurrentText_out (x :: r)
                   {| items := qt_keys; current := Some 0 |} Hn).
Qed.

Lemma add_rows colors l d :
  fold_left
    (fun acc (ik : nat * pystr) =>
       add_marker_row (Some (snd ik)) (nth_error colors (fst ik)) false acc)
    l d =
  {| rows := rows d ++
       map (fun ik : nat * pystr =>
              {| row_label := py:"Marker:";
                 key_combo := match snd ik with
                              | _ :: _ => setCurrentText (snd ik)
                                            (populate_key_combo new_combo)
                              | [] => populate_key_combo new_combo
                              end;
                 color := match nth_error colors (fst ik) with
                          | Some c => c
                          | None => lightgray
                          end |}) l;
     pairing := pairing d;
     marker_pairing_enabled := marker_pairing_enabled d |}.
Proof.
  revert d. induction l as [|[i k] l IH]; intros d; cbn [fold_left map].
  - rewrite app_nil_r. now destruct d.
  - rewrite IH. unfold add_marker_row. cbn [rows pairing
      marker_pairing_enabled fst snd]. rewrite <- app_assoc. cbn [app].
    now destruct k.
Qed.

Lemma map_snd_enumerate {A} (l : list A) : map snd (enumerate l) = l.
Proof.
  apply nth_error_ext. intros i. rewrite map_enumerate_nth.
  now destruct (nth_error l i).
Qed.

(** The dialog just before the pairing boxes are set from the rules. *)
Lemma load_settings_rows cfg d :
  let d1 :=
    fold_left
      (fun acc (ik : nat * pystr) =>
         add_marker_row (Some (snd ik)) (nth_error (cfg_colors cfg) (fst ik))
           false acc)
      (enumerate (cfg_keys cfg))
      (Nat.iter (length (rows d)) (remove_marker_row 0) d) in
  key_names d1 =
    map (fun k => if existsb (pystr_eqb k) qt_keys then k else py:"Key_F1")
      (cfg_keys cfg) /\
  map color (rows d1) =
    map (fun ik => match nth_error (cfg_colors cfg) (fst ik) with
                   | Some c => c
                   | None => lightgray
                   end) (enumerate (cfg_keys cfg)) /\
  (length (pairing d) = length (rows d) -> pairing d1 = []).
Proof.
  cbv zeta. rewrite add_rows. destruct (rows_cleared d) as [Hr Hp].
  unfold key_names. cbn [rows pairing]. rewrite Hr. cbn [app].
  rewrite !map_map. cbn [key_combo color]. repeat split.
  - rewrite <- (map_snd_enumerate (cfg_keys cfg)) at 2. rewrite map_map.
    apply map_ext. intros [i k]. cbn [snd]. apply shown_key.
  - exact Hp.
Qed.

Lemma load_settings_key_names cfg d :
  key_names (load_settings cfg d) =
  map (fun k => if existsb (pystr_eqb k) qt_keys then k else py:"Key_F1")
    (cfg_keys cfg).
Proof.
  destruct (load_settings_rows cfg d) as (Hk & _ & _).
  unfold load_settings. cbv zeta. unfold key_names at 1. cbn [rows].
  fold (key_names (refresh_marker_ui
    (fold_left
      (fun acc (ik : nat * pystr) =>
         add_marker_row (Some (snd ik)) (nth_error (cfg_colors cfg) (fst ik))
           false acc)
      (enumerate (cfg_keys cfg))
      (Nat.iter (length (rows d)) (remove_marker_row 0) d)))).
  now rewrite key_names_refresh.
Qed.

(** X16: [load_settings] replaces whatever rows the dialog had by one row
    for each key of the configuration, in order, with a pairing box each;
    a name that is not among the keys of the list (the function keys, the
    digits, the letters) is shown as [Key_F1] without a word, and that is
    also what [apply_changes] writes back. *)
Theorem load_settings_shows_known_keys cfg d :
  let shown k := if existsb (pystr_eqb k) qt_keys then k else py:"Key_F1" in
  let d' := load_settings cfg d in
  key_names d' = map shown (cfg_keys cfg) /\
  marker_keys (apply_changes d') = map shown (cfg_keys cfg) /\
  length (rows d') = length (cfg_keys cfg) /\
  length (pairing d') = length (cfg_keys cfg) /\
  marker_pairing_enabled d' = cfg_pairing_enabled cfg.
Proof.
  cbv zeta. pose proof (load_settings_key_names cfg d) as Hk.
  split; [exact Hk|]. split; [exact Hk|].
  destruct (load_settings_rows cfg d) as (Hk1 & Hc & _).
  unfold load_settings. cbv zeta. cbn [rows pairing marker_pairing_enabled].
  apply (f_equal (@length pystr)) in Hk1. unfold key_names in Hk1.
  rewrite !length_map in Hk1. repeat split.
  - now rewrite rows_refresh_length.
  - now rewrite length_map, enumerate_length, refresh_pairing_length.
Qed.

(** *** Rules *)

Lemma index_str_nonempty i : index_str i <> [].
Proof.
  intros H. pose proof (SavingFacts.py_int_repr_int (Z.of_nat (i + 1))) as E.
  unfold index_str in H. rewrite H in E. discriminate E.
Qed.

(** [index_to_key] of [load_settings] *)
Lemma index_to_key_get names k :
  dict_get k
    (fold_left
       (fun acc (ik : nat * pystr) =>
          dict_set (VStr (index_str (fst ik))) (snd ik) acc)
       (enumerate names) []) =
  option_map snd
    (find (fun ik : nat * pystr => key_eqb (VStr (index_str (fst ik))) k)
       (enumerate names)).
Proof.
  rewrite (@fold_set_get _ _ (fun ik : nat * pystr =>
             VStr (index_str (fst ik))) (fun ik => Some (snd ik))
             (enumerate names) [] k (NoDup_index_keys names)).
  now destruct (find _ (enumerate names)).
Qed.

(** [key_to_index] of [apply_changes], for keys that are all different *)
Lemma key_to_index_get names j key :
  NoDup names -> nth_error names j = Some key ->
  dict_get (VStr key)
    (fold_left
       (fun acc (ik : nat * pystr) =>
          dict_set (VStr (snd ik)) (index_str (fst ik)) acc)
       (enumerate names) []) = Some (index_str j).
Proof.
  intros Hn Hj.
  assert (Hd : NoDup (map (fun ik : nat * pystr => VStr (snd ik))
                        (enumerate names))).
  { rewrite <- (map_map snd VStr), map_snd_enumerate.
    clear Hj. induction Hn as [|x l Hx Hn IH]; cbn [map]; constructor.
    - intros H. apply in_map_iff in H as (y & [= ->] & Hy). contradiction.
    - exact IH. }
  rewrite (@fold_set_get _ _ (fun ik : nat * pystr => VStr (snd ik))
             (fun ik => Some (index_str (fst ik)))
             (enumerate names) [] (VStr key) Hd).
  destruct (find _ (enumerate names)) as [[j' x]|] eqn:F.
  - apply find_some in F as [Hin Hx]. cbn [snd key_eqb] in Hx.
    apply pystr_eqb_eq in Hx. subst x. apply enumerate_in in Hin.
    cbn [fst]. f_equal. f_equal.
    apply (proj1 (NoDup_nth_error names) Hn).
    + apply nth_error_Some. congruence.
    + congruence.
  - pose proof (find_none _ _ F (j, key)
                  (proj2 (enumerate_in names j key) Hj)) as H.
    cbn [snd key_eqb] in H. now rewrite pystr_eqb_refl in H.
Qed.

(** What a pairing box writes into the rules. *)
Lemma new_rules_get k2i boxes k :
  dict_get k (new_rules k2i boxes) =
  match find (fun ib : nat * (pystr * Combo) =>
                key_eqb (VStr (index_str (fst ib))) k) (enumerate boxes) with
  | Some ib =>
      if pystr_eqb (currentText (snd (snd ib))) py:"None" then None
      else match dict_get (VStr (currentText (snd (snd ib)))) k2i with
           | Some (x :: p) => Some (x :: p)
           | _ => None
           end
  | None => None
  end.
Proof.
  unfold new_rules.
  pose (val := fun ib : nat * (pystr * Combo) =>
    if pystr_eqb (currentText (snd (snd ib))) py:"None" then None
    else match dict_get (VStr (currentText (snd (snd ib)))) k2i with
         | Some (x :: p) => Some (x :: p)
         | _ => None
         end).
  rewrite (@fold_left_ext _ _ _
    (fun acc (ib : nat * (pystr * Combo)) =>
       match val ib with
       | Some v => dict_set (VStr (index_str (fst ib))) v acc
       | None => acc
       end)).
  - etransitivity;
      [exact (@fold_set_get _ _
         (fun ib : nat * (pystr * Combo) => VStr (index_str (fst ib))) val
         (enumerate boxes) [] k (NoDup_index_keys boxes))|].
    cbv beta.
    destruct (find _ (enumerate boxes)) as [ib|]; [|reflexivity].
    cbn [dict_get]. subst val. cbv beta.
    destruct (pystr_eqb (currentText (snd (snd ib))) py:"None");
      [reflexivity|].
    now destruct (dict_get (VStr (currentText (snd (snd ib)))) k2i)
      as [[|x p]|].
  - intros acc ib. subst val. cbv beta zeta.
    destruct (pystr_eqb (currentText (snd (snd ib))) py:"None");
      [reflexivity|].
    now destruct (dict_get (VStr (currentText (snd (snd ib)))) k2i)
      as [[|x p]|].
Qed.

(** The pairing boxes after [load_settings], in a dialog that had a pairing
    box for each row. *)
Lemma load_settings_boxes cfg d i :
  length (pairing d) = length (rows d) ->
  let names := key_names (load_settings cfg d) in
  nth_error (pairing (load_settings cfg d)) i =
  option_map
    (fun key =>
       select_partner (cfg_rules cfg)
         (fold_left
            (fun acc (ik : nat * pystr) =>
               dict_set (VStr (index_str (fst ik))) (snd ik) acc)
            (enumerate names) [])
         i (pairing_box names [] i key))
    (nth_error names i).
Proof.
  intros Hwf. cbv zeta.
  destruct (load_settings_rows cfg d) as (_ & _ & Hp). specialize (Hp Hwf).
  set (d1 := fold_left _ (enumerate (cfg_keys cfg)) _) in Hp.
  change (key_names (load_settings cfg d))
    with (key_names (refresh_marker_ui d1)).
  change (pairing (load_settings cfg d))
    with (map (fun ib : nat * (pystr * Combo) =>
                 select_partner (cfg_rules cfg)
                   (fold_left
                      (fun acc (ik : nat * pystr) =>
                         dict_set (VStr (index_str (fst ik))) (snd ik) acc)
                      (enumerate (key_names (refresh_marker_ui d1))) [])
                   (fst ib) (snd ib))
            (enumerate (pairing (refresh_marker_ui d1)))).
  rewrite key_names_refresh, map_enumerate_nth, refresh_pairing_nth, Hp.
  cbn [map fst snd]. now destruct (nth_error (key_names d1) i).
Qed.

Lemma pairing_box_fresh names i key :
  items (snd (pairing_box names [] i key)) =
    py:"None" :: filter (fun k => negb (pystr_eqb k key)) names /\
  currentText (snd (pairing_box names [] i key)) = py:"None".
Proof.
  destruct (pairing_box_spec names [] i key) as (_ & Hi & _ & _ & Hc).
  split; [exact Hi|]. rewrite Hc. now destruct i.
Qed.

(** X17: the pairing rules survive [load_settings] followed by
    [apply_changes], when the keys that the dialog shows are all different:
    a rule of the configuration that pairs a marker with another marker
    of the list is written back as it was, and nothing else is written: a
    rule that names the marker itself, a marker beyond the list or a key
    that is no position is dropped. *)
Theorem pairing_rules_round_trip cfg d :
  length (pairing d) = length (rows d) ->
  NoDup (key_names (load_settings cfg d)) ->
  let n := length (cfg_keys cfg) in
  let out := pairing_rules (apply_changes (load_settings cfg d)) in
  (forall i j, i < n -> j < n -> i <> j ->
     dict_get (VStr (index_str i)) (cfg_rules cfg) = Some (index_str j) ->
     dict_get (VStr (index_str i)) out = Some (index_str j)) /\
  (forall k v, dict_get k out = Some v ->
     exists i j, i < n /\ j < n /\ i <> j /\ k = VStr (index_str i) /\
       v = index_str j /\ dict_get k (cfg_rules cfg) = Some v).
Proof.
  intros Hwf Hnd. cbv zeta.
  pose proof (load_settings_key_names cfg d) as Hnames.
  pose proof (fun i => @load_settings_boxes cfg d i Hwf) as Hboxes. cbv zeta in Hboxes.
  unfold apply_changes. cbn [pairing_rules].
  set (names := key_names (load_settings cfg d)) in *.
  assert (Hlen : length names = length (cfg_keys cfg))
    by (rewrite Hnames; apply length_map).
  assert (Hqt : forall key, In key names -> In key qt_keys).
  { intros key H. rewrite Hnames in H. apply in_map_iff in H as (k0 & <- & _).
    destruct (existsb (pystr_eqb k0) qt_keys) eqn:E.
    - now apply existsb_pystr.
    - apply existsb_pystr. vm_compute. reflexivity. }
  split.
  - intros i j Hi Hj Hij Hr.
    destruct (nth_error names i) as [key_i|] eqn:Ei;
      [|apply nth_error_None in Ei; lia].
    destruct (nth_error names j) as [key_j|] eqn:Ej;
      [|apply nth_error_None in Ej; lia].
    destruct (@qt_keys_plain key_j (Hqt _ (nth_error_In _ _ Ej))) as [Hne Hnone].
    assert (Hdiff : key_j <> key_i).
    { intros ->. apply Hij.
      apply (proj1 (NoDup_nth_error names) Hnd); [|congruence].
      apply nth_error_Some. congruence. }
    destruct (pairing_box_fresh names i key_i) as [Hit _].
    assert (Hin : In key_j (items (snd (pairing_box names [] i key_i)))).
    { rewrite Hit. right. apply filter_In. split; [now apply nth_error_In in Ej|].
      apply negb_true_iff. destruct (pystr_eqb key_j key_i) eqn:E; [|easy].
      now apply pystr_eqb_eq in E. }
    destruct (@setCurrentText_in _ _ Hin) as (c & _ & _ & Hcur).
    rewrite new_rules_get, find_index_key, Hboxes, Ei. cbn [option_map].
    unfold select_partner. rewrite Hr.
    destruct (index_str j) as [|x p] eqn:Es;
      [now destruct (index_str_nonempty j)|]. rewrite <- Es.
    rewrite index_to_key_get, find_index_key, Ej. cbn [option_map snd].
    destruct key_j as [|y kk]; [congruence|]. cbn [snd]. rewrite Hcur.
    replace (pystr_eqb (y :: kk) py:"None") with false.
    + rewrite (@key_to_index_get names j _ Hnd Ej), Es. reflexivity.
    + symmetry. destruct (pystr_eqb (y :: kk) py:"None") eqn:E; [|easy].
      now apply pystr_eqb_eq in E.
  - intros k v H. rewrite new_rules_get in H.
    destruct (find _ (enumerate (pairing (load_settings cfg d))))
      as [[i box]|] eqn:F; [|discriminate H].
    apply find_some in F as [Hin Hk]. cbn [fst] in Hk.
    apply key_eqb_eq in Hk; [|reflexivity]. subst k.
    apply enumerate_in in Hin. rewrite Hboxes in Hin.
    destruct (nth_error names i) as [key_i|] eqn:Ei; [|discriminate Hin].
    cbn [option_map] in Hin. injection Hin as Hbox. cbn [snd] in H.
    destruct (pairing_box_fresh names i key_i) as [Hit Hfresh].
    assert (Hidle : snd box = snd (pairing_box names [] i key_i) -> False).
    { intros E. rewrite E, Hfresh in H. cbn in H. discriminate H. }
    unfold select_partner in Hbox.
    destruct (dict_get (VStr (index_str i)) (cfg_rules cfg))
      as [[|x p]|] eqn:Er; try (exfalso; apply Hidle; now subst box).
    rewrite index_to_key_get in Hbox.
    destruct (find _ (enumerate names)) as [[j key_j]|] eqn:F2;
      cbn [option_map snd] in Hbox;
      [|exfalso; apply Hidle; now subst box].
    destruct key_j as [|y kk]; [exfalso; apply Hidle; now subst box|].
    apply find_some in F2 as [Hj Hs]. cbn [fst key_eqb] in Hs.
    apply pystr_eqb_eq in Hs. apply enumerate_in in Hj.
    subst box. cbn [snd] in H, Hidle.
    destruct (existsb (pystr_eqb (y :: kk))
                (items (snd (pairing_box names [] i key_i)))) eqn:Eo.
    + apply existsb_pystr in Eo.
      destruct (@setCurrentText_in _ _ Eo) as (c & _ & _ & Hcur).
      rewrite Hcur in H.
      destruct (pystr_eqb (y :: kk) py:"None") eqn:En; [discriminate H|].
      rewrite (@key_to_index_get names j _ Hnd Hj), Hs in H. injection H as <-.
      exists i, j. repeat split.
      * rewrite <- Hlen. apply nth_error_Some. congruence.
      * rewrite <- Hlen. apply nth_error_Some. congruence.
      * intros ->. rewrite Hit in Eo. destruct Eo as [Eo|Eo].
        -- rewrite <- Eo, pystr_eqb_refl in En. discriminate En.
        -- apply filter_In in Eo as [_ Eo].
           replace key_i with (y :: kk) in Eo by congruence.
           rewrite pystr_eqb_refl in Eo. discriminate Eo.
      * now symmetry.
    + exfalso. apply Hidle. apply setCurrentText_out. intros Hin.
      apply existsb_pystr in Hin. congruence.
Qed.

Lemma pairing_rules_round_trip_witness :
  dict_get (VStr py:"1")
    (pairing_rules
       (apply_changes (load_settings example_marker_config new_dialog))) =
  Some py:"2".
Proof.
  apply (proj1 (@pairing_rules_round_trip example_marker_config new_dialog
                  eq_refl
                  ltac:(vm_compute; repeat constructor; cbn;
                        intuition discriminate)) 0 1).
  - cbn. lia.
  - cbn. lia.
  - discriminate.
  - reflexivity.
Defined.

(** X18: adding a marker to a refreshed tab appends one row, which shows
    the given key when the list has it and [Key_F1] otherwise; every
    pairing box that was there keeps its label and its selection, and the
    box of the new row shows ["None"]. *)
Theorem add_marker_row_keeps_pairings d0 key_name c :
  let d := refresh_marker_ui d0 in
  let d' := add_marker_row key_name c true d in
  key_names d' =
    key_names d ++
    [match key_name with
     | Some k => if existsb (pystr_eqb k) qt_keys then k else py:"Key_F1"
     | None => py:"Key_F1"
     end] /\
  (forall i box, nth_error (pairing d) i = Some box ->
     exists box', nth_error (pairing d') i = Some box' /\
       fst box' = fst box /\
       currentText (snd box') = currentText (snd box)) /\
  (exists box, nth_error (pairing d') (length (rows d)) = Some box /\
     currentText (snd box) = py:"None") /\
  length (pairing d') = S (length (pairing d)).
Proof.
  cbv zeta. unfold add_marker_row.
  set (combo := match key_name with
                | Some (x :: k) => setCurrentText (x :: k)
                                     (populate_key_combo new_combo)
                | _ => populate_key_combo new_combo
                end).
  set (d := refresh_marker_ui d0).
  set (d1 := {| rows := rows d ++ _; pairing := pairing d;
                marker_pairing_enabled := marker_pairing_enabled d |}).
  assert (Hn1 : key_names d1 = key_names d ++ [currentText combo]).
  { unfold key_names, d1. cbn [rows]. now rewrite map_app. }
  assert (Hlen : length (key_names d) = length (rows d))
    by apply length_map.
  split; [|split; [|split]].
  - rewrite key_names_refresh, Hn1. f_equal. f_equal. subst combo.
    destruct key_name as [k|]; [|reflexivity].
    rewrite <- (shown_key k). now destruct k.
  - intros i box Hb. rewrite refresh_pairing_nth, Hn1.
    unfold d in Hb. rewrite refresh_pairing_nth in Hb.
    destruct (nth_error (key_names d0) i) as [key|] eqn:Ei; [|discriminate Hb].
    cbn [option_map] in Hb. injection Hb as Hb.
    assert (Ed : nth_error (key_names d) i = Some key)
      by (unfold d; now rewrite key_names_refresh).
    rewrite (nth_error_app1 _ _ (proj1 (nth_error_Some _ _)
               ltac:(rewrite Ed; discriminate))), Ed.
    cbn [option_map]. eexists. split; [reflexivity|].
    destruct (pairing_box_spec (key_names d0)
                (map (fun p => currentText (snd p)) (pairing d0)) i key)
      as (Hl & _ & _ & Hin & _).
    rewrite Hb in Hl, Hin.
    destruct (pairing_box_spec (key_names d ++ [currentText combo])
                (map (fun p => currentText (snd p)) (pairing d1)) i key)
      as (Hl' & _ & _ & _ & Hc').
    assert (Hk : key_names d = key_names d0)
      by (unfold d; apply key_names_refresh).
    assert (Hold : nth_error (map (fun p => currentText (snd p)) (pairing d1)) i
                   = Some (currentText (snd box))).
    { unfold d1. cbn [pairing]. unfold d.
      rewrite nth_error_map, refresh_pairing_nth, Ei. cbn [option_map].
      now rewrite Hb. }
    split; [congruence|].
    rewrite Hc', Hold.
    replace (existsb _ _) with true; [reflexivity|]. symmetry.
    apply existsb_pystr. destruct Hin as [Hin|Hin]; [now left|]. right.
    rewrite Hk, filter_app. apply in_or_app. now left.
  - rewrite refresh_pairing_nth, Hn1, <- Hlen.
    rewrite nth_error_app2, Nat.sub_diag by lia. cbn [nth_error option_map].
    eexists. split; [reflexivity|].
    destruct (pairing_box_spec (key_names d ++ [currentText combo])
                (map (fun p => currentText (snd p)) (pairing d1))
                (length (key_names d)) (currentText combo))
      as (_ & _ & _ & _ & Hc).
    rewrite Hc.
    replace (nth_error _ (length (key_names d))) with (@None pystr);
      [reflexivity|].
    symmetry. apply nth_error_None. rewrite length_map. unfold d1.
    cbn [pairing]. unfold d. rewrite refresh_pairing_length.
    fold d. rewrite Hlen. unfold d. rewrite rows_refresh_length. lia.
  - rewrite refresh_pairing_length. unfold d1. cbn [rows].
    rewrite length_app. cbn [length]. unfold d.
    rewrite refresh_pairing_length, rows_refresh_length. lia.
Qed.

Lemma map_drop_nth {A B} (f : A -> B) i l :
  map f (drop_nth i l) = drop_nth i (map f l).
Proof.
  revert i. induction l as [|x l IH]; intros [|i]; cbn [drop_nth map];
    try reflexivity.
  now rewrite IH.
Qed.

Lemma drop_nth_length {A} i (l : list A) :
  length (drop_nth i l) <= length l.
Proof.
  revert i. induction l as [|x l IH]; intros [|i]; cbn [drop_nth length];
    try lia.
  specialize (IH i). lia.
Qed.

(** X19: removing a row of a refreshed tab removes its key from the list,
    and the pairing boxes keep their selections by position, not by
    marker: the box at a position shows what the box at that position
    showed before the removal, when that is still on offer there, and
    ["None"] otherwise; so the rows after the removed one take over the
    selections of their predecessors. *)
Theorem remove_marker_row_keeps_selections_by_position d0 i :
  let d := refresh_marker_ui d0 in
  let d' := remove_marker_row i d in
  key_names d' = drop_nth i (key_names d) /\
  forall p key, nth_error (key_names d') p = Some key ->
    exists box box',
      nth_error (pairing d) p = Some box /\
      nth_error (pairing d') p = Some box' /\
      fst box' = py:"Pair '" ++ key ++ py:"' with:" /\
      currentText (snd box') =
        if existsb (pystr_eqb (currentText (snd box)))
             (py:"None" ::
              filter (fun k => negb (pystr_eqb k key)) (key_names d'))
        then currentText (snd box) else py:"None".
Proof.
  cbv zeta. set (d := refresh_marker_ui d0). unfold remove_marker_row.
  set (d1 := {| rows := drop_nth i (rows d); pairing := pairing d;
                marker_pairing_enabled := marker_pairing_enabled d |}).
  assert (Hk : key_names d1 = drop_nth i (key_names d)).
  { unfold key_names, d1. cbn [rows]. apply map_drop_nth. }
  rewrite key_names_refresh. split; [exact Hk|].
  intros p key Hp.
  assert (Hlt : p < length (pairing d)).
  { unfold d. rewrite refresh_pairing_length, <- rows_refresh_length.
    fold d. pose proof (drop_nth_length i (key_names d)) as Hle.
    rewrite <- Hk in Hle.
    assert (p < length (key_names d1))
      by (apply nth_error_Some; congruence).
    unfold key_names in Hle at 2. rewrite length_map in Hle. lia. }
  destruct (nth_error (pairing d) p) as [box|] eqn:Eb;
    [|apply nth_error_None in Eb; lia].
  exists box. eexists. split; [reflexivity|].
  rewrite refresh_pairing_nth, Hp. cbn [option_map].
  split; [reflexivity|].
  destruct (pairing_box_spec (key_names d1)
              (map (fun q => currentText (snd q)) (pairing d1)) p key)
    as (Hl & _ & _ & _ & Hc).
  split; [exact Hl|]. rewrite Hc. change (pairing d1) with (pairing d).
  now rewrite nth_error_map, Eb.
Qed.

End ConfigWindowFacts.
